(** * The DGL tutorial notebooks: graph construction, feature frames and a
      two-layer GCN on the send/recv message-passing interface.

    The notebooks are glue code over two libraries (a tensor library and a
    graph library).  The first part of this file is a model of the part of
    the graph library's interface that the notebooks call; the second and
    third part are the notebooks' own cells, translated statement by
    statement over that model.

    Tensors.  A tensor of shape (d0, d1, ..., dk) is a list of d0 slices,
    each slice being the row-major list of its d1 * ... * dk scalars; a
    tensor of shape (d0,) therefore has slices of one scalar.  Only the first
    dimension is tracked by the graph library's checks that are modelled
    here.  Scalars are abstract ([Scalar]): nothing below depends on
    floating-point rounding, and sums are written in a fixed left-to-right
    order. *)

From Stdlib Require Import QArith Lqa.
From stdpp Require Import gmap strings list fin_maps.

Module DGL.

(** Scalars of the tensor library: the constants and operations the notebooks
    use.  [tlit] embeds a Python numeric literal (0.5, 2). *)
Class Scalar (T : Type) := {
  tzero : T;
  tone : T;
  tadd : T → T → T;
  tmul : T → T → T;
  tlit : Q → T;
  relu : T → T;
}.

Abbreviation row T := (list T) (only parsing).
Abbreviation tensor T := (list (list T)) (only parsing).
Abbreviation frame T := (gmap string (list (list T))) (only parsing).

(** The library's error messages that the notebooks can meet. *)
Inductive DGLErrorKind :=
| FeatNodesMismatch (nfeats num_nodes : nat)
    (* 'Expect number of features to match number of nodes (len(u)).
        Got %d and %d instead.' *)
| FeatEdgesMismatch (nfeats num_edges : nat)
| InvalidVertices
| InvalidIdArrays
| UdfRowsMismatch.

Inductive exn :=
| DGLError (k : DGLErrorKind)
| KeyError (key : string)
| IndexError.

(** Result of a call: it returns, it raises, or the call is outside what the
    library documents (a reduce function that returns different fields for
    different batches), in which case the model says nothing about it. *)
Inductive outcome (A : Type) :=
| Returns (a : A)
| Raises (e : exn)
| NoContract.
Arguments Returns {A} a.
Arguments Raises {A} e.
Arguments NoContract {A}.

#[global] Instance outcome_ret : MRet outcome := @Returns.
#[global] Instance outcome_bind : MBind outcome := λ A B f m,
  match m with
  | Returns a => f a
  | Raises e => Raises e
  | NoContract => NoContract
  end.

#[global] Instance outcome_fmap : FMap outcome := λ A B f m,
  match m with
  | Returns a => Returns (f a)
  | Raises e => Raises e
  | NoContract => NoContract
  end.

(** A Python int, or a list / 1-D tensor of ints, given where node ids are
    expected; [toindex] is [utils.toindex]. *)
Inductive ids :=
| Int (i : nat)
| Ids (l : list nat).

Definition toindex (x : ids) : list nat :=
  match x with
  | Int i => [i]
  | Ids l => l
  end.

(** ALL, or explicit ids. *)
Inductive index_arg :=
| ALL
| Idx (x : ids).

Section Graph.
Context {T : Type} `{!Scalar T}.

(** ** Frames: columnar feature storage *)

(** The default column initializer: zeros shaped like the rows at hand. *)
Definition zeros_like (t : tensor T) : row T :=
  match t with
  | r :: _ => (λ _, tzero) <$> r
  | [] => []
  end.

(** [F.scatter_row]: write [feats[k]] at row [ids[k]], in order. *)
Definition scatter_row (col : tensor T) (idx : list nat) (feats : tensor T) : tensor T :=
  foldl (λ c p, <[p.1 := p.2]> c) col (zip idx feats).

(** [F.gather_row]: the rows at [idx].  Callers check the ids first. *)
Definition gather_row (col : tensor T) (idx : list nat) : tensor T :=
  (λ i, default [] (col !! i)) <$> idx.

(** [Frame.update_rows]: for every column of [data], scatter its rows into the
    column of the same name, creating that column from the initializer when the
    frame has none. *)
Definition update_rows (num_rows : nat) (idx : list nat) (data fr : frame T) : frame T :=
  merge (λ new old,
    match new, old with
    | Some feats, Some col => Some (scatter_row col idx feats)
    | Some feats, None =>
        Some (scatter_row (replicate num_rows (zeros_like feats)) idx feats)
    | None, _ => old
    end) data fr.

(** What one [update_rows] does to the column [key]. *)
Definition write_key (key : string) (c : tensor T)
    (w : list nat * frame T) : tensor T :=
  match w.2 !! key with
  | Some rows => scatter_row c w.1 rows
  | None => c
  end.

(** [Frame.add_rows]: extend every column with initializer rows. *)
Definition add_rows (num : nat) (fr : frame T) : frame T :=
  (λ col, col ++ replicate num (zeros_like col)) <$> fr.

(** ** Graphs *)

(** A [DGLGraph]: nodes are 0 .. n_nodes-1; edge number [e] is
    [all_edges !! e] = (source, destination), in order of insertion; the node
    and edge frames hold the features; the message frame and its index hold
    the messages sent and not yet received. *)
Record DGLGraph := mkGraph {
  n_nodes : nat;
  all_edges : list (nat * nat);
  node_frame : frame T;
  edge_frame : frame T;
  msg_frame : frame T;
  msg_index : list bool;
}.

Definition empty_graph : DGLGraph :=
  {| n_nodes := 0; all_edges := []; node_frame := ∅; edge_frame := ∅;
     msg_frame := ∅; msg_index := [] |}.

Definition number_of_nodes (g : DGLGraph) : nat := n_nodes g.
Definition number_of_edges (g : DGLGraph) : nat := length (all_edges g).

Definition has_node (g : DGLGraph) (v : nat) : bool := bool_decide (v < n_nodes g).

Definition add_nodes (num : nat) (g : DGLGraph) : DGLGraph :=
  {| n_nodes := n_nodes g + num;
     all_edges := all_edges g;
     node_frame := add_rows num (node_frame g);
     edge_frame := edge_frame g;
     msg_frame := msg_frame g;
     msg_index := msg_index g |}.

(** Appending edges whose end points have been checked. *)
Definition append_edges (pairs : list (nat * nat)) (g : DGLGraph) : DGLGraph :=
  {| n_nodes := n_nodes g;
     all_edges := all_edges g ++ pairs;
     node_frame := node_frame g;
     edge_frame := add_rows (length pairs) (edge_frame g);
     msg_frame := add_rows (length pairs) (msg_frame g);
     msg_index := msg_index g ++ replicate (length pairs) false |}.

Definition valid_pair (g : DGLGraph) (p : nat * nat) : bool :=
  has_node g p.1 && has_node g p.2.

Definition add_edge (u v : nat) (g : DGLGraph) : outcome DGLGraph :=
  if valid_pair g (u, v) then Returns (append_edges [(u, v)] g)
  else Raises (DGLError InvalidVertices).

(** One-many, many-one or pairwise end points. *)
Definition broadcast_pairs (us vs : list nat) : outcome (list (nat * nat)) :=
  match us, vs with
  | [u], _ => Returns ((λ v, (u, v)) <$> vs)
  | _, [v] => Returns ((λ u, (u, v)) <$> us)
  | _, _ =>
      if decide (length us = length vs) then Returns (zip us vs)
      else Raises (DGLError InvalidIdArrays)
  end.

Definition add_edges (u v : ids) (g : DGLGraph) : outcome DGLGraph :=
  pairs ← broadcast_pairs (toindex u) (toindex v);
  if forallb (valid_pair g) pairs then Returns (append_edges pairs g)
  else Raises (DGLError InvalidVertices).

(** Ids of the edges between the given end points, every parallel edge
    included, in increasing id for each pair. *)
Definition edges_between (g : DGLGraph) (p : nat * nat) : list nat :=
  filter (λ e, all_edges g !! e = Some p) (seq 0 (number_of_edges g)).

Definition edge_ids (g : DGLGraph) (us vs : list nat) : outcome (list nat) :=
  pairs ← broadcast_pairs us vs;
  if forallb (valid_pair g) pairs then Returns (pairs ≫= edges_between g)
  else Raises (DGLError InvalidVertices).

(** Sources of the edges into [v], each once. *)
Definition predecessors (g : DGLGraph) (v : nat) : list nat :=
  remove_dups ((filter (λ p, p.2 = v) (all_edges g)).*1).

(** In-edges of [v], by increasing edge id. *)
Definition in_edges (g : DGLGraph) (v : nat) : list nat :=
  filter (λ e, snd <$> all_edges g !! e = Some v) (seq 0 (number_of_edges g)).

(** [g.in_degrees]: the number of edges into [v]. *)
Definition in_degree (g : DGLGraph) (v : nat) : nat := length (in_edges g v).

Definition edge_src (g : DGLGraph) (e : nat) : nat := default 0 (fst <$> all_edges g !! e).
Definition edge_dst (g : DGLGraph) (e : nat) : nat := default 0 (snd <$> all_edges g !! e).

(** ** Node and edge features *)

Definition with_node_frame (g : DGLGraph) (nf : frame T) : DGLGraph :=
  {| n_nodes := n_nodes g; all_edges := all_edges g; node_frame := nf;
     edge_frame := edge_frame g; msg_frame := msg_frame g;
     msg_index := msg_index g |}.

Definition with_edge_frame (g : DGLGraph) (ef : frame T) : DGLGraph :=
  {| n_nodes := n_nodes g; all_edges := all_edges g; node_frame := node_frame g;
     edge_frame := ef; msg_frame := msg_frame g; msg_index := msg_index g |}.

(** [set_n_repr({key : val}, u)], which is what [g.ndata[key] = val]
    ([u] = ALL) and [g.nodes[u].data[key] = val] call:
<<
    if nfeats != num_nodes:
        raise DGLError('Expect number of features to match number of nodes ...')
    # set
    if is_all(u): ...
>> *)
Definition set_n_repr (key : string) (val : tensor T) (u : index_arg)
    (g : DGLGraph) : outcome DGLGraph :=
  let num_nodes :=
    match u with
    | ALL => number_of_nodes g
    | Idx x => length (toindex x)
    end in
  let nfeats := length val in
  if decide (nfeats = num_nodes) then
    match u with
    | ALL => Returns (with_node_frame g (<[key := val]> (node_frame g)))
    | Idx x =>
        if forallb (has_node g) (toindex x) then
          Returns (with_node_frame g
                     (update_rows (n_nodes g) (toindex x) {[key := val]} (node_frame g)))
        else Raises IndexError
    end
  else Raises (DGLError (FeatNodesMismatch nfeats num_nodes)).

(** [g.ndata.pop(key)]. *)
Definition pop_n_repr (key : string) (g : DGLGraph) : outcome (DGLGraph * tensor T) :=
  match node_frame g !! key with
  | Some val => Returns (with_node_frame g (delete key (node_frame g)), val)
  | None => Raises (KeyError key)
  end.

(** [g.edata[key] = val]. *)
Definition set_e_repr_all (key : string) (val : tensor T) (g : DGLGraph) : outcome DGLGraph :=
  if decide (length val = number_of_edges g) then
    Returns (with_edge_frame g (<[key := val]> (edge_frame g)))
  else Raises (DGLError (FeatEdgesMismatch (length val) (number_of_edges g))).

(** [g.edata[key]]. *)
Definition get_e_repr_all (key : string) (g : DGLGraph) : outcome (tensor T) :=
  match edge_frame g !! key with
  | Some col => Returns col
  | None => Raises (KeyError key)
  end.

(** [g.edges[u, v].data[key]]. *)
Definition get_e_repr (key : string) (u v : ids) (g : DGLGraph) : outcome (tensor T) :=
  eid ← edge_ids g (toindex u) (toindex v);
  match edge_frame g !! key with
  | Some col => Returns (gather_row col eid)
  | None => Raises (KeyError key)
  end.

(** [g.edges[u, v].data[key] = val]. *)
Definition set_e_repr (key : string) (val : tensor T) (u v : ids)
    (g : DGLGraph) : outcome DGLGraph :=
  eid ← edge_ids g (toindex u) (toindex v);
  if decide (length val = length eid) then
    Returns (with_edge_frame g
               (update_rows (number_of_edges g) eid {[key := val]} (edge_frame g)))
  else Raises (DGLError (FeatEdgesMismatch (length val) (length eid))).

(** ** Message passing *)

(** What a message function sees: the features of the source nodes, of the
    destination nodes and of the edges themselves, one row for each edge of
    the batch ([edges.src], [edges.dst], [edges.data]). *)
Record EdgeBatch := mkEdgeBatch {
  eb_src : frame T;
  eb_dst : frame T;
  eb_data : frame T;
}.

(** What a reduce function sees: the features of the nodes of the batch
    ([nodes.data]) and, for every message field, the messages of each node of
    the batch ([nodes.mailbox], of shape (batch, degree, ...)). *)
Record NodeBatch := mkNodeBatch {
  nb_data : frame T;
  nb_mailbox : gmap string (list (list (list T)));
}.

(** A user-defined function is Python code: it returns a feature dictionary,
    returns nothing ([None]), or raises.  The library reads [None] as a
    dictionary without any field. *)
Definition message_func : Type := EdgeBatch → outcome (option (frame T)).
Definition reduce_func : Type := NodeBatch → outcome (option (frame T)).

Definition gather_frame (fr : frame T) (idx : list nat) : frame T :=
  (λ col, gather_row col idx) <$> fr.

Definition frame_rows_ok (num : nat) (d : frame T) : bool :=
  bool_decide (map_Forall (λ _ col, length col = num) d).

Definition set_index (idx : list nat) (b : bool) (l : list bool) : list bool :=
  foldl (λ l i, <[i := b]> l) l idx.

Definition with_msgs (g : DGLGraph) (mf : frame T) (mi : list bool) : DGLGraph :=
  {| n_nodes := n_nodes g; all_edges := all_edges g; node_frame := node_frame g;
     edge_frame := edge_frame g; msg_frame := mf; msg_index := mi |}.

(** [g.edges()] and [g.nodes()]. *)
Definition edges (g : DGLGraph) : list nat * list nat :=
  ((all_edges g).*1, (all_edges g).*2).
Definition nodes (g : DGLGraph) : list nat := seq 0 (n_nodes g).

(** [g.send((u, v), message_func)]: the message function is called once on
    the batch of the edges between the given end points; its rows are stored
    in the message frame and the edges are marked as carrying a message. *)
Definition send (uv : list nat * list nat) (mfunc : message_func)
    (g : DGLGraph) : outcome DGLGraph :=
  eid ← edge_ids g uv.1 uv.2;
  if decide (eid = []) then Returns g
  else
    let eb := {| eb_src := gather_frame (node_frame g) (edge_src g <$> eid);
                 eb_dst := gather_frame (node_frame g) (edge_dst g <$> eid);
                 eb_data := gather_frame (edge_frame g) eid |} in
    ret ← mfunc eb;
    let msg := default ∅ ret in
    if frame_rows_ok (length eid) msg then
      Returns (with_msgs g
                 (update_rows (number_of_edges g) eid msg (msg_frame g))
                 (set_index eid true (msg_index g)))
    else Raises (DGLError UdfRowsMismatch).

(** In-edges of [v] that carry a message. *)
Definition pending (g : DGLGraph) (v : nat) : list nat :=
  filter (λ e, msg_index g !! e = Some true) (in_edges g v).

(** The reduce function on one degree bucket. *)
Definition reduce_bucket (g : DGLGraph) (rfunc : reduce_func) (bkt : list nat)
    : outcome (list nat * frame T) :=
  let nb := {| nb_data := gather_frame (node_frame g) bkt;
               nb_mailbox := (λ col, (λ u, gather_row col (pending g u)) <$> bkt)
                               <$> msg_frame g |} in
  ret ← rfunc nb;
  let d := default ∅ ret in
  if frame_rows_ok (length bkt) d then Returns (bkt, d)
  else Raises (DGLError UdfRowsMismatch).

(** [g.recv(v, reduce_func)] (no apply function).  Without any message for the
    nodes it does nothing.  Otherwise the nodes are grouped by the number of
    their messages, the reduce function is called once on each group, the
    nodes without a message get initializer rows for the fields the reduce
    function returned, all of it is written to the node frame, and the
    messages are consumed. *)
Definition recv (v : list nat) (rfunc : reduce_func) (g : DGLGraph) : outcome DGLGraph :=
  if forallb (has_node g) v then
    let recv_nodes := filter (λ u, u ∈ v) (seq 0 (n_nodes g)) in
    let eid := recv_nodes ≫= pending g in
    if decide (eid = []) then Returns g
    else
      let buckets :=
        filter (λ b, b ≠ [])
          ((λ d, filter (λ u, length (pending g u) = d) recv_nodes)
             <$> seq 1 (number_of_edges g)) in
      bkt_feats ← mapM (reduce_bucket g rfunc) buckets;
      let zero_deg_nodes := filter (λ u, pending g u = []) recv_nodes in
      let first_feat := default ∅ (snd <$> head bkt_feats) in
      let zero_feat : frame T :=
        (λ col, replicate (length zero_deg_nodes) (zeros_like col)) <$> first_feat in
      if forallb (λ w : list nat * frame T, bool_decide (dom w.2 = dom first_feat)) bkt_feats
      then
        let nf := foldl (λ nf (w : list nat * frame T), update_rows (n_nodes g) w.1 w.2 nf)
                    (node_frame g) (bkt_feats ++ [(zero_deg_nodes, zero_feat)]) in
        let mi := set_index eid false (msg_index g) in
        let mf := if decide (true ∈ mi) then msg_frame g else ∅ in
        Returns {| n_nodes := n_nodes g; all_edges := all_edges g; node_frame := nf;
                   edge_frame := edge_frame g; msg_frame := mf; msg_index := mi |}
      else NoContract
  else Raises (DGLError InvalidVertices).

(** ** Well-formed graphs *)

(** Every edge joins two nodes of the graph, which is what [add_edge] and
    [add_edges] check. *)
Definition valid_graph (g : DGLGraph) : Prop :=
  forallb (valid_pair g) (all_edges g) = true.

(** No message is waiting: the state of a graph that was just built, or whose
    messages have all been received. *)
Definition no_messages (g : DGLGraph) : Prop :=
  msg_frame g = ∅ ∧ msg_index g = replicate (number_of_edges g) false.

(** ** The shape of the frames *)

(** "Features of multiple nodes/edges are batched on the first dimension":
    every column of a frame has one row for each node (node frame) or each
    edge (edge frame, message frame), and the message index one flag for each
    edge. *)
Definition frame_rows (num : nat) (fr : frame T) : Prop :=
  map_Forall (λ _ (col : tensor T), length col = num) fr.

Definition graph_wf (g : DGLGraph) : Prop :=
  valid_graph g ∧
  frame_rows (n_nodes g) (node_frame g) ∧
  frame_rows (number_of_edges g) (edge_frame g) ∧
  frame_rows (number_of_edges g) (msg_frame g) ∧
  length (msg_index g) = number_of_edges g.

End Graph.

Arguments DGLGraph T : clear implicits.
Arguments EdgeBatch T : clear implicits.
Arguments NodeBatch T : clear implicits.
Arguments message_func T : clear implicits.
Arguments reduce_func T : clear implicits.

End DGL.

(** * Notebook 1: basics *)
Module Basics.
Import DGL.

Section Notebook.
Context {T : Type} `{!Scalar T}.

(** The values [torch.randn] draws are not determined by the notebook:
    [rng k i j] is scalar [j] of row [i] of the [k]-th draw. *)
Variable rng : nat → nat → nat → T.

(** Shape [d0, d1, ...]: [d0] slices of [d1 * ...] scalars each. *)
Definition slice_size (shape : list nat) : nat := foldr Nat.mul 1 (tail shape).
Definition torch_randn (k : nat) (shape : list nat) : tensor T :=
  (λ i, rng k i <$> seq 0 (slice_size shape)) <$> seq 0 (hd 0 shape).
Definition torch_zeros (shape : list nat) : tensor T :=
  replicate (hd 0 shape) (replicate (slice_size shape) tzero).
Definition torch_ones (shape : list nat) : tensor T :=
  replicate (hd 0 shape) (replicate (slice_size shape) tone).
(** [t * c], [t *= c] and [t1 + t2], scalar by scalar. *)
Definition tensor_mul (t : tensor T) (c : Q) : tensor T :=
  (λ r : list T, (λ x : T, tmul x (tlit c)) <$> r) <$> t.
Definition tensor_add (t1 t2 : tensor T) : tensor T :=
  zip_with (zip_with tadd) t1 t2.

(** A cell's calls to [G.add_edges], run in order. *)
Definition add_edges_calls (calls : list (ids * ids)) (G : DGLGraph T) : outcome (DGLGraph T) :=
  foldl (λ r c, G ← r; add_edges c.1 c.2 G) (Returns G) calls.

(** [G = dgl.DGLGraph(); G.add_nodes(34)] *)
Definition cell3 : DGLGraph T := add_nodes 34 empty_graph.

(** [G.add_edge(1, 0)] *)
Definition cell4 (G : DGLGraph T) : outcome (DGLGraph T) := add_edge 1 0 G.

(** [G.add_edges([2, 2], [0, 1])] and, with [src] and [dst] tensors,
    [G.add_edges(src, dst)] *)
Definition cell5_calls : list (ids * ids) :=
  [(Ids [2; 2], Ids [0; 1]); (Ids [3; 3; 3], Ids [0; 1; 2])].

(** [G.add_edges([4, 5], 0)] and [G.add_edges(6, torch.tensor([0, 4, 5]))] *)
Definition cell6_calls : list (ids * ids) :=
  [(Ids [4; 5], Int 0); (Int 6, Ids [0; 4; 5])].

Definition edge_list : list (nat * nat) :=
  [(7, 0); (7, 1); (7, 2); (7, 3); (8, 0); (8, 2); (9, 2); (10, 0); (10, 4); (10, 5);
   (11, 0); (12, 0); (12, 3); (13, 0); (13, 1); (13, 2); (13, 3); (16, 5); (16, 6);
   (17, 0); (17, 1); (19, 0); (19, 1); (21, 0); (21, 1); (25, 23); (25, 24); (27, 2);
   (27, 23); (27, 24); (28, 2); (29, 23); (29, 26); (30, 1); (30, 8); (31, 0); (31, 24);
   (31, 25); (31, 28); (32, 2); (32, 8); (32, 14); (32, 15); (32, 18); (32, 20); (32, 22);
   (32, 23); (32, 29); (32, 30); (32, 31); (33, 8); (33, 9); (33, 13); (33, 14); (33, 15);
   (33, 18); (33, 19); (33, 20); (33, 22); (33, 23); (33, 26); (33, 27); (33, 28);
   (33, 29); (33, 30); (33, 31); (33, 32)].

(** The exercise's loop: [src.append(edge[0]); dst.append(edge[1])]. *)
Definition src_dst : list nat * list nat :=
  foldl (λ sd (edge : nat * nat), (sd.1 ++ [edge.1], sd.2 ++ [edge.2])) ([], []) edge_list.

Definition cell8_calls : list (ids * ids) := [(Ids src_dst.1, Ids src_dst.2)].

(** The graph after each of the cells that build it. *)
Definition G_cell4 : outcome (DGLGraph T) := cell4 cell3.
Definition G_cell5 : outcome (DGLGraph T) := G ← G_cell4; add_edges_calls cell5_calls G.
Definition G_cell6 : outcome (DGLGraph T) := G ← G_cell5; add_edges_calls cell6_calls G.
Definition G_cell8 : outcome (DGLGraph T) := G ← G_cell6; add_edges_calls cell8_calls G.

(** [G.ndata['feat'] = torch.randn((34, 5))] *)
Definition cell9 (G : DGLGraph T) : outcome (DGLGraph T) :=
  set_n_repr "feat" (torch_randn 0 [34; 5]) ALL G.

(** [G.ndata['wrong_feat'] = torch.randn((35, 5))], the cell marked
    "This will raise error!!" *)
Definition cell10 (G : DGLGraph T) : outcome (DGLGraph T) :=
  set_n_repr "wrong_feat" (torch_randn 1 [35; 5]) ALL G.

(** [G.ndata.update({'another_feat' : torch.randn((34, 3))})], then
    [G.ndata.pop('another_feat')] *)
Definition cell11 (G : DGLGraph T) : outcome (DGLGraph T) :=
  G ← set_n_repr "another_feat" (torch_randn 2 [34; 3]) ALL G;
  '(G, _) ← pop_n_repr "another_feat" G;
  mret G.

(** The three partial assignments to ['feat']. *)
Definition cell12 (G : DGLGraph T) : outcome (DGLGraph T) :=
  G ← set_n_repr "feat" (torch_zeros [1; 5]) (Idx (Int 0)) G;
  G ← set_n_repr "feat" (torch_ones [2; 5]) (Idx (Ids [2; 3])) G;
  let to_change := Ids [10; 11; 12] in
  set_n_repr "feat" (tensor_mul (torch_ones [3; 5]) 2) (Idx to_change) G.

(** [G.edata['broness'] = torch.ones((G.number_of_edges(),))], then
    [G.edges[G.predecessors(0), 0].data['broness'] *= 0.5]: the view's item is
    read, multiplied and assigned back. *)
Definition cell14 (G : DGLGraph T) : outcome (DGLGraph T) :=
  G ← set_e_repr_all "broness" (torch_ones [number_of_edges G]) G;
  let u := Ids (predecessors G 0) in
  let v := Int 0 in
  val ← get_e_repr "broness" u v G;
  set_e_repr "broness" (tensor_mul val (1 # 2)) u v G.

(** [G.edata.update({'broness': G.edata['broness'] + torch.randn((G.number_of_edges(), ))})] *)
Definition cell15 (G : DGLGraph T) : outcome (DGLGraph T) :=
  broness ← get_e_repr_all "broness" G;
  set_e_repr_all "broness"
    (tensor_add broness (torch_randn 3 [number_of_edges G])) G.

(** The graph when cell 10 is over.  The cell is the one assignment; when
    [set_n_repr] raises, it does so from its length check, which comes before
    the part that sets anything (the cell's traceback ends at that [raise],
    above the [# set] comment), so the graph object is as it was: [G.ndata],
    which the next cell prints, has no ['wrong_feat']. *)
Definition after_cell10 (G : DGLGraph T) : DGLGraph T :=
  match cell10 G with
  | Returns G' => G'
  | Raises _ | NoContract => G
  end.

Definition G_cell9 : outcome (DGLGraph T) := G ← G_cell8; cell9 G.
Definition G_cell10 : outcome (DGLGraph T) := G ← G_cell9; cell10 G.
Definition G_cell11 : outcome (DGLGraph T) := G ← G_cell9; cell11 (after_cell10 G).
Definition G_cell12 : outcome (DGLGraph T) := G ← G_cell11; cell12 G.
Definition G_cell14 : outcome (DGLGraph T) := G ← G_cell12; cell14 G.
Definition G_cell15 : outcome (DGLGraph T) := G ← G_cell14; cell15 G.

(** How a cell ends: it returns, or an exception leaves it.  The notebooks
    have no [try] statement, so an exception that a call raises is the way
    its cell ends. *)
Definition ended {A} (r : outcome A) : outcome unit := (λ _, ()) <$> r.

(** The code cells that act on the graph, by execution count, each with the
    way it ends when the notebook is run from the top. *)
Definition notebook_run : list (nat * outcome unit) :=
  [(3, Returns ()); (4, ended G_cell4); (5, ended G_cell5); (6, ended G_cell6);
   (8, ended G_cell8); (9, ended G_cell9); (10, ended G_cell10);
   (11, ended G_cell11); (12, ended G_cell12); (14, ended G_cell14);
   (15, ended G_cell15)].

(** The exercise's cell for whatever list of tuples [edge_list] is bound to:
    the loop that fills [src] and [dst], then [G.add_edges(src, dst)]. *)
Definition src_dst_of (el : list (nat * nat)) : list nat * list nat :=
  foldl (λ sd (edge : nat * nat), (sd.1 ++ [edge.1], sd.2 ++ [edge.2])) ([], []) el.

Definition cell8_of (el : list (nat * nat)) (G : DGLGraph T) : outcome (DGLGraph T) :=
  let sd := src_dst_of el in
  add_edges (Ids sd.1) (Ids sd.2) G.

End Notebook.
End Basics.

(** * Notebook 2: a graph convolutional network on send and recv *)
Module GCNNotebook.
Import DGL.

Section Notebook.
Context {T : Type} `{!Scalar T}.

(** ** The tensor library's layers *)

(** [nn.Linear]: y = x W^T + b, row by row. *)
Record Linear := mkLinear {
  weight : tensor T;
  bias : row T;
}.

Definition dot (x w : row T) : T := foldl tadd tzero (zip_with tmul x w).

Definition Linear_forward (self : Linear) (input : tensor T) : tensor T :=
  (λ x : list T, zip_with tadd (dot x <$> weight self) (bias self)) <$> input.

(** [torch.relu] and [torch.sum(_, dim=1)] on a mailbox field: the messages of
    each node are added up slice by slice. *)
Definition torch_relu (h : tensor T) : tensor T := (λ r : list T, relu <$> r) <$> h.

Definition sum_messages (msgs : tensor T) : row T :=
  match msgs with
  | m :: ms => foldl (zip_with tadd) m ms
  | [] => []
  end.

Definition torch_eye (n : nat) : tensor T :=
  (λ i, (λ j, if decide (i = j) then tone else tzero) <$> seq 0 n) <$> seq 0 n.

(** ** The message and reduce functions *)

(** The cell the notebook ships: both bodies are [pass], so both functions
    return [None]. *)
Definition gcn_message (edges : EdgeBatch T) : outcome (option (frame T)) :=
  Returns None.

Definition gcn_reduce (nodes : NodeBatch T) : outcome (option (frame T)) :=
  Returns None.

(** The two equations the exercise asks for: the message from u to v is
    m_uv = h_u, and node v aggregates a_v = sum of m_uv over its neighbours u.
    Written as the hints say: the source feature is read from [edges.src],
    the messages from [nodes.mailbox], and a feature dictionary is returned;
    the node field is ['h'], the name set in [GCN.forward]; the message field
    is called ['msg'] here, any name would do. *)
Definition gcn_message_eq (edges : EdgeBatch T) : outcome (option (frame T)) :=
  match eb_src edges !! "h" with
  | Some h => Returns (Some {["msg" := h]})
  | None => Raises (KeyError "h")
  end.

Definition gcn_reduce_eq (nodes : NodeBatch T) : outcome (option (frame T)) :=
  match nb_mailbox nodes !! "msg" with
  | Some m => Returns (Some {["h" := sum_messages <$> m]})
  | None => Raises (KeyError "msg")
  end.

(** What the layer is meant to compute for node [v] from the transformed
    features [h]: the sum of [h[u]] over the edges (u, v) into [v]. *)
Definition neighbor_sum (g : DGLGraph T) (h : tensor T) (v : nat) : row T :=
  sum_messages ((λ e, default [] (h !! edge_src g e)) <$> in_edges g v).

(** The normalizer of the second exercise's prompt, c_ij = sqrt(d_i d_j) with
    d the in-degrees ([GG.in_degrees]): the scalar that is not negative and
    whose square is d_i d_j; what it would mean for a message [m] along edge
    [e] to be the source feature divided by it; and for a row [r] to be the
    sum of such messages over the edges into [v].  Scalars are compared by
    [teq], the equality of the numbers they stand for (on the rationals, of
    the fractions and not of their numerators and denominators), and
    [tltb x y] is [x < y]. *)
Section Normalizer.
Variable teq : T → T → Prop.
Variable tltb : T → T → bool.

Definition is_normalizer (g : DGLGraph T) (i j : nat) (c : T) : Prop :=
  tltb c tzero = false ∧
  teq (tmul c c) (tlit (inject_Z (Z.of_nat (in_degree g i * in_degree g j)))).

Definition message_normalized (g : DGLGraph T) (h : tensor T) (e : nat) (m : row T) : Prop :=
  ∃ c, is_normalizer g (edge_src g e) (edge_dst g e) c ∧
       Forall2 teq ((λ x : T, tmul x c) <$> m) (default [] (h !! edge_src g e)).

Definition sum_normalized (g : DGLGraph T) (h : tensor T) (v : nat) (r : row T) : Prop :=
  ∃ msgs, Forall2 (message_normalized g h) (in_edges g v) msgs ∧
          Forall2 teq r (sum_messages msgs).

End Normalizer.

(** The cell under the normalizer exercise holds no code: running it changes
    nothing, whatever the notebook's state is. *)
Definition normalizer_cell {S : Type} (s : S) : outcome S := Returns s.

(** ** The modules *)

Record GCN := mkGCN { linear : Linear }.
Record Net := mkNet { gcn1 : GCN; gcn2 : GCN }.

Section Forward.
(** [GCN.forward] names [gcn_message] and [gcn_reduce], which Python looks up
    in the module's globals when [forward] runs: they are whatever the
    message/reduce cell has bound by then. *)
Variable gcn_message_global : message_func T.
Variable gcn_reduce_global : reduce_func T.

Definition GCN_forward (self : GCN) (g : DGLGraph T) (inputs : tensor T)
    : outcome (DGLGraph T * tensor T) :=
  (* first perform linear transformation *)
  let h := Linear_forward (linear self) inputs in
  (* set the node features *)
  g ← set_n_repr "h" h ALL g;
  (* trigger message passing *)
  g ← send (edges g) gcn_message_global g;
  g ← recv (nodes g) gcn_reduce_global g;
  (* get the result node features *)
  pop_n_repr "h" g.

Definition Net_forward (self : Net) (g : DGLGraph T) (inputs : tensor T)
    : outcome (DGLGraph T * tensor T) :=
  '(g, h) ← GCN_forward (gcn1 self) g inputs;
  let h := torch_relu h in
  '(g, h) ← GCN_forward (gcn2 self) g h;
  mret (g, h).

(** ** The training cell *)

(** The tensor library's loss functions, automatic differentiation and
    optimizers are taken as they are: [log_softmax_row] is what
    [F.log_softmax(_, 1)] does to one row, [nll_loss] is [F.nll_loss],
    [backward] gives the gradients of a loss with respect to the network's
    parameters, [optim_step] is one [optimizer.step()]. *)
Variable log_softmax_row : row T → row T.
Variable nll_loss : tensor T → list nat → T.
Variable Grads : Type.
Variable backward : (Net → outcome T) → Net → Grads.
Variable OptState : Type.

Inductive OptimAlgo :=
| SGD
| Adam.

Record Optimizer := mkOptimizer {
  algo : OptimAlgo;
  lr : Q;
  state : OptState;
}.

Variable optim_init : OptimAlgo → Net → OptState.
Variable optim_step : Optimizer → Net → Grads → Optimizer * Net.

(** [GG = convert_to_bidirectional(create_karate_graph())] comes from
    [tutorial_utils]; [net = Net(34, 5, 2)] has randomly initialised
    parameters. *)
Variable GG : DGLGraph T.
Variable net0 : Net.

Definition inputs : tensor T := torch_eye 34.
Definition labeled_nodes : list nat := [0; 33].
Definition labels : list nat := [0; 1].

(** [torch.optim.Adam(net.parameters(), lr=0.01)] *)
Definition optimizer : Optimizer :=
  {| algo := Adam; lr := 1 # 100; state := optim_init Adam net0 |}.

(** [t[idx]] with a tensor of indices: the rows at [idx]. *)
Definition index_rows (t : tensor T) (idx : list nat) : outcome (tensor T) :=
  mapM (λ i, match t !! i with
             | Some r => Returns r
             | None => Raises IndexError
             end) idx.

(** [logp = F.log_softmax(logits, 1); loss = F.nll_loss(logp[labeled_nodes], labels)] *)
Definition compute_loss (logits : tensor T) : outcome T :=
  let logp := log_softmax_row <$> logits in
  sel ← index_rows logp labeled_nodes;
  mret (nll_loss sel labels).

Record TrainState := mkTrainState {
  ts_graph : DGLGraph T;
  ts_net : Net;
  ts_optimizer : Optimizer;
  all_logits : list (tensor T);
  printed : list (nat * T);
}.

(** The body of [for epoch in range(30)]. *)
Definition epoch_body (epoch : nat) (s : TrainState) : outcome TrainState :=
  '(g, logits) ← Net_forward (ts_net s) (ts_graph s) inputs;
  let all_logits' := all_logits s ++ [logits] in
  (* we only compute loss for node 0 and node 33 *)
  loss ← compute_loss logits;
  let grads :=
    backward (λ net, '(_, logits) ← Net_forward net (ts_graph s) inputs;
                     compute_loss logits) (ts_net s) in
  let '(opt, net) := optim_step (ts_optimizer s) (ts_net s) grads in
  mret {| ts_graph := g; ts_net := net; ts_optimizer := opt;
          all_logits := all_logits'; printed := printed s ++ [(epoch, loss)] |}.

Definition for_range (n : nat) (body : nat → TrainState → outcome TrainState)
    (s : TrainState) : outcome TrainState :=
  foldl (λ r epoch, s ← r; body epoch s) (Returns s) (seq 0 n).

(** The state when the loop starts: [all_logits = []], nothing printed. *)
Definition initial_state : TrainState :=
  {| ts_graph := GG; ts_net := net0; ts_optimizer := optimizer;
     all_logits := []; printed := [] |}.

Definition train : outcome TrainState := for_range 30 epoch_body initial_state.

End Forward.

(** The whole matrix the layer is meant to return: [neighbor_sum] at every
    node. *)
Definition aggregate (g : DGLGraph T) (h : tensor T) : tensor T :=
  neighbor_sum g h <$> seq 0 (n_nodes g).

(** ** Shapes *)

(** [nn.Linear(in_features, out_features)] holds a weight of shape
    (out_features, in_features) and a bias of out_features entries, and is
    applied to tensors whose rows have in_features entries;
    [GCN(in_feats, out_feats)] holds [nn.Linear(in_feats, out_feats)], and
    [Net(in_feats, hidden_size, num_classes)] holds
    [GCN(in_feats, hidden_size)] and [GCN(hidden_size, num_classes)]. *)
Definition tensor_width (t : tensor T) (d : nat) : Prop :=
  Forall (λ r : row T, length r = d) t.

Definition Linear_shape (self : Linear) (in_features out_features : nat) : Prop :=
  length (weight self) = out_features ∧
  tensor_width (weight self) in_features ∧
  length (bias self) = out_features.

Definition GCN_shape (self : GCN) (in_feats out_feats : nat) : Prop :=
  Linear_shape (linear self) in_feats out_feats.

Definition Net_shape (self : Net) (in_feats hidden_size num_classes : nat) : Prop :=
  GCN_shape (gcn1 self) in_feats hidden_size ∧
  GCN_shape (gcn2 self) hidden_size num_classes.

(** ** The visualization cell *)

Section Draw.
(** [tltb x y] is [x < y] on the scalars. *)
Variable tltb : T → T → bool.

(** What the cell's Python can raise: [all_logits[i]] and [all_logits[i][v]]
    out of range, and [np.argmax] of an empty array. *)
Inductive draw_exn :=
| DrawIndexError
| DrawValueError.

(** [np.argmax] of a one-dimensional array: the index of the first
    occurrence of the maximum.  The scan keeps the best value, its index and
    the index of the next element. *)
Definition argmax_step (st : T * nat * nat) (y : T) : T * nat * nat :=
  let '(best, k, j) := st in
  if tltb best y then (y, j, S j) else (best, k, S j).

Definition np_argmax (a : row T) : draw_exn + nat :=
  match a with
  | [] => inl DrawValueError
  | x :: xs => inr (foldl argmax_step (x, 0, 1) xs).1.2
  end.

Definition cls1color : string := "#00FFFF".
Definition cls2color : string := "#FF00FF".

(** What [draw(i)] hands to the plotting library: the epoch of the title, the
    positions [pos] and the colours [colors] of the nodes. *)
Record Drawing := mkDrawing {
  title_epoch : nat;
  pos : gmap nat (row T);
  colors : list string;
}.

(** The body of [for v in range(34)]. *)
Definition draw_node (logits : tensor T) (st : gmap nat (row T) * list string) (v : nat)
    : draw_exn + (gmap nat (row T) * list string) :=
  match logits !! v with
  | None => inl DrawIndexError
  | Some r =>
      match np_argmax r with
      | inl e => inl e
      | inr cls =>
          inr (<[v := r]> st.1,
               st.2 ++ [if decide (cls = 0) then cls2color else cls1color])
      end
  end.

Definition draw (all_logits : list (tensor T)) (i : nat) : draw_exn + Drawing :=
  match all_logits !! i with
  | None => inl DrawIndexError
  | Some logits =>
      match foldl (λ r v, match r with
                          | inl e => inl e
                          | inr st => draw_node logits st v
                          end) (inr (∅, [])) (seq 0 34) with
      | inl e => inl e
      | inr st => inr {| title_epoch := i; pos := st.1; colors := st.2 |}
      end
  end.

(** [FuncAnimation(fig, draw, frames=len(all_logits))] calls [draw] on
    0, 1, ..., len(all_logits) - 1. *)
Definition animation_frames (all_logits : list (tensor T)) : list (draw_exn + Drawing) :=
  draw all_logits <$> seq 0 (length all_logits).

End Draw.
End Notebook.

Arguments Linear T : clear implicits.
Arguments GCN T : clear implicits.
Arguments Net T : clear implicits.
Arguments TrainState T OptState : clear implicits.
Arguments mkTrainState {T OptState}.
Arguments ts_graph {T OptState}.
Arguments ts_net {T OptState}.
Arguments ts_optimizer {T OptState}.
Arguments all_logits {T OptState}.
Arguments printed {T OptState}.
Arguments mkOptimizer {OptState}.
Arguments algo {OptState}.
Arguments lr {OptState}.
Arguments state {OptState}.
Arguments optimizer {T OptState}.
Arguments for_range {T OptState}.
Arguments Drawing T : clear implicits.

End GCNNotebook.

(** Rational scalars, to run the definitions on concrete tensors. *)
#[global] Instance Q_scalar : DGL.Scalar Q :=
  {| DGL.tzero := 0%Q; DGL.tone := 1%Q; DGL.tadd := Qplus; DGL.tmul := Qmult;
     DGL.tlit := λ q, q;
     DGL.relu := λ q, if Qle_bool 0 q then q else 0%Q |}.

Import DGL Basics GCNNotebook.

(** Sample draws and the notebook's graph over the rationals. *)
Definition rng_demo : nat → nat → nat → Q := λ k i j, (Z.of_nat (k + i + j) # 7).

Definition returned {A} (d : A) (r : outcome A) : A :=
  match r with
  | Returns a => a
  | _ => d
  end.

Definition G_demo : DGLGraph Q := returned empty_graph (G_cell12 rng_demo).

(** Two nodes, every edge between them and both self loops. *)
Definition g_pair : DGLGraph Q :=
  returned empty_graph
    (add_edges (Ids [0; 0; 1; 1]) (Ids [0; 1; 0; 1]) (add_nodes 2 empty_graph)).

(** The same graph with a node feature ['h'] of its own. *)
Definition g_pair_h : DGLGraph Q :=
  returned empty_graph (set_n_repr "h" [[5]; [7]]%Q ALL g_pair).


(** Two nodes without any edge, with a node feature ['h']. *)
Definition g_apart_h : DGLGraph Q :=
  returned empty_graph (set_n_repr "h" [[5]; [7]]%Q ALL (add_nodes 2 empty_graph)).

Definition layer_demo : GCN Q := mkGCN (mkLinear [[1%Q]] [0%Q]).
Definition x_demo : list (list Q) := [[1%Q]; [1%Q]].


(** A 34-node graph for the training cell (the karate club edges), a network
    of the cell's shape [Net(34, 5, 2)], and stand-ins for the tensor
    library's loss, gradient and optimizer. *)
Definition GG_demo : DGLGraph Q := returned empty_graph (G_cell8 (T:=Q)).

Definition net_demo : Net Q :=
  mkNet (mkGCN (mkLinear (replicate 5 (replicate 34 1%Q)) (replicate 5 0%Q)))
        (mkGCN (mkLinear (replicate 2 (replicate 5 1%Q)) (replicate 2 0%Q))).

Definition log_softmax_row_demo (r : list Q) : list Q := r.
Definition nll_loss_demo (input : list (list Q)) (target : list nat) : Q :=
  Qopp (foldr Qplus 0%Q (zip_with (λ (r : list Q) (t : nat), default 0%Q (r !! t)) input target)).
Definition backward_demo (loss : Net Q → outcome Q) (net : Net Q) : unit := tt.
Definition optim_init_demo (a : OptimAlgo) (net : Net Q) : unit := tt.
Definition optim_step_demo (o : Optimizer unit) (net : Net Q) (grads : unit)
    : Optimizer unit * Net Q := (o, net).

Abbreviation epoch_body_demo :=
  (epoch_body gcn_message_eq gcn_reduce_eq log_softmax_row_demo nll_loss_demo
     unit backward_demo unit optim_step_demo).

Abbreviation initial_state_demo :=
  (initial_state unit optim_init_demo GG_demo net_demo).

(** The order of the rationals as a boolean test. *)
Definition Qltb (x y : Q) : bool := negb (Qle_bool y x).

(** The two-node graph after the ['broness'] cell; logits of 34 nodes for two
    classes, node [v] with the row [v, 16]. *)
Definition g_pair_broness : DGLGraph Q := returned empty_graph (cell14 g_pair).

Definition logits_demo : list (list Q) :=
  (λ v, [inject_Z (Z.of_nat v); 16%Q]) <$> seq 0 34.

(** The 34-node graph made bidirectional, with a self loop at every node. *)
Definition GG_loops_demo : DGLGraph Q :=
  returned empty_graph
    (G ← add_edges (Ids (all_edges GG_demo).*2) (Ids (all_edges GG_demo).*1) GG_demo;
     add_edges (Ids (seq 0 34)) (Ids (seq 0 34)) G).

(** * Facts about the library model *)

Section OutcomeFacts.
Context {A B : Type}.

Lemma bind_Returns (m : outcome A) (f : A → outcome B) (b : B) :
  m ≫= f = Returns b ↔ ∃ a, m = Returns a ∧ f a = Returns b.
Proof.
  split.
  - destruct m as [a| |]; simpl; [eauto | discriminate | discriminate].
  - intros (a & -> & Hf). exact Hf.
Qed.

Lemma bind_Raises_l (f : A → outcome B) (e : exn) : Raises e ≫= f = Raises e.
Proof. reflexivity. Qed.

End OutcomeFacts.

Ltac inv_bind H :=
  let a := fresh "a" in
  let Ha := fresh "Ha" in
  apply bind_Returns in H; destruct H as (a & Ha & H).

Section FrameFacts.
Context {T : Type} `{!Scalar T}.
Implicit Types (col feats : list (list T)) (idx : list nat).

Lemma scatter_row_cons col i idx r feats :
  scatter_row col (i :: idx) (r :: feats) = scatter_row (<[i := r]> col) idx feats.
Proof. reflexivity. Qed.

Lemma length_scatter_row col idx feats :
  length (scatter_row col idx feats) = length col.
Proof.
  revert col feats. induction idx as [|i idx IH]; intros col [|r feats]; try reflexivity.
  rewrite scatter_row_cons, IH. apply length_insert.
Qed.

(** Rows that are not addressed keep their value. *)
Lemma scatter_row_lookup_notin col idx feats j :
  j ∉ idx → scatter_row col idx feats !! j = col !! j.
Proof.
  revert col feats. induction idx as [|i idx IH]; intros col [|r feats] Hj; try reflexivity.
  rewrite scatter_row_cons, IH by set_solver.
  apply list_lookup_insert_ne. set_solver.
Qed.

(** With distinct ids, row [idx[k]] gets [feats[k]]. *)
Lemma scatter_row_lookup_nodup col idx feats k i :
  NoDup idx → length feats = length idx → i < length col →
  idx !! k = Some i → scatter_row col idx feats !! i = feats !! k.
Proof.
  revert col feats k. induction idx as [|i' idx IH]; intros col [|r feats] k Hnd Hlen Hi Hk;
    try discriminate.
  rewrite scatter_row_cons. apply NoDup_cons in Hnd as [Hnotin Hnd].
  destruct k as [|k]; simpl in Hk.
  - injection Hk as ->. rewrite scatter_row_lookup_notin by done.
    simpl. by apply list_lookup_insert_eq.
  - simpl in *. apply IH; [done | lia | by rewrite length_insert | done].
Qed.

(** Whatever the ids, writing [f i] at every [i] leaves [f i] there. *)
Lemma scatter_row_lookup_fn (f : nat → list T) col idx i :
  i < length col → i ∈ idx ∨ col !! i = Some (f i) →
  scatter_row col idx (f <$> idx) !! i = Some (f i).
Proof.
  revert col. induction idx as [|i' idx IH]; intros col Hi Hor.
  - destruct Hor as [Hin|Hc]; [by apply elem_of_nil in Hin | exact Hc].
  - rewrite fmap_cons, scatter_row_cons. apply IH; [by rewrite length_insert|].
    destruct (decide (i' = i)) as [->|Hne].
    + right. by apply list_lookup_insert_eq.
    + destruct Hor as [Hin|Hc].
      * left. apply elem_of_cons in Hin as [Heq|Hin]; [congruence | exact Hin].
      * right. by rewrite list_lookup_insert_ne.
Qed.

Lemma update_rows_lookup num idx (data fr : gmap string (list (list T))) key :
  update_rows num idx data fr !! key =
    match data !! key with
    | Some feats =>
        Some (scatter_row (default (replicate num (zeros_like feats)) (fr !! key)) idx feats)
    | None => fr !! key
    end.
Proof.
  unfold update_rows. rewrite lookup_merge.
  destruct (data !! key), (fr !! key); reflexivity.
Qed.

Lemma update_rows_singleton_eq num idx key feats (fr : gmap string (list (list T))) col :
  fr !! key = Some col →
  update_rows num idx {[key := feats]} fr !! key = Some (scatter_row col idx feats).
Proof. intros Hc. by rewrite update_rows_lookup, lookup_singleton_eq, Hc. Qed.

Lemma update_rows_singleton_ne num idx key key' feats (fr : gmap string (list (list T))) :
  key ≠ key' → update_rows num idx {[key := feats]} fr !! key' = fr !! key'.
Proof. intros Hne. by rewrite update_rows_lookup, lookup_singleton_ne. Qed.

End FrameFacts.

(** ** Sending along all edges, receiving at all nodes *)

Section MessagePassingFacts.
Context {T : Type} `{!Scalar T}.
Implicit Types (g : DGLGraph T).

Lemma mapM_Returns_fmap {A B} (f : A → outcome B) (h : A → B) (l : list A) :
  (∀ x, x ∈ l → f x = Returns (h x)) → mapM f l = Returns (h <$> l).
Proof.
  induction l as [|x l IH]; intros Hf; [reflexivity|].
  simpl. rewrite Hf by set_solver. simpl. rewrite IH by set_solver. reflexivity.
Qed.

Lemma mapM_Returns_inv {A B} (f : A → outcome B) (l : list A) (k : list B) :
  mapM f l = Returns k → Forall2 (λ x y, f x = Returns y) l k.
Proof.
  revert k. induction l as [|x l IH]; intros k Hk; simpl in Hk.
  - injection Hk as <-. constructor.
  - apply bind_Returns in Hk as (y & Hy & Hk).
    apply bind_Returns in Hk as (k' & Hk' & Hk). injection Hk as <-.
    constructor; [exact Hy | by apply IH].
Qed.

Lemma length_set_index idx b (l : list bool) : length (set_index idx b l) = length l.
Proof.
  revert l. induction idx as [|i idx IH]; intros l; [reflexivity|].
  unfold set_index in *. simpl. rewrite IH. apply length_insert.
Qed.

Lemma set_index_lookup idx b (l : list bool) i :
  i < length l → i ∈ idx ∨ l !! i = Some b → set_index idx b l !! i = Some b.
Proof.
  revert l. induction idx as [|i' idx IH]; intros l Hi Hor.
  - destruct Hor as [Hin|Hl]; [by apply elem_of_nil in Hin | exact Hl].
  - unfold set_index in *. simpl. apply IH; [by rewrite length_insert|].
    destruct (decide (i' = i)) as [->|Hne].
    + right. by apply list_lookup_insert_eq.
    + destruct Hor as [Hin|Hl].
      * left. apply elem_of_cons in Hin as [Heq|Hin]; [congruence | exact Hin].
      * right. by rewrite list_lookup_insert_ne.
Qed.

(** Marking every position gives the constant list. *)
Lemma set_index_all idx b b' n :
  (∀ i, i < n → i ∈ idx) → set_index idx b (replicate n b') = replicate n b.
Proof.
  intros Hall. apply list_eq. intros i.
  destruct (decide (i < n)) as [Hi|Hi].
  - rewrite set_index_lookup, lookup_replicate_2; auto.
    by rewrite length_replicate.
  - rewrite !lookup_ge_None_2; [done | |];
      rewrite ?length_set_index, length_replicate; lia.
Qed.

Lemma broadcast_pairs_fst_snd (l : list (nat * nat)) :
  broadcast_pairs (l.*1) (l.*2) = Returns l.
Proof.
  destruct l as [|[u v] [|[u' v'] l]]; try reflexivity.
  unfold broadcast_pairs. cbn [fmap list_fmap fst snd].
  rewrite decide_True by (simpl; by rewrite !length_fmap).
  f_equal. apply (zip_fst_snd ((u, v) :: (u', v') :: l)).
Qed.

Lemma elem_of_edges_between g p e :
  e ∈ edges_between g p ↔ all_edges g !! e = Some p.
Proof.
  unfold edges_between. rewrite list_elem_of_filter, elem_of_seq.
  split; [tauto|]. intros He. split; [exact He|].
  apply lookup_lt_Some in He. unfold number_of_edges. lia.
Qed.

(** The ids that [g.edges()] resolves to are exactly the edges of [g]. *)
Lemma elem_of_all_edge_ids g e :
  e ∈ all_edges g ≫= edges_between g ↔ e < number_of_edges g.
Proof.
  rewrite list_elem_of_bind. split.
  - intros (p & He & _). apply elem_of_edges_between, lookup_lt_Some in He. exact He.
  - intros He. apply lookup_lt_is_Some in He as [p Hp].
    exists p. split; [by apply elem_of_edges_between | by eapply list_elem_of_lookup_2].
Qed.

Lemma edge_ids_all_edges g :
  valid_graph g →
  edge_ids g (edges g).1 (edges g).2 = Returns (all_edges g ≫= edges_between g).
Proof.
  intros Hv. unfold edge_ids, edges. simpl.
  rewrite broadcast_pairs_fst_snd. simpl. by rewrite Hv.
Qed.

Lemma valid_graph_lookup g e u v :
  valid_graph g → all_edges g !! e = Some (u, v) → u < n_nodes g ∧ v < n_nodes g.
Proof.
  intros Hv He. unfold valid_graph in Hv.
  apply Is_true_eq_left, forallb_True in Hv. rewrite Forall_forall in Hv.
  specialize (Hv (u, v) (list_elem_of_lookup_2 _ _ _ He)).
  unfold valid_pair, has_node in Hv. simpl in Hv.
  apply andb_prop_elim in Hv as [H1 H2].
  split; by eapply bool_decide_unpack.
Qed.

Lemma elem_of_in_edges g v e :
  e ∈ in_edges g v ↔ ∃ u, all_edges g !! e = Some (u, v).
Proof.
  unfold in_edges. rewrite list_elem_of_filter, elem_of_seq. split.
  - intros [He _]. destruct (all_edges g !! e) as [[u v']|]; simpl in He; [|done].
    injection He as ->. eauto.
  - intros [u Hu]. rewrite Hu. split; [done|].
    apply lookup_lt_Some in Hu. unfold number_of_edges. lia.
Qed.

Lemma in_edges_lt g v e : e ∈ in_edges g v → e < number_of_edges g.
Proof.
  intros (u & Hu)%elem_of_in_edges. by apply lookup_lt_Some in Hu.
Qed.

Lemma in_edges_node g v : valid_graph g → in_edges g v ≠ [] → v < n_nodes g.
Proof.
  intros Hv Hne. destruct (in_edges g v) as [|e l] eqn:He; [done|].
  assert (e ∈ in_edges g v) as (u & Hu)%elem_of_in_edges by (rewrite He; left).
  by destruct (valid_graph_lookup g e u v Hv Hu).
Qed.

Lemma filter_all_id {A} (P : A → Prop) `{∀ x, Decision (P x)} (l : list A) :
  Forall P l → filter P l = l.
Proof.
  induction 1 as [|x l Hx _ IH]; [reflexivity|].
  rewrite filter_cons_True by done. by rewrite IH.
Qed.

Lemma scatter_row_all (f : nat → list T) idx n z :
  (∀ i, i < n → i ∈ idx) →
  scatter_row (replicate n z) idx (f <$> idx) = f <$> seq 0 n.
Proof.
  intros Hall. apply list_eq. intros i.
  destruct (decide (i < n)) as [Hi|Hi].
  - rewrite scatter_row_lookup_fn by (rewrite ?length_replicate; auto).
    by rewrite list_lookup_fmap, lookup_seq_lt.
  - rewrite !lookup_ge_None_2; [done | |];
      rewrite ?length_scatter_row, ?length_fmap, ?length_replicate, ?length_seq; lia.
Qed.

Lemma forallb_has_node_nodes g : forallb (has_node g) (nodes g) = true.
Proof.
  apply Is_true_eq_true, forallb_True, Forall_forall. intros v Hv.
  apply elem_of_seq in Hv. unfold has_node. apply bool_decide_pack. lia.
Qed.

(** After a send along all edges, every in-edge carries a message. *)
Lemma pending_all g v :
  msg_index g = replicate (number_of_edges g) true → pending g v = in_edges g v.
Proof.
  intros Hmi. unfold pending. apply filter_all_id, Forall_forall. intros e He.
  rewrite Hmi. apply lookup_replicate_2. by eapply in_edges_lt.
Qed.

(** With [gcn_message_eq], sending along all edges stores, for every edge, the
    feature ['h'] of its source. *)
Lemma send_all_edges_eq g h :
  valid_graph g → no_messages g → number_of_edges g ≠ 0 →
  node_frame g !! "h" = Some h →
  send (edges g) gcn_message_eq g =
    Returns (with_msgs g
               {["msg" := (λ e, default [] (h !! edge_src g e))
                            <$> seq 0 (number_of_edges g)]}
               (replicate (number_of_edges g) true)).
Proof.
  intros Hv [Hmf Hmi] HE Hh. unfold send.
  rewrite edge_ids_all_edges by done. simpl.
  set (eid := all_edges g ≫= edges_between g).
  assert (∀ e, e < number_of_edges g → e ∈ eid) as Hin
    by (intros e He; by apply elem_of_all_edge_ids).
  rewrite decide_False.
  2:{ intros Heq. specialize (Hin 0). rewrite Heq in Hin.
      apply (not_elem_of_nil 0), Hin. lia. }
  unfold gcn_message_eq. simpl. unfold gather_frame at 1.
  rewrite lookup_fmap, Hh. simpl.
  assert (gather_row h (edge_src g <$> eid)
          = (λ e, default [] (h !! edge_src g e)) <$> eid) as ->.
  { unfold gather_row. by rewrite <- list_fmap_compose. }
  assert (frame_rows_ok (length eid)
            ({["msg" := (λ e, default [] (h !! edge_src g e)) <$> eid]}
               : gmap string (list (list T))) = true) as ->.
  { unfold frame_rows_ok. apply bool_decide_eq_true, map_Forall_singleton.
    by rewrite length_fmap. }
  f_equal. unfold with_msgs. f_equal.
  - rewrite Hmf. apply map_eq. intros k. rewrite update_rows_lookup.
    destruct (decide (k = "msg")) as [->|Hk].
    + rewrite !lookup_singleton_eq, lookup_empty. simpl. f_equal.
      by apply scatter_row_all.
    + by rewrite !lookup_singleton_ne, lookup_empty.
  - rewrite Hmi. by apply set_index_all.
Qed.

Lemma foldl_update_rows_other num
    (ws : list (list nat * gmap string (list (list T)))) nf k :
  (∀ w, w ∈ ws → w.2 !! k = None) →
  foldl (λ nf w, update_rows num w.1 w.2 nf) nf ws !! k = nf !! k.
Proof.
  revert nf. induction ws as [|w ws IH]; intros nf Hws; [reflexivity|].
  simpl. rewrite IH by (intros; apply Hws; by right).
  rewrite update_rows_lookup, Hws by left. reflexivity.
Qed.

Lemma foldl_update_rows_lookup num
    (ws : list (list nat * gmap string (list (list T)))) nf key col :
  nf !! key = Some col →
  foldl (λ nf w, update_rows num w.1 w.2 nf) nf ws !! key
    = Some (foldl (write_key key) col ws).
Proof.
  revert nf col. induction ws as [|w ws IH]; intros nf col Hcol; [exact Hcol|].
  simpl. apply IH. rewrite update_rows_lookup. unfold write_key.
  destruct (w.2 !! key); rewrite Hcol; reflexivity.
Qed.

Lemma length_foldl_write_key key
    (ws : list (list nat * gmap string (list (list T)))) col :
  length (foldl (write_key key) col ws) = length col.
Proof.
  revert col. induction ws as [|w ws IH]; intros col; [reflexivity|].
  simpl. rewrite IH. unfold write_key.
  destruct (w.2 !! key); [apply length_scatter_row | reflexivity].
Qed.

(** If every write that touches row [v] writes [F v] there, and some write
    does, row [v] ends up as [F v]. *)
Lemma foldl_write_key_lookup_fn key (F : nat → list T)
    (ws : list (list nat * gmap string (list (list T)))) col v :
  v < length col →
  (∀ w rows, w ∈ ws → w.2 !! key = Some rows → v ∉ w.1 ∨ rows = F <$> w.1) →
  (col !! v = Some (F v) ∨ ∃ w, w ∈ ws ∧ v ∈ w.1 ∧ w.2 !! key = Some (F <$> w.1)) →
  foldl (write_key key) col ws !! v = Some (F v).
Proof.
  revert col. induction ws as [|w ws IH]; intros col Hv Hws Hor.
  - destruct Hor as [Hc|(w & Hw & _)]; [exact Hc | by apply elem_of_nil in Hw].
  - simpl. apply IH.
    + unfold write_key. destruct (w.2 !! key); [by rewrite length_scatter_row | done].
    + intros w' rows Hw'. apply Hws. by right.
    + destruct Hor as [Hc|(w' & Hw' & Hvin & Hrows)].
      * left. unfold write_key. destruct (w.2 !! key) as [rows|] eqn:Hk; [|exact Hc].
        destruct (Hws w rows) as [Hnotin| ->]; [by left | exact Hk | |].
        -- by rewrite scatter_row_lookup_notin.
        -- apply scatter_row_lookup_fn; auto.
      * apply elem_of_cons in Hw' as [->|Hw'].
        -- left. unfold write_key. rewrite Hrows.
           apply scatter_row_lookup_fn; auto.
        -- right. eauto.
Qed.

(** Whatever the message function, a send that returns has touched only the
    message frame and its index. *)
Lemma send_frame uv (mfunc : message_func T) g g' :
  send uv mfunc g = Returns g' →
  n_nodes g' = n_nodes g ∧ all_edges g' = all_edges g ∧
  node_frame g' = node_frame g ∧ edge_frame g' = edge_frame g.
Proof.
  unfold send. intros H. inv_bind H.
  destruct (decide (a = [])); [by injection H as <-|].
  inv_bind H. cbv zeta in H.
  destruct (frame_rows_ok _ _); [|discriminate].
  by injection H as <-.
Qed.

(** Whatever the reduce function, a recv that returns has kept the nodes, the
    edges and the edge features, and every node feature that the reduce
    function does not return. *)
Lemma recv_frame v (rfunc : reduce_func T) g g' :
  recv v rfunc g = Returns g' →
  n_nodes g' = n_nodes g ∧ all_edges g' = all_edges g ∧
  edge_frame g' = edge_frame g ∧
  ∀ k, (∀ nb d, rfunc nb = Returns (Some d) → d !! k = None) →
       node_frame g' !! k = node_frame g !! k.
Proof.
  unfold recv. intros H.
  destruct (forallb _ _); [|discriminate]. cbv zeta in H.
  destruct (decide _); [by injection H as <-|].
  inv_bind H. rename a into bkt_feats.
  destruct (forallb _ bkt_feats); [|discriminate].
  injection H as <-. simpl. do 3 (split; [reflexivity|]).
  intros k Hk.
  assert (∀ w, w ∈ bkt_feats → w.2 !! k = None) as Hw.
  { intros w Hw. apply mapM_Returns_inv in Ha.
    apply list_elem_of_lookup in Hw as [i Hi].
    destruct (Forall2_lookup_r _ _ _ _ _ Ha Hi) as (b & _ & Hb).
    unfold reduce_bucket in Hb. inv_bind Hb. cbv zeta in Hb.
    destruct (frame_rows_ok _ _); [|discriminate].
    injection Hb as <-. simpl.
    destruct a as [d|]; simpl; [by eapply Hk | apply lookup_empty]. }
  apply foldl_update_rows_other. intros w [Hin|Hin]%elem_of_app; [by apply Hw|].
  apply list_elem_of_singleton in Hin as ->. simpl. rewrite lookup_fmap.
  destruct bkt_feats as [|w0 ws]; simpl; [by rewrite lookup_empty|].
  rewrite Hw by left. reflexivity.
Qed.

Lemma fmap_const_replicate {A B} (l : list A) (z : B) :
  (λ _, z) <$> l = replicate (length l) z.
Proof. induction l as [|a l IH]; [reflexivity|]. simpl. by rewrite <- IH. Qed.

(** With [gcn_reduce_eq], receiving at all nodes right after such a send
    replaces ['h'] at every node that has an in-edge by the sum of its
    messages, and at every other node by zeros shaped like the first row that
    the reduce function returned; it leaves the other features alone and
    consumes the messages. *)
Lemma recv_all_nodes_eq_rows g mcol h :
  valid_graph g → number_of_edges g ≠ 0 →
  msg_frame g = {["msg" := mcol]} →
  msg_index g = replicate (number_of_edges g) true →
  node_frame g !! "h" = Some h → length h = n_nodes g →
  ∃ h' u0,
    recv (nodes g) gcn_reduce_eq g =
      Returns {| n_nodes := n_nodes g; all_edges := all_edges g;
                 node_frame := <["h" := h']> (node_frame g);
                 edge_frame := edge_frame g; msg_frame := ∅;
                 msg_index := replicate (number_of_edges g) false |} ∧
    length h' = n_nodes g ∧ in_edges g u0 ≠ [] ∧
    ∀ v, v < n_nodes g →
      h' !! v = Some (if decide (in_edges g v = [])
                      then (λ _, tzero) <$> sum_messages (gather_row mcol (in_edges g u0))
                      else sum_messages (gather_row mcol (in_edges g v))).
Proof.
  intros Hv HE Hmf Hmi Hh Hlen.
  pose proof (pending_all g) as Hpend. specialize (λ v, Hpend v Hmi).
  unfold recv. rewrite forallb_has_node_nodes. cbv zeta.
  set (recv_nodes := filter (λ u, u ∈ nodes g) (seq 0 (n_nodes g))).
  set (eid := recv_nodes ≫= pending g).
  set (buckets := filter (λ b, b ≠ []) _).
  set (zero_deg_nodes := filter (λ u, pending g u = []) recv_nodes).
  set (F := λ u, sum_messages (gather_row mcol (pending g u))).
  set (G := λ b : list nat, (b, ({["h" := F <$> b]} : gmap string (list (list T))))).
  assert (recv_nodes = seq 0 (n_nodes g)) as Hrn.
  { apply filter_all_id, Forall_forall. done. }
  assert (∀ e, e < number_of_edges g → e ∈ eid) as Hcover.
  { intros e He. apply lookup_lt_is_Some in He as [[u v] Huv].
    destruct (valid_graph_lookup g e u v Hv Huv) as [_ Hvn].
    unfold eid. apply list_elem_of_bind. exists v. split.
    - rewrite Hpend. apply elem_of_in_edges. eauto.
    - rewrite Hrn. apply elem_of_seq. lia. }
  rewrite decide_False.
  2:{ intros Heq. apply (not_elem_of_nil 0). rewrite <- Heq. apply Hcover. lia. }
  assert (mapM (reduce_bucket g gcn_reduce_eq) buckets = Returns (G <$> buckets)) as ->.
  { apply mapM_Returns_fmap. intros b _. unfold reduce_bucket, gcn_reduce_eq. simpl.
    rewrite Hmf, lookup_fmap, lookup_singleton_eq. simpl.
    rewrite <- list_fmap_compose.
    assert (frame_rows_ok (length b)
              ({["h" := sum_messages ∘ (λ u, gather_row mcol (pending g u)) <$> b]}
                 : gmap string (list (list T))) = true) as ->; [|reflexivity].
    unfold frame_rows_ok. apply bool_decide_eq_true, map_Forall_singleton.
    by rewrite length_fmap. }
  (* the bucket of a node with a message is among the buckets *)
  assert (∀ v, v < n_nodes g → pending g v ≠ [] →
            filter (λ u, length (pending g u) = length (pending g v)) recv_nodes
              ∈ buckets) as Hbucket.
  { intros v Hvn Hne. apply list_elem_of_filter. split.
    - intros Heq.
      assert (v ∈ filter (λ u, length (pending g u) = length (pending g v)) recv_nodes)
        as Hvb.
      { apply list_elem_of_filter. split; [done|]. rewrite Hrn. apply elem_of_seq. lia. }
      rewrite Heq in Hvb. by apply elem_of_nil in Hvb.
    - apply list_elem_of_fmap. exists (length (pending g v)). split; [done|].
      apply elem_of_seq.
      assert (length (pending g v) ≤ number_of_edges g).
      { unfold pending, in_edges. etrans; [apply length_filter|].
        etrans; [apply length_filter|]. by rewrite length_seq. }
      destruct (pending g v); [done | simpl in *; lia]. }
  (* every bucket has a node, and every node of a bucket has a message *)
  assert (∀ b, b ∈ buckets → b ≠ [] ∧ ∀ u, u ∈ b → pending g u ≠ []) as Hdeg.
  { intros b Hb. apply list_elem_of_filter in Hb as [Hne Hb]. split; [exact Hne|].
    intros u Hu.
    apply list_elem_of_fmap in Hb as (d & -> & Hd%elem_of_seq).
    apply list_elem_of_filter in Hu as [Hu _].
    intros Hnil. rewrite Hnil in Hu. simpl in Hu. lia. }
  clearbody buckets.
  assert (∃ u0 b0 bs, buckets = (u0 :: b0) :: bs) as (u0 & b0 & bs & Hbs).
  { destruct (lookup_lt_is_Some_2 (all_edges g) 0) as [[u v] Huv];
      [unfold number_of_edges in HE; lia|].
    destruct (valid_graph_lookup g 0 u v Hv Huv) as [_ Hvn].
    assert (pending g v ≠ []) as Hne.
    { rewrite Hpend. intros Hnil.
      assert (0 ∈ in_edges g v) as Hin by (apply elem_of_in_edges; eauto).
      rewrite Hnil in Hin. by apply elem_of_nil in Hin. }
    pose proof (Hbucket v Hvn Hne) as Hin.
    destruct buckets as [|[|u0 b0] bs].
    - by apply elem_of_nil in Hin.
    - destruct (Hdeg []) as [Hnil _]; [left | done].
    - eauto. }
  assert (pending g u0 ≠ []) as Hu0.
  { apply (Hdeg (u0 :: b0)); [rewrite Hbs|]; left. }
  set (z := (λ _ : T, tzero) <$> F u0).
  set (F' := λ u, if decide (pending g u = []) then z else F u).
  simpl.
  set (first_feat := default ∅ (snd <$> head (G <$> buckets))).
  assert (first_feat = {["h" := F <$> (u0 :: b0)]}) as Hfirst.
  { unfold first_feat. by rewrite Hbs. }
  assert (forallb (λ w : list nat * gmap string (list (list T)),
                     bool_decide (dom w.2 = dom first_feat)) (G <$> buckets) = true) as ->.
  { apply Is_true_eq_true, forallb_True, Forall_forall. intros w Hw.
    apply bool_decide_pack.
    apply list_elem_of_fmap in Hw as (b & -> & Hb). simpl.
    rewrite Hfirst. by rewrite !dom_singleton_L. }
  set (zero_feat := _ <$> first_feat).
  assert (zero_feat = {["h" := F' <$> zero_deg_nodes]}) as Hzero.
  { unfold zero_feat. rewrite Hfirst, map_fmap_singleton. f_equal. simpl.
    fold z. rewrite <- fmap_const_replicate.
    apply list_fmap_ext. intros _ u Hu%list_elem_of_lookup_2.
    apply list_elem_of_filter in Hu as [Hu _].
    unfold F'. by rewrite decide_True. }
  set (ws := (G <$> buckets) ++ _).
  exists (foldl (write_key "h") h ws), u0.
  split; [|split; [|split]].
  - f_equal. f_equal.
    + apply map_eq. intros k. destruct (decide (k = "h")) as [->|Hk].
      * rewrite lookup_insert_eq. by apply foldl_update_rows_lookup.
      * rewrite lookup_insert_ne by done. apply foldl_update_rows_other.
        intros w Hw. apply elem_of_app in Hw as [Hw|Hw].
        -- apply list_elem_of_fmap in Hw as (b & -> & _). simpl.
           by apply lookup_singleton_ne.
        -- apply list_elem_of_singleton in Hw as ->. simpl.
           rewrite Hzero. by apply lookup_singleton_ne.
    + rewrite Hmi, (set_index_all eid false true) by done.
      rewrite decide_False; [done|].
      intros [Hin _]%elem_of_replicate. discriminate.
    + rewrite Hmi. by apply set_index_all.
  - by rewrite length_foldl_write_key.
  - by rewrite <- Hpend.
  - intros v Hvn. rewrite <- !Hpend.
    change (foldl (write_key "h") h ws !! v = Some (F' v)).
    apply foldl_write_key_lookup_fn.
    + by rewrite Hlen.
    + intros w rows Hw Hrows. right. apply elem_of_app in Hw as [Hw|Hw].
      * apply list_elem_of_fmap in Hw as (b & -> & Hb). simpl in *.
        rewrite lookup_singleton_eq in Hrows. injection Hrows as <-.
        apply list_fmap_ext. intros _ u Hu%list_elem_of_lookup_2.
        unfold F'. rewrite decide_False; [reflexivity|]. by apply (Hdeg b).
      * apply list_elem_of_singleton in Hw as ->. simpl in *.
        rewrite Hzero, lookup_singleton_eq in Hrows. by injection Hrows as <-.
    + right. destruct (decide (pending g v = [])) as [Hnil|Hne].
      * exists (zero_deg_nodes, zero_feat). split; [|split].
        -- apply elem_of_app. right. by apply list_elem_of_singleton.
        -- apply list_elem_of_filter. split; [exact Hnil|].
           rewrite Hrn. apply elem_of_seq. lia.
        -- simpl. rewrite Hzero. apply lookup_singleton_eq.
      * set (b := filter (λ u, length (pending g u) = length (pending g v)) recv_nodes).
        exists (G b). split; [|split].
        -- apply elem_of_app. left. apply list_elem_of_fmap_2. by apply Hbucket.
        -- apply list_elem_of_filter. split; [done|]. rewrite Hrn. apply elem_of_seq. lia.
        -- simpl. rewrite lookup_singleton_eq. f_equal.
           apply list_fmap_ext. intros _ u Hu%list_elem_of_lookup_2.
           unfold F'. rewrite decide_False; [reflexivity|].
           apply (Hdeg b); [by apply Hbucket | exact Hu].
Qed.

(** The rows of nodes with an in-edge. *)
Lemma recv_all_nodes_eq g mcol h :
  valid_graph g → number_of_edges g ≠ 0 →
  msg_frame g = {["msg" := mcol]} →
  msg_index g = replicate (number_of_edges g) true →
  node_frame g !! "h" = Some h → length h = n_nodes g →
  ∃ h',
    recv (nodes g) gcn_reduce_eq g =
      Returns {| n_nodes := n_nodes g; all_edges := all_edges g;
                 node_frame := <["h" := h']> (node_frame g);
                 edge_frame := edge_frame g; msg_frame := ∅;
                 msg_index := replicate (number_of_edges g) false |} ∧
    length h' = n_nodes g ∧
    ∀ v, in_edges g v ≠ [] →
      h' !! v = Some (sum_messages (gather_row mcol (in_edges g v))).
Proof.
  intros Hv HE Hmf Hmi Hh Hlen.
  destruct (recv_all_nodes_eq_rows g mcol h Hv HE Hmf Hmi Hh Hlen)
    as (h' & u0 & Hrecv & Hlen' & _ & Hrows).
  exists h'. split; [exact Hrecv|]. split; [exact Hlen'|].
  intros v Hne. rewrite Hrows by (by eapply in_edges_node).
  by rewrite decide_False.
Qed.

(** ** The functions as shipped *)

Lemma update_rows_empty num idx (fr : gmap string (list (list T))) :
  update_rows num idx ∅ fr = fr.
Proof.
  apply map_eq. intros k. rewrite update_rows_lookup, lookup_empty.
  by destruct (fr !! k).
Qed.

Lemma frame_rows_ok_empty num : frame_rows_ok num (∅ : gmap string (list (list T))) = true.
Proof. unfold frame_rows_ok. apply bool_decide_eq_true, map_Forall_empty. Qed.

Lemma with_msgs_id g : with_msgs g (msg_frame g) (msg_index g) = g.
Proof. by destruct g. Qed.

(** A message function that returns [None] stores no message field; the
    edges are marked all the same. *)
Lemma send_all_edges_shipped g :
  valid_graph g → no_messages g →
  send (edges g) gcn_message g
    = Returns (with_msgs g ∅ (replicate (number_of_edges g) true)).
Proof.
  intros Hv [Hmf Hmi]. unfold send.
  rewrite edge_ids_all_edges by done. simpl.
  set (eid := all_edges g ≫= edges_between g).
  assert (∀ e, e < number_of_edges g → e ∈ eid) as Hin
    by (intros e He; by apply elem_of_all_edge_ids).
  destruct (decide (eid = [])) as [Heq|Hne].
  - assert (number_of_edges g = 0) as HE.
    { destruct (decide (number_of_edges g = 0)) as [|HE]; [done|].
      exfalso. apply (not_elem_of_nil 0). rewrite <- Heq. apply Hin. lia. }
    f_equal. rewrite <- (with_msgs_id g) at 1. rewrite Hmf, Hmi, HE. reflexivity.
  - unfold gcn_message. simpl. rewrite frame_rows_ok_empty.
    f_equal. unfold with_msgs. f_equal.
    + by rewrite update_rows_empty.
    + rewrite Hmi. by apply set_index_all.
Qed.

Lemma foldl_update_rows_empty num (ws : list (list nat * gmap string (list (list T)))) nf :
  (∀ w, w ∈ ws → w.2 = ∅) →
  foldl (λ nf w, update_rows num w.1 w.2 nf) nf ws = nf.
Proof.
  revert nf. induction ws as [|w ws IH]; intros nf Hws; [reflexivity|].
  simpl. rewrite (Hws w) by left. rewrite update_rows_empty.
  apply IH. intros w' Hw'. apply Hws. by right.
Qed.

(** A reduce function that returns [None] writes no node feature; the
    messages are consumed all the same. *)
Lemma recv_all_nodes_shipped g :
  valid_graph g → msg_frame g = ∅ →
  msg_index g = replicate (number_of_edges g) true →
  recv (nodes g) gcn_reduce g
    = Returns (with_msgs g ∅ (replicate (number_of_edges g) false)).
Proof.
  intros Hv Hmf Hmi.
  pose proof (pending_all g) as Hpend. specialize (λ v, Hpend v Hmi).
  unfold recv. rewrite forallb_has_node_nodes. cbv zeta.
  set (recv_nodes := filter (λ u, u ∈ nodes g) (seq 0 (n_nodes g))).
  set (eid := recv_nodes ≫= pending g).
  set (buckets := filter (λ b, b ≠ []) _).
  set (G := λ b : list nat, (b, (∅ : gmap string (list (list T))))).
  assert (recv_nodes = seq 0 (n_nodes g)) as Hrn.
  { apply filter_all_id, Forall_forall. done. }
  assert (∀ e, e < number_of_edges g → e ∈ eid) as Hcover.
  { intros e He. apply lookup_lt_is_Some in He as [[u v] Huv].
    destruct (valid_graph_lookup g e u v Hv Huv) as [_ Hvn].
    unfold eid. apply list_elem_of_bind. exists v. split.
    - rewrite Hpend. apply elem_of_in_edges. eauto.
    - rewrite Hrn. apply elem_of_seq. lia. }
  destruct (decide (eid = [])) as [Heq|Hne].
  { assert (number_of_edges g = 0) as HE.
    { destruct (decide (number_of_edges g = 0)) as [|HE]; [done|].
      exfalso. apply (not_elem_of_nil 0). rewrite <- Heq. apply Hcover. lia. }
    f_equal. rewrite <- (with_msgs_id g) at 1. rewrite Hmf, Hmi, HE. reflexivity. }
  assert (mapM (reduce_bucket g gcn_reduce) buckets = Returns (G <$> buckets)) as ->.
  { apply mapM_Returns_fmap. intros b _. unfold reduce_bucket, gcn_reduce. simpl.
    by rewrite frame_rows_ok_empty. }
  clearbody buckets. simpl.
  set (first_feat := default ∅ (snd <$> head (G <$> buckets))).
  assert (first_feat = ∅) as Hfirst.
  { unfold first_feat. by destruct buckets. }
  assert (forallb (λ w : list nat * gmap string (list (list T)),
                     bool_decide (dom w.2 = dom first_feat)) (G <$> buckets) = true) as ->.
  { apply Is_true_eq_true, forallb_True, Forall_forall. intros w Hw.
    apply bool_decide_pack.
    apply list_elem_of_fmap in Hw as (b & -> & Hb). simpl. by rewrite Hfirst. }
  f_equal. unfold with_msgs. f_equal.
  - apply foldl_update_rows_empty. intros w [Hw|Hw]%elem_of_app.
    + by apply list_elem_of_fmap in Hw as (b & -> & _).
    + apply list_elem_of_singleton in Hw as ->. simpl. rewrite Hfirst.
      apply fmap_empty.
  - rewrite Hmi, (set_index_all eid false true) by done.
    rewrite decide_False; [done|].
    intros [Hin _]%elem_of_replicate. discriminate.
  - rewrite Hmi. by apply set_index_all.
Qed.

End MessagePassingFacts.

(** * Notebook 2 *)

Section GCNFacts.
Context {T : Type} `{!Scalar T}.
Implicit Types (g : DGLGraph T).

Lemma length_Linear_forward (l : Linear T) (x : list (list T)) :
  length (Linear_forward l x) = length x.
Proof. unfold Linear_forward. apply length_fmap. Qed.

Lemma Linear_forward_rows (l : Linear T) (x : list (list T)) c :
  length (weight l) = c → length (bias l) = c →
  Forall (λ r, length r = c) (Linear_forward l x).
Proof.
  intros Hw Hb. unfold Linear_forward. apply Forall_fmap, Forall_forall.
  intros r _. simpl. rewrite length_zip_with, length_fmap. lia.
Qed.

Lemma length_sum_messages (msgs : list (list T)) c :
  msgs ≠ [] → Forall (λ r, length r = c) msgs → length (sum_messages msgs) = c.
Proof.
  destruct msgs as [|m ms]; [done|]. intros _ Hall.
  apply Forall_cons in Hall as [Hm Hms]. simpl.
  revert m Hm. induction Hms as [|r ms Hr _ IH]; intros m Hm; [exact Hm|].
  simpl. apply IH. rewrite length_zip_with. lia.
Qed.

Lemma length_neighbor_sum g (h : list (list T)) v c :
  valid_graph g → length h = n_nodes g → Forall (λ r, length r = c) h →
  in_edges g v ≠ [] → length (neighbor_sum g h v) = c.
Proof.
  intros Hv Hlen Hall Hne. unfold neighbor_sum. apply length_sum_messages.
  - destruct (in_edges g v); [done | discriminate].
  - apply Forall_fmap, Forall_forall. intros e (u & Hu)%elem_of_in_edges. simpl.
    unfold edge_src. rewrite Hu. simpl.
    destruct (valid_graph_lookup g e u v Hv Hu) as [Hun _].
    destruct (lookup_lt_is_Some_2 h u) as [r Hr]; [lia|]. rewrite Hr. simpl.
    exact (Forall_lookup_1 _ _ _ _ Hall Hr).
Qed.

Lemma set_h_Returns g (h : list (list T)) :
  length h = n_nodes g →
  set_n_repr "h" h ALL g = Returns (with_node_frame g (<["h" := h]> (node_frame g))).
Proof. intros Hlen. unfold set_n_repr. simpl. by rewrite decide_True. Qed.

Lemma graph_eta g :
  {| n_nodes := n_nodes g; all_edges := all_edges g; node_frame := node_frame g;
     edge_frame := edge_frame g; msg_frame := msg_frame g;
     msg_index := msg_index g |} = g.
Proof. by destruct g. Qed.

Lemma in_edges_no_edges g v : number_of_edges g = 0 → in_edges g v = [].
Proof. intros HE. unfold in_edges. by rewrite HE. Qed.

(** The layer with the message and reduce functions of the exercise's
    equations, on a well-formed graph without waiting messages: it returns,
    the graph is as before but for ['h'], which is gone.  Without any edge
    the result is the transformed features themselves; otherwise the row of
    every node with an in-edge is the sum of the transformed features of its
    in-neighbours, and the row of every other node is made of zeros. *)
Lemma GCN_forward_eq_rows (self : GCN T) g (x : list (list T)) :
  valid_graph g → no_messages g → length x = n_nodes g →
  ∃ out,
    GCN_forward gcn_message_eq gcn_reduce_eq self g x
      = Returns (with_node_frame g (delete "h" (node_frame g)), out) ∧
    length out = n_nodes g ∧
    (number_of_edges g = 0 → out = Linear_forward (linear self) x) ∧
    (number_of_edges g ≠ 0 →
     ∃ u0, in_edges g u0 ≠ [] ∧
       ∀ v, v < n_nodes g →
         out !! v
           = Some (if decide (in_edges g v = [])
                   then (λ _, tzero)
                          <$> neighbor_sum g (Linear_forward (linear self) x) u0
                   else neighbor_sum g (Linear_forward (linear self) x) v)).
Proof.
  intros Hv [Hmf Hmi] Hlen. unfold GCN_forward.
  set (h := Linear_forward (linear self) x).
  assert (length h = n_nodes g) as Hh by (unfold h; by rewrite length_Linear_forward).
  rewrite set_h_Returns by done. simpl.
  set (g1 := with_node_frame g (<["h" := h]> (node_frame g))).
  destruct (decide (number_of_edges g = 0)) as [HE|HE].
  - (* no edge: nothing is sent, nothing is received *)
    exists h. split; [|split; [exact Hh|split; [done|done]]].
    assert (all_edges g = []) as Hnil by (by apply nil_length_inv).
    assert (send (edges g1) gcn_message_eq g1 = Returns g1) as ->.
    { unfold send, edge_ids, edges. simpl. rewrite Hnil. reflexivity. }
    simpl.
    assert (recv (nodes g1) gcn_reduce_eq g1 = Returns g1) as ->.
    { unfold recv. rewrite forallb_has_node_nodes. cbv zeta.
      rewrite decide_True; [reflexivity|].
      induction (filter _ _) as [|u l IH]; [reflexivity|].
      rewrite bind_cons, IH. unfold pending.
      by rewrite (in_edges_no_edges g1 u HE). }
    simpl. unfold pop_n_repr. simpl. rewrite lookup_insert_eq.
    unfold with_node_frame. simpl. by rewrite delete_insert_eq.
  - rewrite (send_all_edges_eq g1 h);
      [| exact Hv | split; [exact Hmf | exact Hmi] | exact HE | apply lookup_insert_eq].
    simpl.
    set (mcol := (λ e, default [] (h !! edge_src g1 e)) <$> seq 0 (number_of_edges g1)).
    set (g2 := with_msgs g1 _ _).
    destruct (recv_all_nodes_eq_rows g2 mcol h) as (h' & u0 & -> & Hlen' & Hu0 & Hrows);
      [done | done | reflexivity | reflexivity | apply lookup_insert_eq | done |].
    assert (∀ v, sum_messages (gather_row mcol (in_edges g2 v)) = neighbor_sum g h v)
      as Hsum.
    { intros v. unfold neighbor_sum. f_equal. unfold gather_row, mcol.
      change (in_edges g2 v) with (in_edges g v).
      apply Forall_fmap_ext_1, Forall_forall. intros e He.
      apply in_edges_lt in He.
      by rewrite list_lookup_fmap, lookup_seq_lt. }
    exists h'. split; [|split; [exact Hlen'|split; [done|]]].
    + simpl. unfold pop_n_repr. simpl. rewrite lookup_insert_eq.
      unfold with_node_frame. simpl.
      rewrite !delete_insert_eq.
      change (number_of_edges g2) with (number_of_edges g).
      by rewrite <- Hmf, <- Hmi.
    + intros _. exists u0. split; [exact Hu0|].
      intros v Hvn. rewrite (Hrows v Hvn), !Hsum. reflexivity.
Qed.

Lemma GCN_forward_eq_returns (self : GCN T) g (x : list (list T)) :
  valid_graph g → no_messages g → length x = n_nodes g →
  ∃ out,
    GCN_forward gcn_message_eq gcn_reduce_eq self g x
      = Returns (with_node_frame g (delete "h" (node_frame g)), out) ∧
    length out = n_nodes g ∧
    ∀ v, in_edges g v ≠ [] →
      out !! v = Some (neighbor_sum g (Linear_forward (linear self) x) v).
Proof.
  intros Hv Hm Hlen.
  destruct (GCN_forward_eq_rows self g x Hv Hm Hlen) as (out & Hout & Hlen' & _ & Hrows).
  exists out. split; [exact Hout|]. split; [exact Hlen'|].
  intros v Hne.
  destruct (decide (number_of_edges g = 0)) as [HE|HE];
    [by rewrite in_edges_no_edges in Hne|].
  destruct (Hrows HE) as (u0 & _ & Hv').
  rewrite Hv' by (by eapply in_edges_node). by rewrite decide_False.
Qed.

(** On a graph that has no ['h'], the layer leaves the graph as it found it. *)
Lemma GCN_forward_eq_returns_same (self : GCN T) g (x : list (list T)) :
  valid_graph g → no_messages g → node_frame g !! "h" = None →
  length x = n_nodes g →
  ∃ out,
    GCN_forward gcn_message_eq gcn_reduce_eq self g x = Returns (g, out) ∧
    length out = n_nodes g.
Proof.
  intros Hv Hm Hnone Hlen.
  destruct (GCN_forward_eq_returns self g x Hv Hm Hlen) as (out & Hout & Hlen' & _).
  exists out. split; [|exact Hlen'].
  rewrite Hout. unfold with_node_frame. by rewrite delete_id, graph_eta.
Qed.

(** Whatever [gcn_message] and [gcn_reduce] are bound to: when the layer
    returns, ['h'] is gone from the node features, and the features that the
    reduce function does not return are as they were. *)
Lemma GCN_forward_frame (mfunc : message_func T) (rfunc : reduce_func T)
    (self : GCN T) g (x : list (list T)) g' out :
  GCN_forward mfunc rfunc self g x = Returns (g', out) →
  node_frame g' !! "h" = None ∧
  n_nodes g' = n_nodes g ∧ all_edges g' = all_edges g ∧
  edge_frame g' = edge_frame g ∧
  ∀ k, k ≠ "h" → (∀ nb d, rfunc nb = Returns (Some d) → d !! k = None) →
       node_frame g' !! k = node_frame g !! k.
Proof.
  unfold GCN_forward. intros H.
  inv_bind H. rename a into ga. inv_bind H. rename a into gb.
  inv_bind H. rename a into gc.
  unfold set_n_repr in Ha. simpl in Ha.
  destruct (decide _); [|discriminate]. injection Ha as <-.
  apply send_frame in Ha0 as (Hn1 & He1 & Hnf1 & Hef1).
  apply recv_frame in Ha1 as (Hn2 & He2 & Hef2 & Hnf2).
  unfold pop_n_repr in H. destruct (node_frame gc !! "h"); [|discriminate].
  injection H as <- <-. simpl in *.
  split; [apply lookup_delete_eq|].
  split; [congruence|]. split; [congruence|]. split; [congruence|].
  intros k Hk Hr. rewrite lookup_delete_ne by done.
  rewrite Hnf2, Hnf1 by done. by apply lookup_insert_ne.
Qed.

(** With the functions as shipped the layer is the linear transformation: no
    message is stored, no feature is written, and ['h'] is popped as it was
    set. *)
Lemma GCN_forward_shipped (self : GCN T) g (x : list (list T)) :
  valid_graph g → no_messages g → length x = n_nodes g →
  GCN_forward gcn_message gcn_reduce self g x
    = Returns (with_node_frame g (delete "h" (node_frame g)),
               Linear_forward (linear self) x).
Proof.
  intros Hv [Hmf Hmi] Hlen. unfold GCN_forward.
  set (h := Linear_forward (linear self) x).
  assert (length h = n_nodes g) as Hh by (unfold h; by rewrite length_Linear_forward).
  rewrite set_h_Returns by done. simpl.
  set (g1 := with_node_frame g (<["h" := h]> (node_frame g))).
  rewrite (send_all_edges_shipped g1); [|exact Hv | split; [exact Hmf | exact Hmi]].
  simpl. set (g2 := with_msgs g1 _ _).
  rewrite (recv_all_nodes_shipped g2); [|exact Hv | reflexivity | reflexivity].
  simpl. unfold pop_n_repr. simpl. rewrite lookup_insert_eq.
  unfold with_node_frame. simpl. rewrite delete_insert_eq.
  change (number_of_edges g2) with (number_of_edges g).
  by rewrite <- Hmf, <- Hmi.
Qed.

Lemma Net_forward_shipped (self : Net T) g (x : list (list T)) :
  valid_graph g → no_messages g → length x = n_nodes g →
  Net_forward gcn_message gcn_reduce self g x
    = Returns (with_node_frame g (delete "h" (node_frame g)),
               Linear_forward (linear (gcn2 self))
                 (torch_relu (Linear_forward (linear (gcn1 self)) x))).
Proof.
  intros Hv Hm Hlen. unfold Net_forward.
  rewrite GCN_forward_shipped by done. simpl.
  rewrite GCN_forward_shipped;
    [| exact Hv | exact Hm | unfold torch_relu; by rewrite length_fmap, length_Linear_forward].
  simpl. unfold with_node_frame. simpl. by rewrite delete_delete_eq.
Qed.

(** The shape of what the layer and the network return. *)
Lemma GCN_forward_eq_width (self : GCN T) g (x : list (list T)) c :
  valid_graph g → no_messages g → length x = n_nodes g →
  length (weight (linear self)) = c → length (bias (linear self)) = c →
  ∃ out,
    GCN_forward gcn_message_eq gcn_reduce_eq self g x
      = Returns (with_node_frame g (delete "h" (node_frame g)), out) ∧
    length out = n_nodes g ∧ Forall (λ r, length r = c) out.
Proof.
  intros Hv Hm Hlen Hw Hb.
  destruct (GCN_forward_eq_rows self g x Hv Hm Hlen) as (out & Hout & Hlen' & Hnone & Hrows).
  exists out. split; [exact Hout|]. split; [exact Hlen'|].
  pose proof (Linear_forward_rows (linear self) x c Hw Hb) as Hh.
  destruct (decide (number_of_edges g = 0)) as [HE|HE]; [by rewrite (Hnone HE)|].
  destruct (Hrows HE) as (u0 & Hu0 & Hv').
  apply Forall_lookup. intros v r Hr.
  assert (v < n_nodes g) as Hvn by (rewrite <- Hlen'; by eapply lookup_lt_Some).
  rewrite (Hv' v Hvn) in Hr. injection Hr as <-.
  assert (length (Linear_forward (linear self) x) = n_nodes g) as Hlh
    by (by rewrite length_Linear_forward).
  destruct (decide (in_edges g v = [])).
  - rewrite length_fmap. by apply length_neighbor_sum.
  - by apply length_neighbor_sum.
Qed.

Lemma Net_forward_eq_width (self : Net T) g (x : list (list T)) c :
  valid_graph g → no_messages g → length x = n_nodes g →
  length (weight (linear (gcn2 self))) = c → length (bias (linear (gcn2 self))) = c →
  ∃ logits,
    Net_forward gcn_message_eq gcn_reduce_eq self g x
      = Returns (with_node_frame g (delete "h" (node_frame g)), logits) ∧
    length logits = n_nodes g ∧ Forall (λ r, length r = c) logits.
Proof.
  intros Hv Hm Hlen Hw Hb. unfold Net_forward.
  destruct (GCN_forward_eq_rows (gcn1 self) g x Hv Hm Hlen) as (h1 & -> & Hlen1 & _).
  simpl.
  destruct (GCN_forward_eq_width (gcn2 self)
              (with_node_frame g (delete "h" (node_frame g))) (torch_relu h1) c)
    as (h2 & -> & Hlen2 & Hwidth); [exact Hv | exact Hm | | exact Hw | exact Hb |].
  { unfold torch_relu. by rewrite length_fmap. }
  exists h2. simpl. unfold with_node_frame. simpl. rewrite delete_delete_eq.
  done.
Qed.

Lemma Net_forward_shipped_width (self : Net T) g (x : list (list T)) c :
  valid_graph g → no_messages g → length x = n_nodes g →
  length (weight (linear (gcn2 self))) = c → length (bias (linear (gcn2 self))) = c →
  ∃ logits,
    Net_forward gcn_message gcn_reduce self g x
      = Returns (with_node_frame g (delete "h" (node_frame g)), logits) ∧
    length logits = n_nodes g ∧ Forall (λ r, length r = c) logits.
Proof.
  intros Hv Hm Hlen Hw Hb. eexists. split; [by apply Net_forward_shipped|].
  split; [|by apply Linear_forward_rows].
  rewrite length_Linear_forward. unfold torch_relu.
  by rewrite length_fmap, length_Linear_forward.
Qed.

Lemma reduce_eq_writes_h (nb : NodeBatch T) d k :
  gcn_reduce_eq nb = Returns (Some d) → k ≠ "h" → d !! k = None.
Proof.
  unfold gcn_reduce_eq. destruct (nb_mailbox nb !! "msg"); [|discriminate].
  intros [= <-] Hk. by apply lookup_singleton_ne.
Qed.

(** The two layers with the exercise's functions: the network returns, the
    graph is as before, and there is a row of logits for every node. *)
Lemma Net_forward_eq_returns (self : Net T) g (x : list (list T)) :
  valid_graph g → no_messages g → node_frame g !! "h" = None →
  length x = n_nodes g →
  ∃ out,
    Net_forward gcn_message_eq gcn_reduce_eq self g x = Returns (g, out) ∧
    length out = n_nodes g.
Proof.
  intros Hv Hm Hnone Hlen. unfold Net_forward.
  destruct (GCN_forward_eq_returns_same (gcn1 self) g x) as (h1 & -> & Hlen1);
    [done..|].
  simpl.
  destruct (GCN_forward_eq_returns_same (gcn2 self) g (torch_relu h1))
    as (h2 & -> & Hlen2); [done | done | done | |].
  { unfold torch_relu. by rewrite length_fmap. }
  exists h2. done.
Qed.

End GCNFacts.

(** * Notebook 1 *)

Section BasicsFacts.
Context {T : Type} `{!Scalar T}.

(** C4 (as amended).  The graph-construction cells build a graph with exactly
    34 nodes and 78 directed edges: [add_nodes(34)] gives 34 nodes; the single
    [add_edge] call gives 1 edge; the four intermediate [add_edges] calls add
    10 more (11 in all); the final [add_edges] over the 67 tuples of
    [edge_list] brings the count to 78. *)
Theorem karate_graph_counts :
  number_of_nodes (cell3 (T:=T)) = 34 ∧
  number_of_edges <$> G_cell4 (T:=T) = Returns 1 ∧
  length (cell5_calls ++ cell6_calls) = 4 ∧
  number_of_edges <$> G_cell5 (T:=T) = Returns 6 ∧
  number_of_edges <$> G_cell6 (T:=T) = Returns 11 ∧
  length edge_list = 67 ∧
  number_of_nodes <$> G_cell8 (T:=T) = Returns 34 ∧
  number_of_edges <$> G_cell8 (T:=T) = Returns 78.
Proof. repeat split; vm_compute; reflexivity. Qed.

(** C7.  Assigning to [g.ndata[key]] a tensor whose first dimension is not the
    number of nodes raises the library's DGLError ("Expect number of features
    to match number of nodes"), and nothing is truncated or padded: the
    assignment returns exactly when the tensor has one row for each node, and
    then the feature is the tensor itself, row for row, with the nodes and
    the other features as they were.  The exception is not caught: it ends
    the cell, whatever else the cell holds.  When the notebook is run from
    the top, the cell that assigns 35 rows to the 34 nodes ends in this
    error and leaves the graph as it was; it is the only cell that fails:
    every other cell returns. *)
Theorem ndata_wrong_first_dimension_raises (rng : nat → nat → nat → T)
    (g : DGLGraph T) (key : string) (val : list (list T)) :
  ((∃ g', set_n_repr key val ALL g = Returns g') ↔ length val = number_of_nodes g) ∧
  (∀ g', set_n_repr key val ALL g = Returns g' →
     node_frame g' !! key = Some val ∧
     number_of_nodes g' = number_of_nodes g ∧
     ∀ key', key' ≠ key → node_frame g' !! key' = node_frame g !! key') ∧
  (length val ≠ number_of_nodes g →
     set_n_repr key val ALL g
       = Raises (DGLError (FeatNodesMismatch (length val) (number_of_nodes g))) ∧
     ∀ rest : DGLGraph T → outcome (DGLGraph T),
       (g' ← set_n_repr key val ALL g; rest g')
         = Raises (DGLError (FeatNodesMismatch (length val) (number_of_nodes g)))) ∧
  notebook_run rng
    = [(3, Returns ()); (4, Returns ()); (5, Returns ()); (6, Returns ());
       (8, Returns ()); (9, Returns ());
       (10, Raises (DGLError (FeatNodesMismatch 35 34)));
       (11, Returns ()); (12, Returns ()); (14, Returns ()); (15, Returns ())] ∧
  (∀ G, G_cell9 rng = Returns G →
     cell10 rng G = Raises (DGLError (FeatNodesMismatch 35 34)) ∧
     after_cell10 rng G = G).
Proof.
  assert (length val ≠ number_of_nodes g →
          set_n_repr key val ALL g
          = Raises (DGLError (FeatNodesMismatch (length val) (number_of_nodes g))))
    as Hraise.
  { intros Hne. unfold set_n_repr.
    destruct (decide (length val = number_of_nodes g)); [done | reflexivity]. }
  split; [|split; [|split; [|split]]].
  - split.
    + intros [g' Hg']. destruct (decide (length val = number_of_nodes g)) as [|Hne];
        [done|]. rewrite Hraise in Hg' by done. discriminate.
    + intros Hlen. unfold set_n_repr. rewrite decide_True by done. eauto.
  - intros g' Hg'. unfold set_n_repr in Hg'.
    destruct (decide (length val = number_of_nodes g)); [|discriminate].
    injection Hg' as <-. simpl.
    split; [apply lookup_insert_eq|]. split; [reflexivity|].
    intros key' Hne. by apply lookup_insert_ne.
  - intros Hne. split; [by apply Hraise|]. intros rest. by rewrite Hraise.
  - vm_compute. reflexivity.
  - intros G HG.
    assert (number_of_nodes G = 34) as Hn.
    { unfold G_cell9 in HG. inv_bind HG. unfold cell9, set_n_repr in HG.
      destruct (decide _) as [Hlen|]; [|discriminate]. injection HG as <-.
      unfold number_of_nodes in *. simpl. rewrite <- Hlen. vm_compute. reflexivity. }
    assert (cell10 rng G = Raises (DGLError (FeatNodesMismatch 35 34))) as Hc.
    { unfold cell10, set_n_repr. rewrite Hn.
      destruct (decide _) as [Hlen|]; [vm_compute in Hlen; discriminate|].
      f_equal. }
    split; [exact Hc|]. unfold after_cell10. by rewrite Hc.
Qed.

(** C8.  Assigning rows to the nodes [I] of a feature that the graph has:
    the rows at [I] become the given ones, every other row of the feature and
    every other feature stays as it was, and so does the rest of the graph. *)
Theorem partial_node_assignment_frame (g : DGLGraph T) (key : string)
    (x : ids) (val feat : list (list T)) :
  let I := toindex x in
  NoDup I → Forall (λ i, i < number_of_nodes g) I → length val = length I →
  node_frame g !! key = Some feat → length feat = number_of_nodes g →
  ∃ g' feat',
    set_n_repr key val (Idx x) g = Returns g' ∧
    node_frame g' !! key = Some feat' ∧
    length feat' = length feat ∧
    (∀ k i, I !! k = Some i → feat' !! i = val !! k) ∧
    (∀ j, j ∉ I → feat' !! j = feat !! j) ∧
    (∀ key', key' ≠ key → node_frame g' !! key' = node_frame g !! key') ∧
    n_nodes g' = n_nodes g ∧ all_edges g' = all_edges g ∧
    edge_frame g' = edge_frame g.
Proof.
  intros I Hnd Hall Hlen Hfeat Hrows.
  eexists _, (scatter_row feat I val). unfold set_n_repr. simpl.
  rewrite decide_True by done.
  assert (forallb (has_node g) (toindex x) = true) as ->.
  { apply Is_true_eq_true, forallb_True. eapply Forall_impl; [exact Hall|].
    intros i Hi. unfold has_node. by apply bool_decide_pack. }
  split; [reflexivity|]. simpl. split; [by apply update_rows_singleton_eq|].
  split; [apply length_scatter_row|].
  split.
  { intros k i Hk. apply scatter_row_lookup_nodup; try done.
    rewrite Hrows. rewrite Forall_forall in Hall. apply Hall.
    by eapply list_elem_of_lookup_2. }
  split; [intros j Hj; by apply scatter_row_lookup_notin|].
  split; [intros key' Hne; by apply update_rows_singleton_ne|].
  done.
Qed.

Lemma broadcast_pairs_many_one (us : list nat) (v : nat) :
  broadcast_pairs us [v] = Returns ((λ u, (u, v)) <$> us).
Proof. by destruct us as [|u [|u' us]]. Qed.

Lemma elem_of_predecessors (g : DGLGraph T) (v u : nat) :
  u ∈ predecessors g v ↔ (u, v) ∈ all_edges g.
Proof.
  unfold predecessors. rewrite elem_of_remove_dups, list_elem_of_fmap. split.
  - intros ([u' v'] & -> & [Hv Hin]%list_elem_of_filter). simpl in Hv. by subst.
  - intros Hin. exists (u, v). split; [done|]. by apply list_elem_of_filter.
Qed.

(** The edges that [g.edges[g.predecessors(v), v]] selects are the edges into
    [v]. *)
Lemma edge_ids_predecessors (g : DGLGraph T) (v : nat) :
  valid_graph g →
  ∃ eid, edge_ids g (predecessors g v) [v] = Returns eid ∧
         ∀ e, e ∈ eid ↔ ∃ u, all_edges g !! e = Some (u, v).
Proof.
  intros Hv. unfold edge_ids. rewrite broadcast_pairs_many_one. simpl.
  assert (forallb (valid_pair g) ((λ u, (u, v)) <$> predecessors g v) = true) as ->.
  { apply Is_true_eq_true, forallb_True, Forall_forall.
    intros p (u & -> & Hu)%list_elem_of_fmap.
    apply elem_of_predecessors, list_elem_of_lookup in Hu as [e He].
    destruct (valid_graph_lookup g e u v Hv He) as [H1 H2].
    unfold valid_pair, has_node. simpl.
    apply andb_prop_intro. split; by apply bool_decide_pack. }
  eexists. split; [reflexivity|]. intros e.
  rewrite list_elem_of_bind. split.
  - intros (p & He & (u & -> & _)%list_elem_of_fmap).
    apply elem_of_edges_between in He. eauto.
  - intros [u Hu]. exists (u, v). split; [by apply elem_of_edges_between|].
    apply list_elem_of_fmap. exists u. split; [done|].
    apply elem_of_predecessors. by eapply list_elem_of_lookup_2.
Qed.

(** C9.  After ['broness'] is set to ones and the edges from the predecessors
    of node 0 to node 0 are multiplied by 0.5, every edge into node 0 has
    broness 0.5 and every other edge has 1.0 (1.0 * 0.5 being 0.5 in the
    tensor library's arithmetic).  This holds on every well-formed graph, the
    notebook's among them. *)
Theorem broness_after_update (G : DGLGraph T) :
  valid_graph G →
  tmul tone (tlit (1 # 2)) = tlit (1 # 2) →
  ∃ G' broness,
    cell14 G = Returns G' ∧
    all_edges G' = all_edges G ∧
    edge_frame G' !! "broness" = Some broness ∧
    length broness = number_of_edges G ∧
    ∀ e u v, all_edges G !! e = Some (u, v) →
      broness !! e = Some [if decide (v = 0) then tlit (1 # 2) else tone].
Proof.
  intros Hv Hhalf. unfold cell14, set_e_repr_all.
  set (ones := torch_ones [number_of_edges G]).
  assert (length ones = number_of_edges G) as Hones by apply length_replicate.
  rewrite decide_True by done. simpl.
  set (G1 := with_edge_frame G (<["broness" := ones]> (edge_frame G))).
  destruct (edge_ids_predecessors G1 0 Hv) as (eid & Heid & Hin).
  assert (tensor_mul (gather_row ones eid) (1 # 2) = (λ _, [tlit (1 # 2)]) <$> eid)
    as Hval.
  { unfold tensor_mul, gather_row. rewrite <- list_fmap_compose.
    apply Forall_fmap_ext_1, Forall_forall. intros e [u Hu]%Hin. simpl.
    unfold ones, torch_ones. simpl.
    rewrite lookup_replicate_2 by (by apply lookup_lt_Some in Hu). simpl.
    by rewrite Hhalf. }
  unfold get_e_repr, set_e_repr. simpl.
  eexists _, _. split.
  { rewrite Heid. simpl. rewrite lookup_insert_eq. simpl.
    rewrite Hval, decide_True by (by rewrite length_fmap). reflexivity. }
  simpl. split; [reflexivity|].
  split; [apply update_rows_singleton_eq, lookup_insert_eq|].
  split; [by rewrite length_scatter_row|].
  intros e u v He. destruct (decide (v = 0)) as [->|Hne].
  - apply (scatter_row_lookup_fn (λ _, [tlit (1 # 2)])).
    + rewrite Hones. by apply lookup_lt_Some in He.
    + left. apply Hin. eauto.
  - rewrite scatter_row_lookup_notin.
    + unfold ones, torch_ones. simpl.
      apply lookup_replicate_2. by apply lookup_lt_Some in He.
    + intros [u' Hu']%Hin. change (all_edges G1) with (all_edges G) in Hu'. congruence.
Qed.

End BasicsFacts.

(** C4, as first stated: three intermediate [add_edges] calls adding 5 edges.
    The cells make four such calls, and they add 10 edges. *)
Lemma karate_intermediate_calls_not_three :
  ¬ (length (cell5_calls ++ cell6_calls) = 3 ∧
     number_of_edges <$> G_cell6 (T:=Q) = Returns (1 + 5)).
Proof. intros [H _]. vm_compute in H. discriminate. Qed.

Lemma partial_node_assignment_frame_witness :
  ∃ g' feat',
    set_n_repr "feat" (torch_ones [2; 5]) (Idx (Ids [2; 3])) G_demo = Returns g' ∧
    node_frame g' !! "feat" = Some feat' ∧
    feat' !! 2 = Some [1; 1; 1; 1; 1]%Q ∧
    feat' !! 1 = default [] (node_frame G_demo !! "feat") !! 1.
Proof.
  assert (NoDup [2; 3]) as H1 by (by apply (bool_decide_unpack _)).
  assert (1 ∉ toindex (Ids [2; 3])) as H6 by (by apply (bool_decide_unpack _)).
  assert (Forall (λ i, i < number_of_nodes G_demo) [2; 3]) as H2
    by (vm_compute; repeat constructor; lia).
  assert (node_frame G_demo !! "feat" = Some (default [] (node_frame G_demo !! "feat")))
    as H4 by (vm_compute; reflexivity).
  assert (length (default [] (node_frame G_demo !! "feat")) = number_of_nodes G_demo)
    as H5 by (vm_compute; reflexivity).
  destruct (partial_node_assignment_frame G_demo "feat" (Ids [2; 3])
              (torch_ones [2; 5]) _ H1 H2 eq_refl H4 H5)
    as (g' & feat' & Hset & Hfeat & _ & Hin & Hout & _).
  exists g', feat'. split; [exact Hset|]. split; [exact Hfeat|].
  split; [exact (Hin 0 2 eq_refl)|].
  exact (Hout 1 H6).
Defined.

Lemma broness_after_update_witness :
  G_cell12 rng_demo = Returns G_demo ∧
  ∃ G' broness,
    cell14 G_demo = Returns G' ∧
    edge_frame G' !! "broness" = Some broness ∧
    length broness = 78 ∧
    broness !! 0 = Some [1 # 2] ∧ broness !! 2 = Some [1%Q].
Proof.
  assert (valid_graph G_demo) as Hv by (vm_compute; reflexivity).
  assert (tmul tone (tlit (1 # 2)) = tlit (1 # 2) :> Q) as Hhalf by reflexivity.
  assert (number_of_edges G_demo = 78) as HE by (vm_compute; reflexivity).
  assert (all_edges G_demo !! 0 = Some (1, 0)) as H0 by (vm_compute; reflexivity).
  assert (all_edges G_demo !! 2 = Some (2, 1)) as H2 by (vm_compute; reflexivity).
  split; [vm_compute; reflexivity|].
  destruct (broness_after_update G_demo Hv Hhalf)
    as (G' & broness & HG' & _ & Hb & Hlen & Hall).
  exists G', broness.
  exact (conj HG' (conj Hb (conj (eq_trans Hlen HE) (conj (Hall 0 1 0 H0) (Hall 2 2 1 H2))))).
Defined.

Section GCNClaims.
Context {T : Type} `{!Scalar T}.
Implicit Types (g : DGLGraph T).


(** C2 (as amended).  The notebooks do not implement the normalization
    factor: it is posed as an exercise, and the cell under the prompt holds
    no code.  The message function that is shipped returns [None] on every
    batch of edges, so a send along all edges stores no message at all, and
    the layer returns linear(x) whatever the degrees of the nodes are; and
    the message that the first exercise's equation puts on an edge (i, j) is
    the source feature h_i itself, divided by nothing. *)
Theorem messages_are_source_features (self : GCN T) (g : DGLGraph T)
    (x h : list (list T)) :
  valid_graph g → no_messages g → number_of_edges g ≠ 0 →
  node_frame g !! "h" = Some h →
  (∀ s : DGLGraph T, normalizer_cell s = Returns s) ∧
  (∀ eb : EdgeBatch T, gcn_message eb = Returns None) ∧
  send (edges g) gcn_message g
    = Returns (with_msgs g ∅ (replicate (number_of_edges g) true)) ∧
  (length x = n_nodes g →
   GCN_forward gcn_message gcn_reduce self g x
     = Returns (with_node_frame g (delete "h" (node_frame g)),
                Linear_forward (linear self) x)) ∧
  ∃ g' mcol,
    send (edges g) gcn_message_eq g = Returns g' ∧
    msg_frame g' !! "msg" = Some mcol ∧
    ∀ e, e < number_of_edges g →
      mcol !! e = Some (default [] (h !! edge_src g e)).
Proof.
  intros Hv Hm HE Hh. split; [reflexivity|]. split; [reflexivity|].
  split; [by apply send_all_edges_shipped|].
  split; [intros Hlen; by apply GCN_forward_shipped|].
  eexists _, _. split; [by apply send_all_edges_eq|].
  split; [apply lookup_singleton_eq|].
  intros e He. by rewrite list_lookup_fmap, lookup_seq_lt.
Qed.

(** C5.  [Net.forward(g, x)] is [gcn2(g, relu(gcn1(g, x)))]: the first layer
    runs on [g] and [x], the second on the same graph object and on the relu
    of the first layer's result; each layer sets ['h'], calls [g.send] over
    all edges with the message function and [g.recv] over all nodes with the
    reduce function, then pops ['h']; and the graph that the second layer
    gets has the nodes and edges that the first one got. *)
Theorem Net_forward_two_layers (mfunc : message_func T) (rfunc : reduce_func T)
    (self : Net T) g (x : list (list T)) :
  Net_forward mfunc rfunc self g x
    = (r ← GCN_forward mfunc rfunc (gcn1 self) g x;
       GCN_forward mfunc rfunc (gcn2 self) r.1 (torch_relu r.2)) ∧
  (∀ (layer : GCN T) g0 (x0 : list (list T)),
     GCN_forward mfunc rfunc layer g0 x0
       = (ga ← set_n_repr "h" (Linear_forward (linear layer) x0) ALL g0;
          gb ← send (edges ga) mfunc ga;
          gc ← recv (nodes gb) rfunc gb;
          pop_n_repr "h" gc)) ∧
  (∀ g1 h1, GCN_forward mfunc rfunc (gcn1 self) g x = Returns (g1, h1) →
     edges g1 = edges g ∧ nodes g1 = nodes g).
Proof.
  split; [|split].
  - unfold Net_forward.
    destruct (GCN_forward mfunc rfunc (gcn1 self) g x) as [[g1 h1]| |]; simpl;
      [|reflexivity..].
    by destruct (GCN_forward mfunc rfunc (gcn2 self) g1 (torch_relu h1)) as [[g2 h2]| |].
  - reflexivity.
  - intros g1 h1 H. apply GCN_forward_frame in H as (_ & Hn & He & _).
    unfold edges, nodes. by rewrite Hn, He.
Qed.

(** C10 (as amended).  Whenever [GCN.forward(g, x)] returns, [g.ndata] has no
    key ['h'].  When moreover the reduce function returns no field other than
    ['h'] and [g.ndata] had no ['h'] before the call, the node-feature
    dictionary is exactly as it was before the call, and it still is after
    any further forward call on the graph. *)
Theorem GCN_forward_leaves_no_h (mfunc : message_func T) (rfunc : reduce_func T)
    (self : GCN T) g (x : list (list T)) g' out :
  GCN_forward mfunc rfunc self g x = Returns (g', out) →
  ("h" ∉ dom (node_frame g')) ∧
  ((∀ nb d, rfunc nb = Returns (Some d) → dom d ⊆ {["h"]}) →
   "h" ∉ dom (node_frame g) →
   node_frame g' = node_frame g ∧
   ∀ (self2 : GCN T) (x2 : list (list T)) g'' out2,
     GCN_forward mfunc rfunc self2 g' x2 = Returns (g'', out2) →
     node_frame g'' = node_frame g).
Proof.
  intros H.
  assert (∀ (l : GCN T) ga (xa : list (list T)) gb o,
            (∀ nb d, rfunc nb = Returns (Some d) → dom d ⊆ {["h"]}) →
            GCN_forward mfunc rfunc l ga xa = Returns (gb, o) →
            node_frame ga !! "h" = None → node_frame gb = node_frame ga) as Hsame.
  { intros l ga xa gb o Hr Hf Hnone.
    apply GCN_forward_frame in Hf as (Hh & _ & _ & _ & Hk).
    apply map_eq. intros k. destruct (decide (k = "h")) as [->|Hne].
    - by rewrite Hh, Hnone.
    - apply Hk; [done|]. intros nb d Hd. apply not_elem_of_dom.
      intros Hin. apply (Hr nb d Hd), elem_of_singleton in Hin. done. }
  pose proof (GCN_forward_frame _ _ _ _ _ _ _ H) as (Hh & _).
  split; [by apply not_elem_of_dom|].
  intros Hr Hnone. apply not_elem_of_dom in Hnone.
  assert (node_frame g' = node_frame g) as Heq by (by eapply Hsame).
  split; [exact Heq|].
  intros self2 x2 g'' out2 H2. rewrite <- Heq. by eapply Hsame.
Qed.

End GCNClaims.



(** The one scalar that is not negative and whose square is 4. *)
Lemma Q_sqrt_4 (c : Q) : Qltb c 0 = false → (c * c == 4)%Q → (c == 2)%Q.
Proof.
  unfold Qltb. intros Hpos%negb_false_iff%Qle_bool_iff Hsq.
  assert ((c - 2) * (c + 2) == 0)%Q as H by (ring_simplify; rewrite Hsq; ring).
  apply Qmult_integral in H as [H|H]; lra.
Qed.

(** C2, as first stated: the message along an edge is the source feature
    divided by sqrt(d_i d_j).  On the two-node graph with all four edges
    every in-degree is 2; with ['h'] = [[5], [7]] the message along edge 1,
    from node 0 to node 1, would be [5/2], and the row of node 1 would be
    5/2 + 7/2 = [6].  The notebook's [gcn_message] sends no message, and
    the layer returns for node 1 the row [7], h_1 itself, which is no sum of
    normalized messages. *)
Lemma messages_not_normalized :
  edge_src g_pair_h 1 = 0 ∧ edge_dst g_pair_h 1 = 1 ∧
  in_degree g_pair_h 0 = 2 ∧ in_degree g_pair_h 1 = 2 ∧
  message_normalized Qeq Qltb g_pair_h [[5]; [7]]%Q 1 [5 # 2]%Q ∧
  sum_normalized Qeq Qltb g_pair_h [[5]; [7]]%Q 1 [6]%Q ∧
  (∃ g', send (edges g_pair_h) gcn_message g_pair_h = Returns g' ∧
         ¬ ∃ field mcol m,
             msg_frame g' !! field = Some mcol ∧ mcol !! 1 = Some m ∧
             message_normalized Qeq Qltb g_pair_h [[5]; [7]]%Q 1 m) ∧
  GCN_forward gcn_message gcn_reduce layer_demo g_pair [[5]; [7]]%Q
    = Returns (g_pair, [[5]; [7]]%Q) ∧
  ¬ sum_normalized Qeq Qltb g_pair_h [[5]; [7]]%Q 1 [7]%Q.
Proof.
  assert (in_edges g_pair_h 1 = [1; 3]) as Hin by reflexivity.
  assert (∀ q, message_normalized Qeq Qltb g_pair_h [[5]; [7]]%Q 1 [q] ↔ (q * 2 == 5)%Q)
    as Hm1.
  { intros q. split.
    - intros (c & [Hpos Hsq] & Hdiv). apply Q_sqrt_4 in Hsq; [|exact Hpos].
      apply Forall2_cons_1 in Hdiv as [Hdiv _]. simpl in Hdiv.
      by rewrite Hsq in Hdiv.
    - intros Hq. exists 2%Q. split; [split; reflexivity|].
      constructor; [exact Hq | constructor]. }
  assert (∀ q, message_normalized Qeq Qltb g_pair_h [[5]; [7]]%Q 3 [q] ↔ (q * 2 == 7)%Q)
    as Hm3.
  { intros q. split.
    - intros (c & [Hpos Hsq] & Hdiv). apply Q_sqrt_4 in Hsq; [|exact Hpos].
      apply Forall2_cons_1 in Hdiv as [Hdiv _]. simpl in Hdiv.
      by rewrite Hsq in Hdiv.
    - intros Hq. exists 2%Q. split; [split; reflexivity|].
      constructor; [exact Hq | constructor]. }
  assert (∀ e m, message_normalized Qeq Qltb g_pair_h [[5]; [7]]%Q e m →
                 e = 1 ∨ e = 3 → ∃ q, m = [q]) as Hone.
  { intros e m (c & _ & Hdiv) He.
    assert (length m = 1) as Hlen.
    { apply Forall2_length in Hdiv. rewrite length_fmap in Hdiv.
      destruct He as [-> | ->]; exact Hdiv. }
    destruct m as [|q [|q' m]]; [discriminate | eauto | discriminate]. }
  do 4 (split; [reflexivity|]).
  split; [apply Hm1; reflexivity|].
  split.
  { exists [[5 # 2]; [7 # 2]]%Q. rewrite Hin. split.
    - constructor; [apply Hm1; reflexivity|].
      constructor; [apply Hm3; reflexivity | constructor].
    - constructor; [reflexivity | constructor]. }
  split.
  { eexists. split; [apply send_all_edges_shipped; [reflexivity | split; reflexivity]|].
    intros (field & mcol & m & Hf & _). simpl in Hf.
    by rewrite lookup_empty in Hf. }
  split; [vm_compute; reflexivity|].
  intros (msgs & HF & Hr). rewrite Hin in HF.
  apply Forall2_cons_inv_l in HF as (m1 & msgs' & H1 & HF & ->).
  apply Forall2_cons_inv_l in HF as (m3 & msgs'' & H3 & HF & ->).
  apply Forall2_nil_inv_l in HF as ->.
  destruct (Hone 1 m1 H1) as [q1 ->]; [by left|].
  destruct (Hone 3 m3 H3) as [q3 ->]; [by right|].
  apply Hm1 in H1. apply Hm3 in H3.
  apply Forall2_cons_1 in Hr as [Hr _]. simpl in Hr. lra.
Qed.

Lemma messages_are_source_features_witness :
  send (edges g_pair_h) gcn_message g_pair_h
    = Returns (with_msgs g_pair_h ∅ (replicate (number_of_edges g_pair_h) true)) ∧
  GCN_forward gcn_message gcn_reduce layer_demo g_pair_h x_demo
    = Returns (with_node_frame g_pair_h (delete "h" (node_frame g_pair_h)),
               Linear_forward (linear layer_demo) x_demo) ∧
  ∃ g' mcol,
    send (edges g_pair_h) gcn_message_eq g_pair_h = Returns g' ∧
    msg_frame g' !! "msg" = Some mcol ∧
    mcol !! 1 = Some (default [] ([[5]; [7]]%Q !! edge_src g_pair_h 1)).
Proof.
  assert (valid_graph g_pair_h) as H1 by reflexivity.
  assert (no_messages g_pair_h) as H2 by (split; reflexivity).
  assert (number_of_edges g_pair_h ≠ 0) as H3 by (vm_compute; discriminate).
  assert (node_frame g_pair_h !! "h" = Some [[5]; [7]]%Q) as H4 by reflexivity.
  assert (1 < number_of_edges g_pair_h) as H5 by (vm_compute; lia).
  assert (length x_demo = n_nodes g_pair_h) as H6 by reflexivity.
  destruct (messages_are_source_features layer_demo g_pair_h x_demo _ H1 H2 H3 H4)
    as (_ & _ & Hsend & Hfwd & g' & mcol & Hs & Hm & Hrows).
  split; [exact Hsend|]. split; [exact (Hfwd H6)|].
  exists g', mcol. exact (conj Hs (conj Hm (Hrows 1 H5))).
Defined.

Lemma Net_forward_two_layers_witness :
  ∃ g1 h1,
    GCN_forward gcn_message_eq gcn_reduce_eq layer_demo g_pair x_demo = Returns (g1, h1) ∧
    edges g1 = edges g_pair ∧ nodes g1 = nodes g_pair.
Proof.
  destruct (GCN_forward_eq_returns_same layer_demo g_pair x_demo)
    as (out & Hout & _); [reflexivity | split; reflexivity | reflexivity | reflexivity |].
  exists g_pair, out. split; [exact Hout|].
  exact (proj2 (proj2 (Net_forward_two_layers gcn_message_eq gcn_reduce_eq
                         (mkNet layer_demo layer_demo) g_pair x_demo)) g_pair out Hout).
Defined.

(** C10, as first stated: after any forward call the node-feature dictionary
    is exactly as before.  A graph that already has a feature ['h'] loses it:
    on the two-node graph with the cell as shipped, and with the functions
    of the exercise's equations; and on a graph without edges, where nothing
    is sent. *)
Lemma GCN_forward_drops_existing_h :
  (∃ g' out,
     GCN_forward gcn_message gcn_reduce layer_demo g_pair_h x_demo
       = Returns (g', out) ∧
     node_frame g_pair_h !! "h" = Some [[5]; [7]]%Q ∧
     node_frame g' ≠ node_frame g_pair_h) ∧
  (∃ g' out,
     GCN_forward gcn_message_eq gcn_reduce_eq layer_demo g_pair_h x_demo
       = Returns (g', out) ∧
     node_frame g_pair_h !! "h" = Some [[5]; [7]]%Q ∧
     node_frame g' ≠ node_frame g_pair_h) ∧
  (∃ g' out,
     GCN_forward gcn_message gcn_reduce layer_demo g_apart_h x_demo
       = Returns (g', out) ∧
     node_frame g_apart_h !! "h" = Some [[5]; [7]]%Q ∧
     node_frame g' ≠ node_frame g_apart_h).
Proof.
  split; [|split].
  - eexists _, _. split; [vm_compute; reflexivity|]. split; [reflexivity|].
    intros Heq. apply (f_equal (λ m : gmap string (list (list Q)), m !! "h")) in Heq.
    vm_compute in Heq. discriminate.
  - eexists _, _. split; [vm_compute; reflexivity|]. split; [reflexivity|].
    intros Heq. apply (f_equal (λ m : gmap string (list (list Q)), m !! "h")) in Heq.
    vm_compute in Heq. discriminate.
  - eexists _, _. split; [vm_compute; reflexivity|]. split; [reflexivity|].
    intros Heq. apply (f_equal (λ m : gmap string (list (list Q)), m !! "h")) in Heq.
    vm_compute in Heq. discriminate.
Qed.

Lemma GCN_forward_leaves_no_h_witness :
  ∃ g' out,
    GCN_forward gcn_message gcn_reduce layer_demo g_pair x_demo = Returns (g', out) ∧
    ("h" ∉ dom (node_frame g')) ∧ node_frame g' = node_frame g_pair.
Proof.
  assert (GCN_forward gcn_message gcn_reduce layer_demo g_pair x_demo
          = Returns (g_pair, [[1]; [1]]%Q)) as Hout by (vm_compute; reflexivity).
  assert (∀ (nb : NodeBatch Q) d, gcn_reduce nb = Returns (Some d) → dom d ⊆ {["h"]})
    as Hr by (intros nb d Hd; discriminate).
  assert ("h" ∉ dom (node_frame g_pair)) as Hn by (vm_compute; set_solver).
  destruct (GCN_forward_leaves_no_h _ _ _ _ _ _ _ Hout) as (H1 & H2).
  exists g_pair, [[1]; [1]]%Q. exact (conj Hout (conj H1 (proj1 (H2 Hr Hn)))).
Defined.

(** ** The training cell *)

Section TrainingFacts.
Context {T : Type} `{!Scalar T}.
Variable mfunc : message_func T.
Variable rfunc : reduce_func T.
Variable log_softmax_row : list T → list T.
Variable nll_loss : list (list T) → list nat → T.
Variables Grads OptState : Type.
Variable backward : (Net T → outcome T) → Net T → Grads.
Variable optim_init : OptimAlgo → Net T → OptState.
Variable optim_step : Optimizer OptState → Net T → Grads → Optimizer OptState * Net T.
Variable GG : DGLGraph T.
Variable net0 : Net T.

Local Abbreviation net_call := (Net_forward mfunc rfunc).
Local Abbreviation loss_of := (compute_loss log_softmax_row nll_loss).
Local Abbreviation body :=
  (epoch_body mfunc rfunc log_softmax_row nll_loss Grads backward OptState optim_step).
Local Abbreviation state0 := (initial_state OptState optim_init GG net0).

Lemma for_range_S (f : nat → TrainState T OptState → outcome (TrainState T OptState))
    n s :
  for_range (S n) f s = (s' ← for_range n f s; f n s').
Proof. unfold for_range. by rewrite seq_S, foldl_app. Qed.

(** A loop whose body returns whenever the invariant holds runs to its end. *)
Lemma for_range_returns
    (f : nat → TrainState T OptState → outcome (TrainState T OptState))
    (I : nat → TrainState T OptState → Prop) n s :
  I 0 s →
  (∀ i s, i < n → I i s → ∃ s', f i s = Returns s' ∧ I (S i) s') →
  ∃ s', for_range n f s = Returns s' ∧ I n s'.
Proof.
  intros H0 Hstep. induction n as [|n IH]; [by exists s|].
  destruct IH as (s1 & Hs1 & HI1); [intros i si Hi; apply Hstep; lia|].
  destruct (Hstep n s1) as (s2 & Hs2 & HI2); [lia | done |].
  exists s2. by rewrite for_range_S, Hs1.
Qed.

(** The loss is [nll_loss] on the log-softmax of rows 0 and 33 of the logits. *)
Lemma compute_loss_Returns (logits : list (list T)) loss :
  loss_of logits = Returns loss ↔
  ∃ r0 r33, logits !! 0 = Some r0 ∧ logits !! 33 = Some r33 ∧
            loss = nll_loss [log_softmax_row r0; log_softmax_row r33] [0; 1].
Proof.
  unfold compute_loss, index_rows, labeled_nodes, labels. simpl.
  rewrite !list_lookup_fmap. split.
  - destruct (logits !! 0) as [r0|]; [|discriminate].
    destruct (logits !! 33) as [r33|]; [|discriminate].
    simpl. intros [= <-]. eauto.
  - intros (r0 & r33 & -> & -> & ->). reflexivity.
Qed.

Lemma epoch_body_Returns epoch (s s' : TrainState T OptState) :
  body epoch s = Returns s' ↔
  ∃ g logits loss,
    net_call (ts_net s) (ts_graph s) inputs = Returns (g, logits) ∧
    loss_of logits = Returns loss ∧
    s' = let on := optim_step (ts_optimizer s) (ts_net s)
                     (backward (λ net, '(_, logits) ← net_call net (ts_graph s) inputs;
                                       loss_of logits) (ts_net s)) in
         {| ts_graph := g; ts_net := on.2; ts_optimizer := on.1;
            all_logits := all_logits s ++ [logits];
            printed := printed s ++ [(epoch, loss)] |}.
Proof.
  unfold epoch_body. split.
  - intros H. inv_bind H. destruct a as [g logits]. inv_bind H.
    exists g, logits, a. split; [done|]. split; [done|].
    destruct (optim_step _ _ _) as [o n]. by injection H as <-.
  - intros (g & logits & loss & -> & Hloss & ->). simpl. rewrite Hloss. simpl.
    by destruct (optim_step _ _ _).
Qed.

(** C3 (as amended).  The training loop optimizes the network parameters
    with the Adam optimizer (learning rate 0.01), stepping on the gradients of
    the loss; and the loss of every epoch is computed only from the two
    labeled nodes 0 and 33: it is [nll_loss] of the log-softmax of rows 0 and
    33 of the logits with labels [0, 1], so logits that agree on those two
    rows give the same loss. *)
Theorem epoch_loss_from_labeled_nodes epoch (s s' : TrainState T OptState) :
  body epoch s = Returns s' →
  algo (ts_optimizer state0) = Adam ∧
  lr (ts_optimizer state0) = (1 # 100)%Q ∧
  ∃ g logits r0 r33,
    net_call (ts_net s) (ts_graph s) inputs = Returns (g, logits) ∧
    logits !! 0 = Some r0 ∧ logits !! 33 = Some r33 ∧
    printed s'
      = printed s
        ++ [(epoch, nll_loss [log_softmax_row r0; log_softmax_row r33] [0; 1])] ∧
    (ts_optimizer s', ts_net s')
      = optim_step (ts_optimizer s) (ts_net s)
          (backward (λ net, '(_, logits) ← net_call net (ts_graph s) inputs;
                            loss_of logits) (ts_net s)) ∧
    ∀ logits' : list (list T),
      logits' !! 0 = logits !! 0 → logits' !! 33 = logits !! 33 →
      loss_of logits' = loss_of logits.
Proof.
  intros H. split; [reflexivity|]. split; [reflexivity|].
  apply epoch_body_Returns in H as (g & logits & loss & Hcall & Hloss & ->).
  pose proof Hloss as Hloss'.
  apply compute_loss_Returns in Hloss as (r0 & r33 & H0 & H33 & ->).
  exists g, logits, r0, r33. simpl.
  split; [exact Hcall|]. split; [exact H0|]. split; [exact H33|].
  split; [reflexivity|]. split; [by destruct (optim_step _ _ _)|].
  intros logits' H0' H33'. rewrite Hloss'. apply compute_loss_Returns.
  exists r0, r33. by rewrite H0', H33'.
Qed.

(** The loop reaches its end provided each call of the network returns
    logits for the 34 nodes, which it does as long as the graph and the
    network stay in states [Inv] and [NetInv] in which the network returns. *)
Lemma training_loop_returns (Inv : DGLGraph T → Prop) (NetInv : Net T → Prop)
    (P : list (list T) → Prop) :
  Inv GG → NetInv net0 →
  (∀ o net grads, NetInv net → NetInv (optim_step o net grads).2) →
  (∀ net g, Inv g → NetInv net →
     ∃ g' logits, net_call net g inputs = Returns (g', logits) ∧
                  Inv g' ∧ 33 < length logits ∧ P logits) →
  ∃ s,
    train mfunc rfunc log_softmax_row nll_loss Grads backward OptState
      optim_init optim_step GG net0 = Returns s ∧
    length (all_logits s) = 30 ∧
    (printed s).*1 = seq 0 30 ∧
    Forall P (all_logits s).
Proof.
  intros HGG Hnet0 Hstep Hcall.
  unfold train.
  destruct (for_range_returns body
              (λ i s, Inv (ts_graph s) ∧ NetInv (ts_net s) ∧
                      length (all_logits s) = i ∧
                      (printed s).*1 = seq 0 i ∧ Forall P (all_logits s)) 30 state0)
    as (s & Hs & _ & _ & Hlen & Hpr & Hall).
  - repeat split; [exact HGG | exact Hnet0 | constructor].
  - intros i s _ (HI & HN & Hlen & Hpr & Hall).
    destruct (Hcall (ts_net s) (ts_graph s) HI HN) as (g' & logits & Hf & HI' & H33 & HP).
    destruct (lookup_lt_is_Some_2 logits 0) as [r0 Hr0]; [lia|].
    destruct (lookup_lt_is_Some_2 logits 33) as [r33 Hr33]; [lia|].
    eexists. split.
    + apply epoch_body_Returns.
      exists g', logits, (nll_loss [log_softmax_row r0; log_softmax_row r33] [0; 1]).
      split; [exact Hf|]. split; [|reflexivity].
      apply compute_loss_Returns. eauto.
    + cbn [ts_graph ts_net all_logits printed]. split; [exact HI'|].
      split; [by apply Hstep|].
      split; [rewrite length_app; simpl; lia|].
      split; [rewrite fmap_app, Hpr, seq_S; reflexivity|].
      apply Forall_app. split; [exact Hall | by constructor].
  - by exists s.
Qed.
End TrainingFacts.

Section TrainingRuns.
Context {T : Type} `{!Scalar T}.
Variable log_softmax_row : list T → list T.
Variable nll_loss : list (list T) → list nat → T.
Variables Grads OptState : Type.
Variable backward : (Net T → outcome T) → Net T → Grads.
Variable optim_init : OptimAlgo → Net T → OptState.
Variable optim_step : Optimizer OptState → Net T → Grads → Optimizer OptState * Net T.
Variable GG : DGLGraph T.
Variable net0 : Net T.

(** C6.  Each epoch appends exactly one logits tensor to [all_logits]; the
    training loop runs exactly 30 epochs, 0 to 29, and returns, and
    [all_logits] has length 30 when the loop ends.  This holds for the
    notebook as shipped, where [gcn_message] and [gcn_reduce] return [None],
    and also once the two functions are filled in as the exercise's equations
    say: on a well-formed graph [GG] of 34 nodes without waiting messages,
    for a network [Net(34, 5, 2)] whose parameters keep their shapes under
    the optimizer's step.  Every recorded tensor has one row of two logits
    for each of the 34 nodes. *)
Theorem training_runs_30_epochs :
  valid_graph GG → no_messages GG → number_of_nodes GG = 34 →
  Net_shape net0 34 5 2 →
  (∀ o net grads, Net_shape net 34 5 2 → Net_shape (optim_step o net grads).2 34 5 2) →
  (∀ mfunc rfunc epoch s s',
     epoch_body mfunc rfunc log_softmax_row nll_loss Grads backward OptState
       optim_step epoch s = Returns s' →
     ∃ logits, all_logits s' = all_logits s ++ [logits]) ∧
  (∃ s,
     train gcn_message gcn_reduce log_softmax_row nll_loss Grads backward OptState
       optim_init optim_step GG net0 = Returns s ∧
     length (all_logits s) = 30 ∧
     (printed s).*1 = seq 0 30 ∧
     Forall (λ logits, length logits = 34 ∧ tensor_width logits 2) (all_logits s)) ∧
  (∃ s,
     train gcn_message_eq gcn_reduce_eq log_softmax_row nll_loss Grads backward
       OptState optim_init optim_step GG net0 = Returns s ∧
     length (all_logits s) = 30 ∧
     (printed s).*1 = seq 0 30 ∧
     Forall (λ logits, length logits = 34 ∧ tensor_width logits 2) (all_logits s)).
Proof.
  intros Hv Hm Hn Hshape Hstep.
  assert (length (inputs (T:=T)) = 34) as Hin by (vm_compute; reflexivity).
  split; [|split].
  - intros mfunc rfunc epoch s s' (g & logits & loss & _ & _ & ->)%epoch_body_Returns.
    by exists logits.
  - apply (training_loop_returns gcn_message gcn_reduce log_softmax_row nll_loss
             Grads OptState backward optim_init optim_step GG net0
             (λ g, valid_graph g ∧ no_messages g ∧ n_nodes g = 34)
             (λ net, Net_shape net 34 5 2));
      [done | exact Hshape | exact Hstep |].
    intros net g (Hvg & Hmg & Hng) (_ & Hw & _ & Hb).
    destruct (Net_forward_shipped_width net g inputs 2)
      as (logits & Hcall & Hlen & Hwidth); [done | done | congruence | done | done |].
    exists (with_node_frame g (delete "h" (node_frame g))), logits.
    split; [exact Hcall|]. split; [done|]. rewrite Hlen, Hng. split; [lia | done].
  - apply (training_loop_returns gcn_message_eq gcn_reduce_eq log_softmax_row nll_loss
             Grads OptState backward optim_init optim_step GG net0
             (λ g, valid_graph g ∧ no_messages g ∧ n_nodes g = 34)
             (λ net, Net_shape net 34 5 2));
      [done | exact Hshape | exact Hstep |].
    intros net g (Hvg & Hmg & Hng) (_ & Hw & _ & Hb).
    destruct (Net_forward_eq_width net g inputs 2)
      as (logits & Hcall & Hlen & Hwidth); [done | done | congruence | done | done |].
    exists (with_node_frame g (delete "h" (node_frame g))), logits.
    split; [exact Hcall|]. split; [done|]. rewrite Hlen, Hng. split; [lia | done].
Qed.

End TrainingRuns.


(** C3, as first stated: the optimizer is stochastic gradient descent.  The
    cell constructs [torch.optim.Adam]. *)
Lemma optimizer_is_not_sgd :
  algo (ts_optimizer initial_state_demo) ≠ SGD.
Proof. discriminate. Qed.

Lemma GG_demo_ready :
  valid_graph GG_demo ∧ no_messages GG_demo ∧ node_frame GG_demo !! "h" = None ∧
  length (inputs (T:=Q)) = n_nodes GG_demo ∧ n_nodes GG_demo = 34.
Proof. repeat split; vm_compute; reflexivity. Qed.

Lemma net_demo_returns (net : Net Q) :
  ∃ out, Net_forward gcn_message_eq gcn_reduce_eq net GG_demo inputs
           = Returns (GG_demo, out) ∧ length out = 34.
Proof.
  destruct GG_demo_ready as (H1 & H2 & H3 & H4 & H5).
  destruct (Net_forward_eq_returns net GG_demo inputs H1 H2 H3 H4)
    as (out & Hout & Hlen).
  exists out. split; [exact Hout|]. by rewrite Hlen.
Qed.

Lemma epoch_demo_returns : ∃ s', epoch_body_demo 0 initial_state_demo = Returns s'.
Proof.
  destruct (net_demo_returns net_demo) as (out & Hout & Hlen).
  destruct (lookup_lt_is_Some_2 out 0) as [r0 Hr0]; [rewrite Hlen; lia|].
  destruct (lookup_lt_is_Some_2 out 33) as [r33 Hr33]; [rewrite Hlen; lia|].
  eexists. apply epoch_body_Returns.
  exists GG_demo, out,
    (nll_loss_demo [log_softmax_row_demo r0; log_softmax_row_demo r33] [0; 1]).
  split; [exact Hout|]. split; [|reflexivity].
  apply compute_loss_Returns. exists r0, r33.
  exact (conj Hr0 (conj Hr33 eq_refl)).
Qed.

Lemma epoch_loss_from_labeled_nodes_witness :
  ∃ s' g logits r0 r33,
    epoch_body_demo 0 initial_state_demo = Returns s' ∧
    Net_forward gcn_message_eq gcn_reduce_eq (ts_net initial_state_demo)
      (ts_graph initial_state_demo) inputs = Returns (g, logits) ∧
    logits !! 0 = Some r0 ∧ logits !! 33 = Some r33 ∧
    printed s'
      = printed initial_state_demo
        ++ [(0, nll_loss_demo [log_softmax_row_demo r0; log_softmax_row_demo r33] [0; 1])].
Proof.
  destruct epoch_demo_returns as [s' H].
  destruct (epoch_loss_from_labeled_nodes gcn_message_eq gcn_reduce_eq
              log_softmax_row_demo nll_loss_demo unit unit backward_demo
              optim_init_demo optim_step_demo GG_demo net_demo 0 _ _ H)
    as (_ & _ & g & logits & q0 & q33 & Hf & H0 & H33 & Hp & _).
  exists s', g, logits, q0, q33.
  exact (conj H (conj Hf (conj H0 (conj H33 Hp)))).
Defined.

Lemma training_runs_30_epochs_witness :
  ∃ s,
    train gcn_message gcn_reduce log_softmax_row_demo nll_loss_demo
      unit backward_demo unit optim_init_demo optim_step_demo GG_demo net_demo
      = Returns s ∧
    length (all_logits s) = 30 ∧ (printed s).*1 = seq 0 30 ∧
    Forall (λ logits, length logits = 34 ∧ tensor_width logits 2) (all_logits s).
Proof.
  assert (valid_graph GG_demo) as H1 by (vm_compute; reflexivity).
  assert (no_messages GG_demo) as H2 by (split; vm_compute; reflexivity).
  assert (number_of_nodes GG_demo = 34) as H3 by (vm_compute; reflexivity).
  assert (Net_shape net_demo 34 5 2) as H4 by (repeat split; repeat constructor).
  assert (∀ (o : Optimizer unit) (net : Net Q) (grads : unit),
            Net_shape net 34 5 2 → Net_shape (optim_step_demo o net grads).2 34 5 2)
    as H5 by (intros o net grads H; exact H).
  exact (proj1 (proj2 (training_runs_30_epochs log_softmax_row_demo nll_loss_demo
                         unit unit backward_demo optim_init_demo optim_step_demo
                         GG_demo net_demo H1 H2 H3 H4 H5))).
Defined.

(** * Further properties of the notebooks' code *)

(** ** Notebook 1: building the graph and writing features *)

Section CellFacts.
Context {T : Type} `{!Scalar T}.
Implicit Types (g G : DGLGraph T).

Lemma with_node_frame_id g : with_node_frame g (node_frame g) = g.
Proof. by destruct g. Qed.

Lemma set_then_pop key (val : list (list T)) g :
  length val = n_nodes g →
  set_n_repr key val ALL g ≫= pop_n_repr key
    = Returns (with_node_frame g (delete key (node_frame g)), val).
Proof.
  intros Hlen. unfold set_n_repr. simpl. rewrite decide_True by exact Hlen.
  simpl. unfold pop_n_repr. simpl. rewrite lookup_insert_eq.
  unfold with_node_frame. simpl. by rewrite delete_insert_eq.
Qed.

Lemma src_dst_of_acc (el : list (nat * nat)) a b :
  foldl (λ sd (edge : nat * nat), (sd.1 ++ [edge.1], sd.2 ++ [edge.2])) (a, b) el
    = (a ++ el.*1, b ++ el.*2).
Proof.
  revert a b. induction el as [|[u v] el IH]; intros a b; simpl.
  - by rewrite !app_nil_r.
  - rewrite IH. by rewrite <- !app_assoc.
Qed.

Lemma src_dst_of_unzip (el : list (nat * nat)) : src_dst_of el = (el.*1, el.*2).
Proof. unfold src_dst_of. by rewrite src_dst_of_acc. Qed.

Lemma forallb_valid_pair g (pairs : list (nat * nat)) :
  forallb (valid_pair g) pairs = true ↔
  Forall (λ p, p.1 < n_nodes g ∧ p.2 < n_nodes g) pairs.
Proof.
  rewrite <- Is_true_true, forallb_True. apply Forall_iff. intros [u v].
  unfold valid_pair, has_node. simpl.
  rewrite andb_True, !bool_decide_spec. tauto.
Qed.

Lemma add_edges_pairs u v g pairs :
  broadcast_pairs (toindex u) (toindex v) = Returns pairs →
  Forall (λ p, p.1 < n_nodes g ∧ p.2 < n_nodes g) pairs →
  add_edges u v g = Returns (append_edges pairs g).
Proof.
  intros Hb Hp. unfold add_edges. rewrite Hb. simpl.
  apply forallb_valid_pair in Hp. by rewrite Hp.
Qed.

Lemma broadcast_pairs_one_many (u : nat) (vs : list nat) :
  broadcast_pairs [u] vs = Returns ((λ v, (u, v)) <$> vs).
Proof. reflexivity. Qed.

Lemma broadcast_pairs_pairwise (us vs : list nat) :
  length us = length vs → broadcast_pairs us vs = Returns (zip us vs).
Proof.
  intros Hlen. unfold broadcast_pairs.
  destruct us as [|u [|u' us]], vs as [|v [|v' vs]]; try discriminate; try reflexivity.
  by rewrite decide_True.
Qed.


Lemma set_n_repr_idx_returns key (val : list (list T)) x g :
  length val = length (toindex x) →
  Forall (λ i, i < n_nodes g) (toindex x) →
  set_n_repr key val (Idx x) g
    = Returns (with_node_frame g
                 (update_rows (n_nodes g) (toindex x) {[key := val]} (node_frame g))).
Proof.
  intros Hlen Hx. unfold set_n_repr. cbv zeta.
  rewrite decide_True by exact Hlen.
  assert (forallb (has_node g) (toindex x) = true) as ->; [|reflexivity].
  apply Is_true_eq_true, forallb_True. eapply Forall_impl; [exact Hx|].
  intros i Hi. by apply bool_decide_pack.
Qed.

Lemma cell12_returns G :
  13 ≤ n_nodes G →
  cell12 G =
    Returns (with_node_frame G
      (update_rows (n_nodes G) [10; 11; 12]
         {["feat" := tensor_mul (torch_ones [3; 5]) 2]}
         (update_rows (n_nodes G) [2; 3] {["feat" := torch_ones [2; 5]]}
            (update_rows (n_nodes G) [0] {["feat" := torch_zeros [1; 5]]}
               (node_frame G))))).
Proof.
  intros Hn. unfold cell12.
  rewrite set_n_repr_idx_returns; [|reflexivity | repeat constructor; lia].
  simpl.
  rewrite set_n_repr_idx_returns; [|reflexivity | repeat constructor; simpl; lia].
  simpl.
  rewrite set_n_repr_idx_returns; [|reflexivity | repeat constructor; simpl; lia].
  reflexivity.
Qed.

Lemma cell14_after_reset G G' :
  cell14 G = Returns G' →
  ∃ G1, set_e_repr_all "broness" (torch_ones [number_of_edges G]) G = Returns G1 ∧
        set_e_repr_all "broness" (torch_ones [number_of_edges G']) G' = Returns G1.
Proof.
  intros H. unfold cell14 in H. inv_bind H. rename a into G1.
  exists G1. split; [exact Ha|].
  unfold set_e_repr_all in Ha.
  destruct (decide _) as [Hlen|]; [|discriminate]. injection Ha as <-.
  cbv zeta in H. inv_bind H. rename a into val.
  unfold set_e_repr in H. inv_bind H. rename a into eid.
  destruct (decide _); [|discriminate]. injection H as <-.
  unfold set_e_repr_all. unfold number_of_edges in *. simpl in *.
  rewrite decide_True by exact Hlen.
  f_equal. unfold with_edge_frame. simpl. f_equal.
  apply map_eq. intros k. destruct (decide (k = "broness")) as [->|Hk].
  - by rewrite !lookup_insert_eq.
  - rewrite !lookup_insert_ne by done.
    rewrite update_rows_singleton_ne by done. by rewrite lookup_insert_ne.
Qed.

Lemma Forall_zip_lt (n : nat) (us vs : list nat) :
  Forall (λ w, w < n) us → Forall (λ w, w < n) vs →
  Forall (λ p, p.1 < n ∧ p.2 < n) (zip us vs).
Proof.
  intros Hus. revert vs. induction Hus as [|u us Hu _ IH]; intros vs Hvs; [constructor|].
  destruct Hvs as [|v vs Hv Hvs]; [constructor|].
  simpl. constructor; [done | by apply IH].
Qed.

(** X1.  [G.add_edges] takes a list of sources and one destination, one
    source and a list of destinations, or two lists of the same length, as in
    [G.add_edges([4, 5], 0)], [G.add_edges(6, torch.tensor([0, 4, 5]))] and
    [G.add_edges([2, 2], [0, 1])]: when the end points are nodes of the graph
    it returns, and it appends the edges u_i -> v, u -> v_i or u_i -> v_i in
    the order given; [G.add_edge(u, v)] is the case of one source and one
    destination.  Appending edges leaves the nodes and their features alone,
    keeps the ids of the edges that exist and numbers the new edges from
    [number_of_edges] on. *)
Theorem add_edges_broadcast g (us vs : list nat) (u v : nat) :
  Forall (λ w, w < n_nodes g) us → Forall (λ w, w < n_nodes g) vs →
  u < n_nodes g → v < n_nodes g →
  add_edges (Ids us) (Int v) g = Returns (append_edges ((λ w, (w, v)) <$> us) g) ∧
  add_edges (Int u) (Ids vs) g = Returns (append_edges ((λ w, (u, w)) <$> vs) g) ∧
  (length us = length vs →
   add_edges (Ids us) (Ids vs) g = Returns (append_edges (zip us vs) g)) ∧
  add_edge u v g = add_edges (Int u) (Int v) g ∧
  ∀ pairs,
    n_nodes (append_edges pairs g) = n_nodes g ∧
    node_frame (append_edges pairs g) = node_frame g ∧
    number_of_edges (append_edges pairs g) = number_of_edges g + length pairs ∧
    (∀ e, e < number_of_edges g →
       all_edges (append_edges pairs g) !! e = all_edges g !! e) ∧
    (∀ k, all_edges (append_edges pairs g) !! (number_of_edges g + k) = pairs !! k).
Proof.
  intros Hus Hvs Hu Hv. split; [|split; [|split; [|split]]].
  - apply add_edges_pairs; [apply broadcast_pairs_many_one|].
    apply Forall_fmap. eapply Forall_impl; [exact Hus|]. by intros w Hw.
  - apply add_edges_pairs; [apply broadcast_pairs_one_many|].
    apply Forall_fmap. eapply Forall_impl; [exact Hvs|]. by intros w Hw.
  - intros Hlen. apply add_edges_pairs; [by apply broadcast_pairs_pairwise|].
    by apply Forall_zip_lt.
  - unfold add_edge, add_edges. simpl. by destruct (valid_pair g (u, v)).
  - intros pairs. unfold number_of_edges. simpl.
    split; [reflexivity|]. split; [reflexivity|].
    split; [apply length_app|]. split.
    + intros e He. by apply lookup_app_l.
    + intros k. rewrite lookup_app_r by lia. f_equal. lia.
Qed.

(** X2.  The exercise's cell, for whatever list of tuples [edge_list] holds:
    the loop fills [src] with the first components and [dst] with the second
    ones, in order, so that [G.add_edges(src, dst)] appends exactly the tuples
    of the list as edges, in the order of the list, whenever all of them join
    nodes of the graph.  The notebook's cell is this one on its 67 tuples. *)
Theorem exercise_loop_adds_edge_list (el : list (nat * nat)) G :
  Forall (λ p, p.1 < n_nodes G ∧ p.2 < n_nodes G) el →
  src_dst_of el = (el.*1, el.*2) ∧
  cell8_of el G = Returns (append_edges el G) ∧
  add_edges_calls cell8_calls G = cell8_of edge_list G.
Proof.
  intros Hel. split; [apply src_dst_of_unzip|]. split; [|reflexivity].
  unfold cell8_of. cbv zeta. rewrite src_dst_of_unzip. simpl.
  apply add_edges_pairs; [apply broadcast_pairs_fst_snd | exact Hel].
Qed.

(** X3.  [G.ndata.update({key : val})] followed by [G.ndata.pop(key)], as in
    the cell that adds and deletes ['another_feat']: when [val] has one row
    for each node and the graph had no feature [key], the pop returns [val]
    and the graph is exactly as it was before the update, so that a second
    pop raises [KeyError]; in particular the notebook's cell leaves a 34-node
    graph without ['another_feat'] unchanged, whatever [torch.randn] draws. *)
Theorem ndata_update_pop_round_trip g key (val : list (list T)) :
  length val = n_nodes g → node_frame g !! key = None →
  set_n_repr key val ALL g ≫= pop_n_repr key = Returns (g, val) ∧
  pop_n_repr key g = Raises (KeyError key) ∧
  (key = "another_feat" → n_nodes g = 34 → ∀ rng, cell11 rng g = Returns g).
Proof.
  intros Hlen Hnone.
  assert (with_node_frame g (delete key (node_frame g)) = g) as Hsame
    by (by rewrite delete_id, with_node_frame_id).
  split; [|split].
  - by rewrite set_then_pop, Hsame.
  - unfold pop_n_repr. by rewrite Hnone.
  - intros -> Hn rng.
    assert (length (torch_randn rng 2 [34; 3]) = n_nodes g) as Hlen34.
    { unfold torch_randn. rewrite length_fmap, length_seq. simpl. by rewrite Hn. }
    unfold cell11, set_n_repr. cbv zeta. unfold number_of_nodes.
    rewrite decide_True by exact Hlen34. simpl.
    unfold pop_n_repr. simpl. rewrite lookup_insert_eq. simpl. f_equal.
    unfold with_node_frame. simpl. rewrite delete_insert_eq, delete_id by done.
    by destruct g.
Qed.

(** X4.  The cell of the three partial assignments to ['feat'], on any graph
    with at least 13 nodes that has the feature, with five entries in each
    row: it returns; row 0 becomes five zeros, rows 2 and 3 five ones, rows
    10, 11 and 12 five times 1.0 * 2; every other row of ['feat'], every
    other node feature, the nodes, the edges and the edge features are as
    before (what the next cell prints). *)
Theorem partial_assignments_of_cell12 G (feat : list (list T)) :
  node_frame G !! "feat" = Some feat → 13 ≤ length feat → tensor_width feat 5 →
  13 ≤ n_nodes G →
  ∃ G' feat',
    cell12 G = Returns G' ∧
    node_frame G' !! "feat" = Some feat' ∧
    length feat' = length feat ∧
    feat' !! 0 = Some (replicate 5 tzero) ∧
    feat' !! 2 = Some (replicate 5 tone) ∧
    feat' !! 3 = Some (replicate 5 tone) ∧
    feat' !! 10 = Some (replicate 5 (tmul tone (tlit 2))) ∧
    feat' !! 11 = Some (replicate 5 (tmul tone (tlit 2))) ∧
    feat' !! 12 = Some (replicate 5 (tmul tone (tlit 2))) ∧
    (∀ j, j ∉ [0; 2; 3; 10; 11; 12] → feat' !! j = feat !! j) ∧
    (∀ k, k ≠ "feat" → node_frame G' !! k = node_frame G !! k) ∧
    n_nodes G' = n_nodes G ∧ all_edges G' = all_edges G ∧
    edge_frame G' = edge_frame G.
Proof.
  intros Hfeat Hlen _ Hn. rewrite cell12_returns by exact Hn.
  eexists _, _. split; [reflexivity|]. simpl.
  split.
  { erewrite update_rows_singleton_eq; [reflexivity|].
    erewrite update_rows_singleton_eq; [reflexivity|].
    by apply update_rows_singleton_eq. }
  unfold scatter_row. simpl. rewrite !length_insert.
  split; [reflexivity|].
  repeat (split;
          [rewrite ?list_lookup_insert_ne by lia;
           apply list_lookup_insert_eq; rewrite ?length_insert; lia|]).
  split; [|split; [|done]].
  - intros j Hj. rewrite !not_elem_of_cons in Hj.
    rewrite !list_lookup_insert_ne by lia. reflexivity.
  - intros k Hk. by rewrite !update_rows_singleton_ne.
Qed.

(** X5.  The ['broness'] cell first sets the feature to ones and then halves
    the entries of the edges into node 0, so running it again gives the same
    graph: the values are not halved a second time. *)
Theorem broness_cell_rerun G G' :
  cell14 G = Returns G' → cell14 G' = Returns G'.
Proof.
  intros H. destruct (cell14_after_reset G G' H) as (G1 & H1 & H2).
  unfold cell14 in H |- *. rewrite H1 in H. rewrite H2. exact H.
Qed.

(** X6.  [G.edata.update({'broness': G.edata['broness'] + torch.randn(...)})]
    on a graph whose ['broness'] has one scalar for each edge: it returns; the
    entry of every edge is its old value plus the draw for that edge; the
    other edge features, the nodes, the edges and the node features are as
    before.  On a graph without ['broness'] the cell raises [KeyError]. *)
Theorem broness_noise_update rng G (broness : list (list T)) :
  edge_frame G !! "broness" = Some broness →
  length broness = number_of_edges G →
  Forall (λ r, length r = 1) broness →
  ∃ G' broness',
    cell15 rng G = Returns G' ∧
    edge_frame G' = <["broness" := broness']> (edge_frame G) ∧
    length broness' = number_of_edges G ∧
    (∀ e x, broness !! e = Some [x] → broness' !! e = Some [tadd x (rng 3 e 0)]) ∧
    n_nodes G' = n_nodes G ∧ all_edges G' = all_edges G ∧
    node_frame G' = node_frame G ∧
    ∀ G0 : DGLGraph T, edge_frame G0 !! "broness" = None →
      cell15 rng G0 = Raises (KeyError "broness").
Proof.
  intros Hb Hlen _.
  assert (length (tensor_add broness (torch_randn rng 3 [number_of_edges G]))
          = number_of_edges G) as Hlen'.
  { unfold tensor_add, torch_randn. rewrite length_zip_with, length_fmap, length_seq.
    simpl. lia. }
  unfold cell15 at 1, get_e_repr_all. rewrite Hb. simpl.
  unfold set_e_repr_all. rewrite decide_True by exact Hlen'.
  eexists _, _. split; [reflexivity|]. simpl.
  split; [reflexivity|]. split; [exact Hlen'|].
  split; [|split; [reflexivity|split; [reflexivity|split; [reflexivity|]]]].
  - intros e x He. apply lookup_lt_Some in He as Hlt.
    unfold tensor_add, torch_randn. rewrite lookup_zip_with, He. simpl.
    rewrite list_lookup_fmap, lookup_seq_lt by lia. reflexivity.
  - intros G0 H0. unfold cell15, get_e_repr_all. by rewrite H0.
Qed.

End CellFacts.

(** ** Selecting edges by their end points *)

Section SelectionFacts.
Context {T : Type} `{!Scalar T}.
Implicit Types (g : DGLGraph T).

Lemma NoDup_edges_between g p : NoDup (edges_between g p).
Proof. unfold edges_between. apply NoDup_filter, NoDup_seq. Qed.

(** X7.  [G.predecessors(v)] lists every node with an edge into [v] once,
    and [G.edges[G.predecessors(v), v]] addresses exactly the edges into
    [v], whatever the node [v] of a well-formed graph: an edge id is selected
    if and only if its destination is [v], and no edge id is selected
    twice. *)
Theorem predecessors_select_in_edges g (v : nat) :
  valid_graph g →
  NoDup (predecessors g v) ∧
  (∀ u, u ∈ predecessors g v ↔ (u, v) ∈ all_edges g) ∧
  ∃ eid, edge_ids g (predecessors g v) [v] = Returns eid ∧
         NoDup eid ∧
         (∀ e, e ∈ eid ↔ e ∈ in_edges g v) ∧
         length eid = in_degree g v.
Proof.
  intros Hv.
  assert (NoDup (predecessors g v)) as Hnd by apply NoDup_remove_dups.
  split; [exact Hnd|]. split; [intros u; apply elem_of_predecessors|].
  destruct (edge_ids_predecessors g v Hv) as (eid & Heid & Hin).
  exists eid. split; [exact Heid|].
  assert (NoDup eid) as Hnd'.
  { unfold edge_ids in Heid. rewrite broadcast_pairs_many_one in Heid. simpl in Heid.
    destruct (forallb _ _); [|discriminate]. injection Heid as <-.
    apply NoDup_bind.
    - intros p q e _ _ Hp%elem_of_edges_between Hq%elem_of_edges_between. congruence.
    - intros p _. apply NoDup_edges_between.
    - apply NoDup_fmap_2; [|exact Hnd]. intros u u' [=]. done. }
  assert (∀ e, e ∈ eid ↔ e ∈ in_edges g v) as Hiff.
  { intros e. by rewrite Hin, elem_of_in_edges. }
  split; [exact Hnd'|]. split; [exact Hiff|].
  unfold in_degree. apply Permutation_length, NoDup_Permutation; [exact Hnd'| |exact Hiff].
  unfold in_edges. apply NoDup_filter, NoDup_seq.
Qed.

End SelectionFacts.

(** ** The shape of the frames is an invariant *)

Section ShapeFacts.
Context {T : Type} `{!Scalar T}.
Implicit Types (g : DGLGraph T) (fr : gmap string (list (list T))).

Lemma frame_rows_add_rows n num fr :
  frame_rows n fr → frame_rows (n + num) (add_rows num fr).
Proof.
  intros H k col. unfold add_rows. rewrite lookup_fmap.
  destruct (fr !! k) as [c|] eqn:E; [|discriminate]. intros [= <-].
  rewrite length_app, length_replicate. f_equal. by eapply H.
Qed.

Lemma frame_rows_update_rows n idx (data : gmap string (list (list T))) fr :
  frame_rows n fr → frame_rows n (update_rows n idx data fr).
Proof.
  intros H k col. rewrite update_rows_lookup.
  destruct (data !! k) as [feats|]; [|apply H]. intros [= <-].
  rewrite length_scatter_row.
  destruct (fr !! k) as [c|] eqn:E; simpl; [by eapply H | apply length_replicate].
Qed.

Lemma frame_rows_foldl_update_rows n
    (ws : list (list nat * gmap string (list (list T)))) fr :
  frame_rows n fr →
  frame_rows n (foldl (λ nf w, update_rows n w.1 w.2 nf) fr ws).
Proof.
  revert fr. induction ws as [|w ws IH]; intros fr H; [exact H|].
  simpl. apply IH. by apply frame_rows_update_rows.
Qed.

(** Validity of the edges depends on the nodes and the edges only. *)
Lemma valid_graph_ext g g' :
  n_nodes g' = n_nodes g → all_edges g' = all_edges g →
  valid_graph g → valid_graph g'.
Proof.
  unfold valid_graph, valid_pair, has_node. intros -> ->. done.
Qed.

Lemma valid_graph_append_edges pairs g :
  valid_graph g → forallb (valid_pair g) pairs = true →
  valid_graph (append_edges pairs g).
Proof.
  unfold valid_graph. intros Hv Hp. simpl.
  rewrite forallb_app. apply andb_true_iff. split; [exact Hv | exact Hp].
Qed.

Lemma graph_wf_append_edges pairs g :
  graph_wf g → forallb (valid_pair g) pairs = true →
  graph_wf (append_edges pairs g).
Proof.
  intros (Hv & Hnf & Hef & Hmf & Hmi) Hp.
  split; [by apply valid_graph_append_edges|].
  unfold number_of_edges. simpl. rewrite !length_app, length_replicate.
  split; [exact Hnf|].
  split; [by apply frame_rows_add_rows|].
  split; [by apply frame_rows_add_rows|].
  unfold number_of_edges in Hmi. by rewrite Hmi.
Qed.

Lemma graph_wf_empty : graph_wf (empty_graph (T:=T)).
Proof.
  split; [reflexivity|]. simpl.
  split; [apply map_Forall_empty|]. split; [apply map_Forall_empty|].
  split; [apply map_Forall_empty | reflexivity].
Qed.

Lemma graph_wf_add_nodes num g : graph_wf g → graph_wf (add_nodes num g).
Proof.
  intros (Hv & Hnf & Hef & Hmf & Hmi).
  split; [|split; [by apply frame_rows_add_rows | done]].
  unfold valid_graph in *. simpl.
  apply Is_true_eq_true, forallb_True. apply Is_true_eq_left, forallb_True in Hv.
  eapply Forall_impl; [exact Hv|]. intros [u v]. unfold valid_pair, has_node. simpl.
  intros [H1 H2]%andb_prop_elim. apply andb_prop_intro.
  apply bool_decide_unpack in H1, H2. split; apply bool_decide_pack; lia.
Qed.

Lemma graph_wf_add_edges u v g g' :
  graph_wf g → add_edges u v g = Returns g' → graph_wf g'.
Proof.
  intros Hwf H. unfold add_edges in H. inv_bind H.
  destruct (forallb (valid_pair g) a) eqn:Hp; [|discriminate].
  injection H as <-. by apply graph_wf_append_edges.
Qed.


Lemma graph_wf_with_node_frame g nf :
  graph_wf g → frame_rows (n_nodes g) nf → graph_wf (with_node_frame g nf).
Proof. intros (Hv & Hnf & Hrest) H. split; [exact Hv|]. split; [exact H | exact Hrest]. Qed.

Lemma graph_wf_with_edge_frame g ef :
  graph_wf g → frame_rows (number_of_edges g) ef → graph_wf (with_edge_frame g ef).
Proof.
  intros (Hv & Hnf & Hef & Hrest) H. split; [exact Hv|]. split; [exact Hnf|].
  split; [exact H | exact Hrest].
Qed.

Lemma graph_wf_set_n_repr key val u g g' :
  graph_wf g → set_n_repr key val u g = Returns g' → graph_wf g'.
Proof.
  intros Hwf H. unfold set_n_repr in H. cbv zeta in H.
  destruct (decide _) as [Hlen|]; [|discriminate].
  destruct u as [|x].
  - injection H as <-. apply graph_wf_with_node_frame; [exact Hwf|].
    apply map_Forall_insert_2; [exact Hlen | apply Hwf].
  - destruct (forallb _ _); [|discriminate]. injection H as <-.
    apply graph_wf_with_node_frame; [exact Hwf|].
    apply frame_rows_update_rows, Hwf.
Qed.

Lemma graph_wf_pop_n_repr key g g' val :
  graph_wf g → pop_n_repr key g = Returns (g', val) →
  graph_wf g' ∧ length val = n_nodes g.
Proof.
  intros Hwf H. unfold pop_n_repr in H.
  destruct (node_frame g !! key) as [c|] eqn:Hk; [|discriminate].
  injection H as <- <-. split.
  - apply graph_wf_with_node_frame; [exact Hwf|]. apply map_Forall_delete, Hwf.
  - destruct Hwf as (_ & Hnf & _). by eapply Hnf.
Qed.

Lemma graph_wf_set_e_repr_all key val g g' :
  graph_wf g → set_e_repr_all key val g = Returns g' → graph_wf g'.
Proof.
  intros Hwf H. unfold set_e_repr_all in H.
  destruct (decide _) as [Hlen|]; [|discriminate]. injection H as <-.
  apply graph_wf_with_edge_frame; [exact Hwf|].
  apply map_Forall_insert_2; [exact Hlen | apply Hwf].
Qed.

Lemma graph_wf_set_e_repr key val u v g g' :
  graph_wf g → set_e_repr key val u v g = Returns g' → graph_wf g'.
Proof.
  intros Hwf H. unfold set_e_repr in H. inv_bind H.
  destruct (decide _); [|discriminate]. injection H as <-.
  apply graph_wf_with_edge_frame; [exact Hwf|].
  apply frame_rows_update_rows, Hwf.
Qed.

Lemma graph_wf_send uv (mfunc : message_func T) g g' :
  graph_wf g → send uv mfunc g = Returns g' → graph_wf g'.
Proof.
  intros Hwf H. unfold send in H. inv_bind H.
  destruct (decide (a = [])); [by injection H as <-|].
  inv_bind H. cbv zeta in H.
  destruct (frame_rows_ok _ _); [|discriminate].
  injection H as <-.
  destruct Hwf as (Hv & Hnf & Hef & Hmf & Hmi).
  split; [exact Hv|]. split; [exact Hnf|]. split; [exact Hef|].
  split; [by apply frame_rows_update_rows|].
  simpl. by rewrite length_set_index.
Qed.

Lemma graph_wf_recv v (rfunc : reduce_func T) g g' :
  graph_wf g → recv v rfunc g = Returns g' → graph_wf g'.
Proof.
  intros Hwf H. unfold recv in H.
  destruct (forallb _ _); [|discriminate]. cbv zeta in H.
  destruct (decide _); [by injection H as <-|].
  inv_bind H. rename a into bkt_feats.
  destruct (forallb _ bkt_feats); [|discriminate].
  injection H as <-.
  destruct Hwf as (Hv & Hnf & Hef & Hmf & Hmi).
  split; [exact Hv|]. unfold number_of_edges. simpl.
  split; [by apply frame_rows_foldl_update_rows|].
  split; [exact Hef|].
  split; [|by rewrite length_set_index].
  destruct (decide _); [exact Hmf | apply map_Forall_empty].
Qed.

Lemma graph_wf_GCN_forward (mfunc : message_func T) (rfunc : reduce_func T)
    (self : GCN T) g (x : list (list T)) g' out :
  graph_wf g → GCN_forward mfunc rfunc self g x = Returns (g', out) →
  graph_wf g' ∧ n_nodes g' = n_nodes g ∧ length out = n_nodes g.
Proof.
  intros Hwf H.
  destruct (GCN_forward_frame _ _ _ _ _ _ _ H) as (_ & Hn & _).
  unfold GCN_forward in H.
  inv_bind H. rename a into ga. inv_bind H. rename a into gb.
  inv_bind H. rename a into gc.
  apply graph_wf_set_n_repr in Ha; [|exact Hwf].
  apply graph_wf_send in Ha0; [|exact Ha].
  apply graph_wf_recv in Ha1; [|exact Ha0].
  pose proof H as Hpop. unfold pop_n_repr in Hpop.
  destruct (node_frame gc !! "h"); [|discriminate]. injection Hpop as Hg' _.
  apply graph_wf_pop_n_repr in H as [Hwf' Hlen]; [|exact Ha1].
  split; [exact Hwf'|]. split; [exact Hn|].
  rewrite Hlen, <- Hn, <- Hg'. reflexivity.
Qed.

Lemma graph_wf_Net_forward (mfunc : message_func T) (rfunc : reduce_func T)
    (self : Net T) g (x : list (list T)) g' out :
  graph_wf g → Net_forward mfunc rfunc self g x = Returns (g', out) →
  graph_wf g' ∧ n_nodes g' = n_nodes g ∧ length out = n_nodes g.
Proof.
  intros Hwf H. unfold Net_forward in H.
  inv_bind H. destruct a as [g1 h1].
  inv_bind H. destruct a as [g2 h2]. injection H as <- <-.
  apply graph_wf_GCN_forward in Ha as (Hwf1 & Hn1 & _); [|exact Hwf].
  apply graph_wf_GCN_forward in Ha0 as (Hwf2 & Hn2 & Hlen); [|exact Hwf1].
  split; [exact Hwf2|]. split; congruence.
Qed.

(** X8.  Building a graph keeps its shape: a well-formed graph (every edge
    joins two nodes, every node feature has one row for each node, every edge
    feature and the message store one row for each edge) is still well
    formed after [add_nodes], and after any [add_edge] or [add_edges] call
    that returns.  The graph of [dgl.DGLGraph()] is well formed, hence so is
    every graph built with these calls. *)
Theorem graph_building_keeps_shape g :
  graph_wf g →
  graph_wf (empty_graph (T:=T)) ∧
  (∀ num, graph_wf (add_nodes num g)) ∧
  (∀ u v g', add_edge u v g = Returns g' → graph_wf g') ∧
  (∀ u v g', add_edges u v g = Returns g' → graph_wf g').
Proof.
  intros Hwf. split; [apply graph_wf_empty|]. split; [|split].
  - intros num. by apply graph_wf_add_nodes.
  - intros u v g' H. unfold add_edge in H.
    destruct (valid_pair g (u, v)) eqn:Hp; [|discriminate]. injection H as <-.
    apply graph_wf_append_edges; [exact Hwf|]. simpl. by rewrite Hp.
  - intros u v g' H. by eapply graph_wf_add_edges.
Qed.

(** X9.  "Features of multiple nodes/edges are batched on the first
    dimension" is kept by every way the notebook writes features: on a
    well-formed graph, whenever [G.ndata[key] = val], [G.nodes[u].data[key] =
    val], [G.ndata.pop(key)], [G.edata[key] = val] or
    [G.edges[u, v].data[key] = val] returns, the graph is still well formed;
    the tensor that [pop] returns has one row for each node and the tensor
    that [G.edata[key]] returns has one row for each edge. *)
Theorem feature_assignment_keeps_shape g :
  graph_wf g →
  (∀ key val u g', set_n_repr key val u g = Returns g' → graph_wf g') ∧
  (∀ key g' val, pop_n_repr key g = Returns (g', val) →
     graph_wf g' ∧ length val = n_nodes g) ∧
  (∀ key val g', set_e_repr_all key val g = Returns g' → graph_wf g') ∧
  (∀ key val u v g', set_e_repr key val u v g = Returns g' → graph_wf g') ∧
  (∀ key val, get_e_repr_all key g = Returns val → length val = number_of_edges g).
Proof.
  intros Hwf. split; [|split; [|split; [|split]]].
  - intros key val u g' H. by eapply graph_wf_set_n_repr.
  - intros key g' val H. by eapply graph_wf_pop_n_repr.
  - intros key val g' H. by eapply graph_wf_set_e_repr_all.
  - intros key val u v g' H. by eapply graph_wf_set_e_repr.
  - intros key val H. unfold get_e_repr_all in H.
    destruct (edge_frame g !! key) as [col|] eqn:Hk; [|discriminate].
    injection H as <-. destruct Hwf as (_ & _ & Hef & _). by eapply Hef.
Qed.

(** X10.  Whatever [gcn_message] and [gcn_reduce] are bound to: on a
    well-formed graph, when [g.send], [g.recv], [GCN.forward] or
    [Net.forward] returns, the graph is still well formed, and the tensor
    that [GCN.forward] or [Net.forward] returns has exactly one row for each
    node of the graph. *)
Theorem forward_returns_one_row_per_node
    (mfunc : message_func T) (rfunc : reduce_func T) g :
  graph_wf g →
  (∀ uv g', send uv mfunc g = Returns g' → graph_wf g') ∧
  (∀ v g', recv v rfunc g = Returns g' → graph_wf g') ∧
  (∀ (self : GCN T) (x : list (list T)) g' out,
     GCN_forward mfunc rfunc self g x = Returns (g', out) →
     graph_wf g' ∧ n_nodes g' = n_nodes g ∧ length out = n_nodes g) ∧
  (∀ (self : Net T) (x : list (list T)) g' out,
     Net_forward mfunc rfunc self g x = Returns (g', out) →
     graph_wf g' ∧ n_nodes g' = n_nodes g ∧ length out = n_nodes g).
Proof.
  intros Hwf. split; [|split; [|split]].
  - intros uv g' H. by eapply graph_wf_send.
  - intros v g' H. by eapply graph_wf_recv.
  - intros self x g' out H. by eapply graph_wf_GCN_forward.
  - intros self x g' out H. by eapply graph_wf_Net_forward.
Qed.

End ShapeFacts.

(** ** Notebook 2: what a forward call does to the graph *)

Section RestoreFacts.
Context {T : Type} `{!Scalar T}.
Implicit Types (g : DGLGraph T).

(** Sending along all edges marks every edge, whatever the message function
    returns; without edges nothing happens. *)
Lemma send_all_edges_index (mfunc : message_func T) g g' :
  valid_graph g → msg_index g = replicate (number_of_edges g) false →
  send (edges g) mfunc g = Returns g' →
  (number_of_edges g = 0 ∧ g' = g) ∨
  (number_of_edges g ≠ 0 ∧ msg_index g' = replicate (number_of_edges g) true).
Proof.
  intros Hv Hmi H. unfold send in H.
  rewrite edge_ids_all_edges in H by done. simpl in H.
  set (eid := all_edges g ≫= edges_between g) in *.
  assert (∀ e, e < number_of_edges g → e ∈ eid) as Hin
    by (intros e He; by apply elem_of_all_edge_ids).
  destruct (decide (eid = [])) as [Heq|Hne].
  - injection H as <-. left. split; [|reflexivity].
    destruct (decide (number_of_edges g = 0)) as [|HE]; [done|].
    exfalso. apply (not_elem_of_nil 0). rewrite <- Heq. apply Hin. lia.
  - right. split.
    + intros HE. apply Hne. unfold eid.
      apply nil_length_inv in HE. by rewrite HE.
    + inv_bind H. cbv zeta in H.
      destruct (frame_rows_ok _ _); [|discriminate].
      injection H as <-. simpl. rewrite Hmi. by apply set_index_all.
Qed.

(** Receiving at all nodes consumes every message, whatever the reduce
    function returns. *)
Lemma recv_all_nodes_index (rfunc : reduce_func T) g g' :
  valid_graph g → number_of_edges g ≠ 0 →
  msg_index g = replicate (number_of_edges g) true →
  recv (nodes g) rfunc g = Returns g' →
  msg_frame g' = ∅ ∧ msg_index g' = replicate (number_of_edges g) false.
Proof.
  intros Hv HE Hmi H.
  pose proof (pending_all g) as Hpend. specialize (λ v, Hpend v Hmi).
  unfold recv in H. rewrite forallb_has_node_nodes in H. cbv zeta in H.
  set (recv_nodes := filter (λ u, u ∈ nodes g) (seq 0 (n_nodes g))) in *.
  set (eid := recv_nodes ≫= pending g) in *.
  assert (recv_nodes = seq 0 (n_nodes g)) as Hrn.
  { apply filter_all_id, Forall_forall. done. }
  assert (∀ e, e < number_of_edges g → e ∈ eid) as Hcover.
  { intros e He. apply lookup_lt_is_Some in He as [[u v] Huv].
    destruct (valid_graph_lookup g e u v Hv Huv) as [_ Hvn].
    unfold eid. apply list_elem_of_bind. exists v. split.
    - rewrite Hpend. apply elem_of_in_edges. eauto.
    - rewrite Hrn. apply elem_of_seq. lia. }
  destruct (decide (eid = [])) as [Heq|Hne].
  { exfalso. apply (not_elem_of_nil 0). rewrite <- Heq. apply Hcover. lia. }
  inv_bind H. rename a into bkt_feats.
  destruct (forallb _ bkt_feats); [|discriminate].
  injection H as <-. simpl.
  rewrite Hmi, (set_index_all eid false true) by done.
  split; [|reflexivity].
  rewrite decide_False; [done|].
  intros [Hin _]%elem_of_replicate. discriminate.
Qed.

Lemma recv_no_edges (rfunc : reduce_func T) g :
  number_of_edges g = 0 → recv (nodes g) rfunc g = Returns g.
Proof.
  intros HE. unfold recv. rewrite forallb_has_node_nodes. cbv zeta.
  rewrite decide_True; [reflexivity|].
  induction (filter _ _) as [|u l IH]; [reflexivity|].
  rewrite bind_cons, IH. unfold pending.
  by rewrite (in_edges_no_edges g u HE).
Qed.

Lemma graph_ext g g' :
  n_nodes g' = n_nodes g → all_edges g' = all_edges g →
  node_frame g' = node_frame g → edge_frame g' = edge_frame g →
  msg_frame g' = msg_frame g → msg_index g' = msg_index g → g' = g.
Proof. destruct g, g'. simpl. by intros -> -> -> -> -> ->. Qed.

(** The message state after the layer is the one before it. *)
Lemma GCN_forward_messages (mfunc : message_func T) (rfunc : reduce_func T)
    (self : GCN T) g (x : list (list T)) g' out :
  valid_graph g → no_messages g →
  GCN_forward mfunc rfunc self g x = Returns (g', out) →
  msg_frame g' = msg_frame g ∧ msg_index g' = msg_index g.
Proof.
  intros Hv [Hmf Hmi] H. unfold GCN_forward in H.
  inv_bind H. rename a into ga. inv_bind H. rename a into gb.
  inv_bind H. rename a into gc.
  unfold set_n_repr in Ha. simpl in Ha.
  destruct (decide _); [|discriminate]. injection Ha as <-.
  set (ga := with_node_frame g _) in *.
  assert (msg_frame gc = msg_frame g ∧ msg_index gc = msg_index g) as [Hf Hi].
  { pose proof (send_frame _ _ _ _ Ha0) as (Hn1 & He1 & _).
    destruct (send_all_edges_index mfunc ga gb) as [[HE ->]|[HE Hgb]];
      [exact Hv | exact Hmi | exact Ha0 | |].
    - rewrite recv_no_edges in Ha1 by exact HE. by injection Ha1 as <-.
    - destruct (recv_all_nodes_index rfunc gb gc) as [Hf Hi].
      + by apply (valid_graph_ext ga gb).
      + unfold number_of_edges in *. by rewrite He1.
      + unfold number_of_edges in *. by rewrite He1.
      + exact Ha1.
      + rewrite Hf, Hi, Hmf, Hmi. unfold number_of_edges. by rewrite He1. }
  unfold pop_n_repr in H. destruct (node_frame gc !! "h"); [|discriminate].
  injection H as <- _. simpl. done.
Qed.

Lemma GCN_forward_same_graph (mfunc : message_func T) (rfunc : reduce_func T)
    (self : GCN T) g (x : list (list T)) g' out :
  valid_graph g → no_messages g → node_frame g !! "h" = None →
  (∀ nb d k, rfunc nb = Returns (Some d) → k ≠ "h" → d !! k = None) →
  GCN_forward mfunc rfunc self g x = Returns (g', out) → g' = g.
Proof.
  intros Hv Hm Hnone Hr H.
  destruct (GCN_forward_frame _ _ _ _ _ _ _ H) as (Hh & Hn & He & Hef & Hnf).
  destruct (GCN_forward_messages _ _ _ _ _ _ _ Hv Hm H) as [Hf Hi].
  apply graph_ext; try done.
  apply map_eq. intros k. destruct (decide (k = "h")) as [->|Hk].
  - by rewrite Hh, Hnone.
  - apply Hnf; [exact Hk|]. intros nb d Hd. by eapply Hr.
Qed.

Lemma Net_forward_same_graph (mfunc : message_func T) (rfunc : reduce_func T)
    (self : Net T) g (x : list (list T)) g' out :
  valid_graph g → no_messages g → node_frame g !! "h" = None →
  (∀ nb d k, rfunc nb = Returns (Some d) → k ≠ "h" → d !! k = None) →
  Net_forward mfunc rfunc self g x = Returns (g', out) → g' = g.
Proof.
  intros Hv Hm Hnone Hr H. unfold Net_forward in H.
  inv_bind H. destruct a as [g1 h1].
  inv_bind H. destruct a as [g2 h2]. injection H as <- <-.
  apply GCN_forward_same_graph in Ha as ->; [|done..].
  by apply GCN_forward_same_graph in Ha0 as ->.
Qed.

(** X11.  [GCN.forward] and [Net.forward] give the graph back as they found
    it, whatever the message function is: on a well-formed graph without
    waiting messages and without a node feature ['h'], and with a reduce
    function that returns no field other than ['h'], a forward call that
    returns leaves the whole graph (nodes, edges, node features, edge
    features, message store) equal to the graph before the call: every
    message that was sent has been received. *)
Theorem forward_leaves_graph_as_found
    (mfunc : message_func T) (rfunc : reduce_func T) g :
  valid_graph g → no_messages g → node_frame g !! "h" = None →
  (∀ nb d k, rfunc nb = Returns (Some d) → k ≠ "h" → d !! k = None) →
  (∀ (self : GCN T) (x : list (list T)) g' out,
     GCN_forward mfunc rfunc self g x = Returns (g', out) → g' = g) ∧
  (∀ (self : Net T) (x : list (list T)) g' out,
     Net_forward mfunc rfunc self g x = Returns (g', out) → g' = g).
Proof.
  intros Hv Hm Hnone Hr. split.
  - intros self x g' out H. by eapply GCN_forward_same_graph.
  - intros self x g' out H. by eapply Net_forward_same_graph.
Qed.

End RestoreFacts.

(** ** The layer and the network in closed form *)

Section ClosedFormFacts.
Context {T : Type} `{!Scalar T}.
Implicit Types (g : DGLGraph T).

Lemma length_aggregate g (h : list (list T)) : length (aggregate g h) = n_nodes g.
Proof. unfold aggregate. by rewrite length_fmap, length_seq. Qed.

Lemma aggregate_lookup g (h : list (list T)) v :
  v < n_nodes g → aggregate g h !! v = Some (neighbor_sum g h v).
Proof.
  intros Hv. unfold aggregate. by rewrite list_lookup_fmap, lookup_seq_lt.
Qed.

(** When every node has an in-edge the layer returns the whole aggregate. *)
Lemma GCN_forward_eq_aggregate (self : GCN T) g (x : list (list T)) :
  valid_graph g → no_messages g → length x = n_nodes g →
  (∀ v, v < n_nodes g → in_edges g v ≠ []) →
  GCN_forward gcn_message_eq gcn_reduce_eq self g x
    = Returns (with_node_frame g (delete "h" (node_frame g)),
               aggregate g (Linear_forward (linear self) x)).
Proof.
  intros Hv Hm Hlen Hin.
  destruct (GCN_forward_eq_returns self g x Hv Hm Hlen) as (out & -> & Hlen' & Hrows).
  do 2 f_equal. apply list_eq. intros v.
  destruct (decide (v < n_nodes g)) as [Hvn|Hvn].
  - rewrite aggregate_lookup by done. apply Hrows. by apply Hin.
  - rewrite !lookup_ge_None_2; [done | |]; rewrite ?length_aggregate; lia.
Qed.

(** X12.  With the message and reduce functions of the exercise's equations,
    on a well-formed graph without waiting messages and without ['h'] in
    which every node has an in-edge (as in a graph with self loops), for a
    network [Net(in_feats, hidden_size, num_classes)] and an input with one
    row of [in_feats] entries for each node: the first layer returns the
    whole matrix of neighbour sums of the transformed input, and the network
    returns aggregate(linear2(relu(aggregate(linear1(x))))), the graph being
    as before. *)
Theorem forward_closed_form (self : Net T) g (x : list (list T))
    (in_feats hidden_size num_classes : nat) :
  valid_graph g → no_messages g → node_frame g !! "h" = None →
  Net_shape self in_feats hidden_size num_classes →
  length x = n_nodes g → tensor_width x in_feats →
  (∀ v, v < n_nodes g → in_edges g v ≠ []) →
  GCN_forward gcn_message_eq gcn_reduce_eq (gcn1 self) g x
    = Returns (g, aggregate g (Linear_forward (linear (gcn1 self)) x)) ∧
  Net_forward gcn_message_eq gcn_reduce_eq self g x
    = Returns (g, aggregate g
                    (Linear_forward (linear (gcn2 self))
                       (torch_relu
                          (aggregate g (Linear_forward (linear (gcn1 self)) x))))).
Proof.
  intros Hv Hm Hnone _ Hlen _ Hin.
  assert (with_node_frame g (delete "h" (node_frame g)) = g) as Hsame.
  { unfold with_node_frame. by rewrite delete_id, graph_eta. }
  assert (∀ (l : GCN T) (y : list (list T)), length y = n_nodes g →
            GCN_forward gcn_message_eq gcn_reduce_eq l g y
              = Returns (g, aggregate g (Linear_forward (linear l) y))) as Hlayer.
  { intros l y Hy. rewrite GCN_forward_eq_aggregate by done. by rewrite Hsame. }
  split; [by apply Hlayer|].
  unfold Net_forward. rewrite Hlayer by exact Hlen. simpl.
  rewrite Hlayer; [reflexivity|].
  unfold torch_relu. by rewrite length_fmap, length_aggregate.
Qed.

End ClosedFormFacts.

Section LocalityFacts.
Context {T : Type} `{!Scalar T}.
Implicit Types (g : DGLGraph T).

Lemma Linear_forward_lookup (l : Linear T) (x x' : list (list T)) u :
  x !! u = x' !! u → Linear_forward l x !! u = Linear_forward l x' !! u.
Proof. intros H. unfold Linear_forward. by rewrite !list_lookup_fmap, H. Qed.

Lemma neighbor_sum_ext g (h h' : list (list T)) v :
  (∀ u, (u, v) ∈ all_edges g → h !! u = h' !! u) →
  neighbor_sum g h v = neighbor_sum g h' v.
Proof.
  intros Hh. unfold neighbor_sum. f_equal.
  apply Forall_fmap_ext_1, Forall_forall. intros e (u & Hu)%elem_of_in_edges.
  unfold edge_src. rewrite Hu. simpl. rewrite Hh; [reflexivity|].
  by eapply list_elem_of_lookup_2.
Qed.

(** X13.  Message passing is local: with the message and reduce functions of
    the exercise's equations, the row that a layer [GCN(in_feats, out_feats)]
    returns for a node [v] with an in-edge depends only on the input rows of
    the sources of the edges into [v]; two inputs (one row of [in_feats]
    entries for each node) that agree on those rows give the same row for
    [v], whatever they hold for the other nodes. *)
Theorem layer_row_depends_on_in_neighbours (self : GCN T) g (x x' : list (list T)) v
    (in_feats out_feats : nat) :
  valid_graph g → no_messages g →
  GCN_shape self in_feats out_feats →
  length x = n_nodes g → tensor_width x in_feats →
  length x' = n_nodes g → tensor_width x' in_feats →
  in_edges g v ≠ [] →
  (∀ u, (u, v) ∈ all_edges g → x !! u = x' !! u) →
  ∃ g1 out g1' out',
    GCN_forward gcn_message_eq gcn_reduce_eq self g x = Returns (g1, out) ∧
    GCN_forward gcn_message_eq gcn_reduce_eq self g x' = Returns (g1', out') ∧
    out !! v = out' !! v ∧
    out !! v = Some (neighbor_sum g (Linear_forward (linear self) x) v).
Proof.
  intros Hv Hm _ Hlen _ Hlen' _ Hne Hx.
  destruct (GCN_forward_eq_returns self g x Hv Hm Hlen) as (out & Hout & _ & Hrows).
  destruct (GCN_forward_eq_returns self g x' Hv Hm Hlen') as (out' & Hout' & _ & Hrows').
  eexists _, out, _, out'. split; [exact Hout|]. split; [exact Hout'|].
  split; [|by apply Hrows].
  rewrite Hrows, Hrows' by exact Hne. f_equal.
  apply neighbor_sum_ext. intros u Hu. by apply Linear_forward_lookup, Hx.
Qed.

End LocalityFacts.

(** ** Inputs of the wrong shape *)

Section ErrorFacts.
Context {T : Type} `{!Scalar T}.
Implicit Types (g : DGLGraph T).

Lemma GCN_forward_wrong_rows (mfunc : message_func T) (rfunc : reduce_func T)
    (self : GCN T) g (x : list (list T)) :
  length x ≠ n_nodes g →
  GCN_forward mfunc rfunc self g x
    = Raises (DGLError (FeatNodesMismatch (length x) (n_nodes g))).
Proof.
  intros Hne. unfold GCN_forward, set_n_repr. cbv zeta.
  rewrite length_Linear_forward. unfold number_of_nodes.
  rewrite decide_False by exact Hne. reflexivity.
Qed.

Lemma length_torch_eye n : length (torch_eye (T:=T) n) = n.
Proof. unfold torch_eye. by rewrite length_fmap, length_seq. Qed.

Lemma torch_eye_width n : tensor_width (torch_eye (T:=T) n) n.
Proof.
  unfold tensor_width, torch_eye. apply Forall_fmap, Forall_forall.
  intros i _. simpl. by rewrite length_fmap, length_seq.
Qed.

(** X14.  [g.ndata['h'] = h] is the first thing [GCN.forward] does with the
    graph, so an input of the layer's width that does not have one row for
    each node makes the layer, and the network, raise the [DGLError] of the
    feature assignment, whatever [gcn_message] and [gcn_reduce] are bound to
    (the stubs that are shipped included): no message function is called. *)
Theorem forward_wrong_rows_raises (mfunc : message_func T) (rfunc : reduce_func T)
    g (x : list (list T)) (in_feats : nat) :
  length x ≠ n_nodes g → tensor_width x in_feats →
  (∀ (self : GCN T) out_feats,
     GCN_shape self in_feats out_feats →
     GCN_forward mfunc rfunc self g x
       = Raises (DGLError (FeatNodesMismatch (length x) (n_nodes g)))) ∧
  (∀ (self : Net T) hidden_size num_classes,
     Net_shape self in_feats hidden_size num_classes →
     Net_forward mfunc rfunc self g x
       = Raises (DGLError (FeatNodesMismatch (length x) (n_nodes g)))).
Proof.
  intros Hne _. split.
  - intros self out_feats _. by apply GCN_forward_wrong_rows.
  - intros self hidden_size num_classes _. unfold Net_forward.
    by rewrite GCN_forward_wrong_rows.
Qed.

End ErrorFacts.

(** ** Featureless inputs *)

Section EyeFacts.
Context {T : Type} `{!Scalar T}.

Local Abbreviation one_hot i := (λ j : nat, if decide (i = j) then tone else tzero).

(** Past the one of a one-hot row every product is 0 * y. *)
Lemma dot_scan_past i m s (w : list T) acc :
  i < s →
  (∀ y, y ∈ w → tadd acc (tmul tzero y) = acc) →
  foldl tadd acc (zip_with tmul (one_hot i <$> seq s m) w) = acc.
Proof.
  revert s w. induction m as [|m IH]; intros s w Hi Hacc; [reflexivity|].
  destruct w as [|y w]; [reflexivity|]. simpl.
  rewrite decide_False by lia. rewrite Hacc by left.
  apply IH; [lia|]. intros y' Hy'. apply Hacc. by right.
Qed.

(** Up to the one the sum stays 0, at the one it becomes the entry. *)
Lemma dot_scan_at i m s (w : list T) w_i :
  s ≤ i < s + m → w !! (i - s) = Some w_i →
  (∀ y, y ∈ w → tadd tzero (tmul tzero y) = tzero) →
  tadd tzero (tmul tone w_i) = w_i →
  (∀ y, y ∈ w → tadd w_i (tmul tzero y) = w_i) →
  foldl tadd tzero (zip_with tmul (one_hot i <$> seq s m) w) = w_i.
Proof.
  revert s w. induction m as [|m IH]; intros s w Hi Hw H0 H1 H2; [lia|].
  destruct w as [|y w]; [done|]. simpl.
  destruct (decide (i = s)) as [->|Hne].
  - rewrite Nat.sub_diag in Hw. injection Hw as ->. rewrite H1.
    apply dot_scan_past; [lia|]. intros y' Hy'. apply H2. by right.
  - rewrite H0 by left. apply IH; [lia | | | exact H1 |].
    + replace (i - s) with (S (i - S s)) in Hw by lia. exact Hw.
    + intros y' Hy'. apply H0. by right.
    + intros y' Hy'. apply H2. by right.
Qed.

End EyeFacts.

(** X15.  "Featureless inputs": with [inputs = torch.eye(n)] the linear
    transformation of a layer [nn.Linear(n, out_features)] gives node [i]
    column [i] of the weight matrix plus the bias, h[i][j] = W[j][i] + b[j].
    This is for a weight matrix on whose entries the sum of the products is
    exact: 0 + 0 * y = 0, 0 + 1 * y = y and y + 0 * y' = y for the entries
    y, y' of a row (nothing is asked of the other scalars; the integers
    satisfy it, and so do the finite floating-point numbers other than the
    negative zero, for which 0 * y is a zero that the sum absorbs). *)
Theorem featureless_first_layer {T : Type} `{!Scalar T} (l : Linear T)
    (n out_features i : nat) :
  Linear_shape l n out_features → i < n →
  (∀ w y, w ∈ weight l → y ∈ w →
     tadd tzero (tmul tzero y) = tzero ∧ tadd tzero (tmul tone y) = y) →
  (∀ w y y', w ∈ weight l → y ∈ w → y' ∈ w → tadd y (tmul tzero y') = y) →
  ∃ h_i,
    Linear_forward l (torch_eye n) !! i = Some h_i ∧
    length h_i = out_features ∧
    ∀ j w b, weight l !! j = Some w → bias l !! j = Some b →
      ∃ w_ji, w !! i = Some w_ji ∧ h_i !! j = Some (tadd w_ji b).
Proof.
  intros (Hw & Hwidth & Hb) Hi H1 H2.
  unfold Linear_forward, torch_eye.
  rewrite !list_lookup_fmap, lookup_seq_lt by done. simpl.
  eexists. split; [reflexivity|]. split.
  - rewrite length_zip_with, length_fmap. lia.
  - intros j w b Hjw Hjb.
    pose proof (Forall_lookup_1 _ _ _ _ Hwidth Hjw) as Hlen. simpl in Hlen.
    destruct (lookup_lt_is_Some_2 w i) as [w_ji Hji]; [lia|].
    assert (w ∈ weight l) as Hin by (by eapply list_elem_of_lookup_2).
    assert (w_ji ∈ w) as Hin' by (by eapply list_elem_of_lookup_2).
    exists w_ji. split; [exact Hji|].
    rewrite lookup_zip_with, list_lookup_fmap, Hjw, Hjb. simpl. do 2 f_equal.
    unfold dot. apply dot_scan_at.
    + lia.
    + by rewrite Nat.sub_0_r.
    + intros y Hy. by apply (H1 w y).
    + by apply (H1 w w_ji).
    + intros y Hy. by apply (H2 w).
Qed.

(** ** The training loop *)

Section LoopFacts.
Context {T : Type} `{!Scalar T}.
Variable mfunc : message_func T.
Variable rfunc : reduce_func T.
Variable log_softmax_row : list T → list T.
Variable nll_loss : list (list T) → list nat → T.
Variables Grads OptState : Type.
Variable backward : (Net T → outcome T) → Net T → Grads.
Variable optim_init : OptimAlgo → Net T → OptState.
Variable optim_step : Optimizer OptState → Net T → Grads → Optimizer OptState * Net T.
Variable GG : DGLGraph T.
Variable net0 : Net T.

Local Abbreviation net_call := (Net_forward mfunc rfunc).
Local Abbreviation loss_of := (compute_loss log_softmax_row nll_loss).
Local Abbreviation body :=
  (epoch_body mfunc rfunc log_softmax_row nll_loss Grads backward OptState optim_step).
Local Abbreviation state0 := (initial_state OptState optim_init GG net0).
(** The loop has no handler: once an iteration has raised, the loop raises. *)
Lemma for_range_raises
    (f : nat → TrainState T OptState → outcome (TrainState T OptState)) k n s sk e :
  k < n → for_range k f s = Returns sk → f k sk = Raises e →
  for_range n f s = Raises e.
Proof.
  intros Hk Hsk He. induction n as [|n IH]; [lia|].
  rewrite for_range_S. destruct (decide (k = n)) as [->|Hne].
  - rewrite Hsk. exact He.
  - rewrite IH by lia. reflexivity.
Qed.

(** What holds at the start and is kept by every iteration that returns
    holds when the loop returns. *)
Lemma for_range_invariant
    (f : nat → TrainState T OptState → outcome (TrainState T OptState))
    (P : TrainState T OptState → Prop) n s s' :
  P s → (∀ i s1 s2, P s1 → f i s1 = Returns s2 → P s2) →
  for_range n f s = Returns s' → P s'.
Proof.
  intros H0 Hstep. revert s'. induction n as [|n IH]; intros s' H.
  - unfold for_range in H. simpl in H. by injection H as <-.
  - rewrite for_range_S in H. inv_bind H. eapply Hstep; [|exact H]. by apply IH.
Qed.

(** The states the loop goes through, and what each iteration records. *)
Lemma for_range_records n s :
  for_range n body state0 = Returns s →
  length (all_logits s) = n ∧ length (printed s) = n ∧
  ∀ k, k < n →
    ∃ sk g logits loss,
      for_range k body state0 = Returns sk ∧
      net_call (ts_net sk) (ts_graph sk) inputs = Returns (g, logits) ∧
      loss_of logits = Returns loss ∧
      all_logits s !! k = Some logits ∧
      printed s !! k = Some (k, loss).
Proof.
  revert s. induction n as [|n IH]; intros s H.
  - unfold for_range in H. simpl in H. injection H as <-.
    split; [reflexivity|]. split; [reflexivity|]. intros k Hk. lia.
  - rewrite for_range_S in H. inv_bind H. rename a into sn.
    destruct (IH sn Ha) as (Hl & Hp & Hrec).
    apply epoch_body_Returns in H as (g & logits & loss & Hcall & Hloss & ->).
    cbn [all_logits printed].
    split; [rewrite length_app; simpl; lia|].
    split; [rewrite length_app; simpl; lia|].
    intros k Hk. destruct (decide (k = n)) as [->|Hne].
    + exists sn, g, logits, loss.
      split; [exact Ha|]. split; [exact Hcall|]. split; [exact Hloss|].
      split.
      * rewrite lookup_app_r by lia. by rewrite Hl, Nat.sub_diag.
      * rewrite lookup_app_r by lia. by rewrite Hp, Nat.sub_diag.
    + destruct (Hrec k) as (sk & gk & lk & lossk & H1 & H2 & H3 & H4 & H5); [lia|].
      exists sk, gk, lk, lossk.
      split; [exact H1|]. split; [exact H2|]. split; [exact H3|].
      split; rewrite lookup_app_l by lia; done.
Qed.

Lemma epoch_body_wrong_graph epoch (s : TrainState T OptState) :
  n_nodes (ts_graph s) ≠ 34 →
  body epoch s = Raises (DGLError (FeatNodesMismatch 34 (n_nodes (ts_graph s)))).
Proof.
  intros Hn. unfold epoch_body, Net_forward.
  rewrite GCN_forward_wrong_rows by (unfold inputs; by rewrite length_torch_eye).
  unfold inputs. rewrite length_torch_eye. reflexivity.
Qed.

(** X16.  The training cell on a graph that does not have 34 nodes: the
    first call [net(GG, inputs)] raises the [DGLError] of the feature
    assignment (34 rows of [torch.eye(34)] against the graph's nodes), and
    the loop, which has no handler, ends with that exception in epoch 0,
    whatever the message and reduce functions, the parameters of the network
    [Net(34, hidden_size, num_classes)] and the optimizer are. *)
Theorem training_wrong_graph_raises (hidden_size num_classes : nat) :
  n_nodes GG ≠ 34 → Net_shape net0 34 hidden_size num_classes →
  train mfunc rfunc log_softmax_row nll_loss Grads backward OptState
    optim_init optim_step GG net0
  = Raises (DGLError (FeatNodesMismatch 34 (n_nodes GG))).
Proof.
  intros Hn _. unfold train.
  apply (for_range_raises body 0 30 state0 state0); [lia | reflexivity|].
  by apply epoch_body_wrong_graph.
Qed.

(** X17.  Training does not change the graph: when [GG] is well formed, has
    no waiting message and no node feature ['h'], and the reduce function
    returns no field other than ['h'], the graph after the 30 epochs is [GG]
    as it was before the loop. *)
Theorem training_leaves_graph_as_found (s : TrainState T OptState) :
  valid_graph GG → no_messages GG → node_frame GG !! "h" = None →
  (∀ nb d k, rfunc nb = Returns (Some d) → k ≠ "h" → d !! k = None) →
  train mfunc rfunc log_softmax_row nll_loss Grads backward OptState
    optim_init optim_step GG net0 = Returns s →
  ts_graph s = GG.
Proof.
  intros Hv Hm Hnone Hr H. unfold train in H.
  apply (for_range_invariant body (λ s, ts_graph s = GG) 30 state0 s);
    [reflexivity | | exact H].
  intros i s1 s2 Hs1 (g & logits & loss & Hcall & _ & ->)%epoch_body_Returns.
  cbn [ts_graph]. rewrite Hs1 in Hcall.
  by eapply Net_forward_same_graph.
Qed.

(** X18.  What the loop records: entry [k] of [all_logits] is the output of
    the network with the parameters it has at the start of epoch [k], before
    that epoch's [optimizer.step()], and line [k] of the printed losses is
    epoch [k] with the loss of those logits.  So [all_logits[0]] is the
    output of the untrained network, and the parameters that the last step
    produces are never evaluated. *)
Theorem recorded_logits_precede_step (s : TrainState T OptState) :
  train mfunc rfunc log_softmax_row nll_loss Grads backward OptState
    optim_init optim_step GG net0 = Returns s →
  (∃ g logits0,
     net_call net0 GG inputs = Returns (g, logits0) ∧
     all_logits s !! 0 = Some logits0) ∧
  ∀ k, k < 30 →
    ∃ sk g logits loss,
      for_range k body state0 = Returns sk ∧
      net_call (ts_net sk) (ts_graph sk) inputs = Returns (g, logits) ∧
      loss_of logits = Returns loss ∧
      all_logits s !! k = Some logits ∧
      printed s !! k = Some (k, loss).
Proof.
  intros H. unfold train in H.
  destruct (for_range_records 30 s H) as (_ & _ & Hrec). split; [|exact Hrec].
  destruct (Hrec 0) as (s0 & g & logits & loss & Hs0 & Hcall & _ & Hl & _); [lia|].
  unfold for_range in Hs0. simpl in Hs0. injection Hs0 as <-.
  by exists g, logits.
Qed.

End LoopFacts.

(** ** The visualization cell *)

Section DrawFacts.
Context {T : Type}.
Variable tltb : T → T → bool.
Implicit Types (logits : list (list T)).

Local Abbreviation draw_loop logits n :=
  (foldl (λ r v, match r with
                 | inl e => inl e
                 | inr st => draw_node tltb logits st v
                 end) (inr (∅, [])) (seq 0 n)).

(** The scan answers 0 exactly when no later element beats the first. *)
Lemma argmax_scan_zero b k j (xs : list T) :
  0 < j →
  (foldl (argmax_step tltb) (b, k, j) xs).1.2 = 0 ↔
  k = 0 ∧ forallb (λ y, negb (tltb b y)) xs = true.
Proof.
  revert b k j. induction xs as [|y xs IH]; intros b k j Hj; simpl.
  - tauto.
  - destruct (tltb b y) eqn:Hby; simpl.
    + rewrite IH by lia. split; [lia | intros [_ [=]]].
    + by rewrite IH by lia.
Qed.

Lemma argmax_scan_lt b k j (xs : list T) :
  k < j → (foldl (argmax_step tltb) (b, k, j) xs).1.2 < j + length xs.
Proof.
  revert b k j. induction xs as [|y xs IH]; intros b k j Hj; simpl; [lia|].
  destruct (tltb b y); simpl.
  - specialize (IH y j (S j)). lia.
  - specialize (IH b k (S j)). lia.
Qed.

Lemma np_argmax_inr (a : list T) cls :
  np_argmax tltb a = inr cls →
  ∃ x xs, a = x :: xs ∧ cls < length a ∧
          (cls = 0 ↔ forallb (λ y, negb (tltb x y)) xs = true).
Proof.
  destruct a as [|x xs]; [discriminate|]. intros [= <-].
  exists x, xs. split; [reflexivity|]. split.
  - pose proof (argmax_scan_lt x 0 1 xs). simpl. lia.
  - rewrite argmax_scan_zero by lia. tauto.
Qed.

Lemma draw_loop_S logits n :
  draw_loop logits (S n) =
    match draw_loop logits n with
    | inl e => inl e
    | inr st => draw_node tltb logits st n
    end.
Proof. by rewrite seq_S, foldl_app. Qed.

Lemma draw_loop_returns logits n :
  n ≤ length logits →
  (∀ v r, v < n → logits !! v = Some r → r ≠ []) →
  ∃ st, draw_loop logits n = inr st ∧
    length st.2 = n ∧
    (∀ v, v < n → st.1 !! v = logits !! v) ∧
    (∀ v, n ≤ v → st.1 !! v = None) ∧
    ∀ v x xs, v < n → logits !! v = Some (x :: xs) →
      st.2 !! v = Some (if forallb (λ y, negb (tltb x y)) xs
                        then cls2color else cls1color).
Proof.
  induction n as [|n IH]; intros Hn Hrows.
  - exists (∅, []). split; [reflexivity|]. split; [reflexivity|].
    split; [intros; lia|]. split; [intros; apply lookup_empty|]. intros; lia.
  - destruct IH as (st & Hst & Hlen & Hpos & Hout & Hcol);
      [lia | intros v r Hv; apply Hrows; lia|].
    rewrite draw_loop_S, Hst. unfold draw_node.
    destruct (lookup_lt_is_Some_2 logits n) as [r Hr]; [lia|]. rewrite Hr.
    destruct r as [|x xs]; [exfalso; by apply (Hrows n []); [lia | exact Hr |]|].
    destruct (np_argmax tltb (x :: xs)) as [e|cls] eqn:Hcls; [discriminate|].
    apply np_argmax_inr in Hcls as (x' & xs' & [= <- <-] & _ & Hzero).
    eexists. split; [reflexivity|]. cbn [fst snd].
    split; [rewrite length_app; simpl; lia|].
    split; [|split].
    + intros v Hv. destruct (decide (v = n)) as [->|Hne].
      * by rewrite lookup_insert_eq.
      * rewrite lookup_insert_ne by done. apply Hpos. lia.
    + intros v Hv. rewrite lookup_insert_ne by lia. apply Hout. lia.
    + intros v y ys Hv Hy. destruct (decide (v = n)) as [->|Hne].
      * rewrite lookup_app_r by lia. rewrite Hlen, Nat.sub_diag. simpl.
        rewrite Hr in Hy. injection Hy as <- <-. f_equal.
        destruct (decide (cls = 0)) as [Hc|Hc].
        -- apply Hzero in Hc. by rewrite Hc.
        -- destruct (forallb _ xs); [|reflexivity]. by destruct Hc; apply Hzero.
      * rewrite lookup_app_l by lia. apply Hcol; [lia | exact Hy].
Qed.

Lemma draw_loop_inr logits n st :
  draw_loop logits n = inr st →
  n ≤ length logits ∧ ∀ v r, v < n → logits !! v = Some r → r ≠ [].
Proof.
  revert st. induction n as [|n IH]; intros st H.
  - split; [lia | intros; lia].
  - rewrite draw_loop_S in H.
    destruct (draw_loop logits n) as [e|st'] eqn:Hst; [discriminate|].
    destruct (IH st' eq_refl) as [Hn Hrows].
    unfold draw_node in H.
    destruct (logits !! n) as [r|] eqn:Hr; [|discriminate].
    apply lookup_lt_Some in Hr as Hlt. split; [lia|].
    intros v r' Hv Hr'. destruct (decide (v = n)) as [->|Hne].
    + rewrite Hr in Hr'. injection Hr' as <-.
      intros ->. discriminate.
    + apply (Hrows v); [lia | exact Hr'].
Qed.

(** X19.  [draw(i)] for a frame [i] of [all_logits] whose logits have at
    least 34 rows, none of them empty: it reaches the plotting call with the
    title's epoch [i], with [pos] holding exactly the nodes 0..33, node [v] at
    row [v] of the logits, and with 34 colours; node [v] gets '#FF00FF'
    ([cls2color]) when no entry of its row is greater than the first one
    ([np.argmax] is 0), and '#00FFFF' ([cls1color]) otherwise; with two
    classes, '#00FFFF' exactly when the logit of class 1 is strictly greater
    than the logit of class 0. *)
Theorem draw_colors_and_positions (all_logits : list (list (list T))) i logits :
  all_logits !! i = Some logits →
  34 ≤ length logits →
  (∀ v r, v < 34 → logits !! v = Some r → r ≠ []) →
  ∃ d, draw tltb all_logits i = inr d ∧
    title_epoch d = i ∧
    length (colors d) = 34 ∧
    (∀ v, v < 34 → pos d !! v = logits !! v) ∧
    (∀ v, 34 ≤ v → pos d !! v = None) ∧
    (∀ v x xs, v < 34 → logits !! v = Some (x :: xs) →
       colors d !! v = Some (if forallb (λ y, negb (tltb x y)) xs
                             then "#FF00FF" else "#00FFFF")) ∧
    (∀ v a b, v < 34 → logits !! v = Some [a; b] →
       colors d !! v = Some (if tltb a b then "#00FFFF" else "#FF00FF")).
Proof.
  intros Hi Hlen Hrows. unfold draw. rewrite Hi.
  destruct (draw_loop_returns logits 34 Hlen Hrows)
    as (st & -> & Hc & Hpos & Hout & Hcol).
  eexists. split; [reflexivity|]. simpl.
  split; [reflexivity|]. split; [exact Hc|]. split; [exact Hpos|].
  split; [exact Hout|]. split; [exact Hcol|].
  intros v a b Hv Hab. rewrite (Hcol v a [b] Hv Hab). simpl.
  by destruct (tltb a b).
Qed.

(** X20.  [FuncAnimation(fig, draw, frames=len(all_logits))] calls [draw] on
    0, ..., len(all_logits) - 1, one frame for each recorded epoch, so the
    index [all_logits[i]] is always in range; [draw(i)] reaches the plotting
    call exactly when frame [i] exists and its logits have at least 34 rows,
    the first 34 of them not empty; beyond the recorded epochs it raises
    [IndexError]. *)
Theorem animation_draws_frames (all_logits : list (list (list T))) :
  length (animation_frames tltb all_logits) = length all_logits ∧
  (∀ i, i < length all_logits →
     animation_frames tltb all_logits !! i = Some (draw tltb all_logits i)) ∧
  (∀ i, (∃ d, draw tltb all_logits i = inr d) ↔
        ∃ logits, all_logits !! i = Some logits ∧ 34 ≤ length logits ∧
                  ∀ v r, v < 34 → logits !! v = Some r → r ≠ []) ∧
  (∀ i, length all_logits ≤ i → draw tltb all_logits i = inl DrawIndexError).
Proof.
  split; [|split; [|split]].
  - unfold animation_frames. by rewrite length_fmap, length_seq.
  - intros i Hi. unfold animation_frames.
    by rewrite list_lookup_fmap, lookup_seq_lt.
  - intros i. split.
    + intros [d Hd]. unfold draw in Hd.
      destruct (all_logits !! i) as [logits|] eqn:Hl; [|discriminate].
      exists logits. split; [reflexivity|].
      destruct (draw_loop logits 34) as [e|st] eqn:Hst; [discriminate|].
      by apply draw_loop_inr in Hst.
    + intros (logits & Hl & Hlen & Hrows). unfold draw. rewrite Hl.
      destruct (draw_loop_returns logits 34 Hlen Hrows) as (st & -> & _).
      by eexists.
  - intros i Hi. unfold draw. by rewrite lookup_ge_None_2.
Qed.

End DrawFacts.

(** ** A graph without edges *)

Section EdgelessFacts.
Context {T : Type} `{!Scalar T}.
Implicit Types (g : DGLGraph T).

Lemma send_no_edges (mfunc : message_func T) g :
  number_of_edges g = 0 → send (edges g) mfunc g = Returns g.
Proof.
  intros HE. apply nil_length_inv in HE.
  unfold send, edge_ids, edges. rewrite HE. reflexivity.
Qed.

Lemma GCN_forward_no_edges (mfunc : message_func T) (rfunc : reduce_func T)
    (self : GCN T) g (x : list (list T)) :
  number_of_edges g = 0 → length x = n_nodes g →
  GCN_forward mfunc rfunc self g x
    = Returns (with_node_frame g (delete "h" (node_frame g)),
               Linear_forward (linear self) x).
Proof.
  intros HE Hlen. unfold GCN_forward.
  rewrite set_h_Returns by (by rewrite length_Linear_forward). simpl.
  rewrite send_no_edges by exact HE. simpl.
  rewrite recv_no_edges by exact HE. simpl.
  unfold pop_n_repr. simpl. rewrite lookup_insert_eq.
  unfold with_node_frame. simpl. by rewrite delete_insert_eq.
Qed.

(** X21.  On a graph without edges nothing is sent and nothing is received,
    so the message and reduce functions are never called (the stubs that are
    shipped do as well as any): on an input with one row of the layer's width
    for each node, [GCN.forward] returns [linear(inputs)] and [Net.forward]
    returns linear2(relu(linear1(inputs))), and the graph comes back without
    ['h'] and otherwise as it was. *)
Theorem forward_without_edges (mfunc : message_func T) (rfunc : reduce_func T)
    g (x : list (list T)) (in_feats : nat) :
  number_of_edges g = 0 → length x = n_nodes g → tensor_width x in_feats →
  (∀ (self : GCN T) out_feats,
     GCN_shape self in_feats out_feats →
     GCN_forward mfunc rfunc self g x
       = Returns (with_node_frame g (delete "h" (node_frame g)),
                  Linear_forward (linear self) x)) ∧
  (∀ (self : Net T) hidden_size num_classes,
     Net_shape self in_feats hidden_size num_classes →
     Net_forward mfunc rfunc self g x
       = Returns (with_node_frame g (delete "h" (node_frame g)),
                  Linear_forward (linear (gcn2 self))
                    (torch_relu (Linear_forward (linear (gcn1 self)) x)))).
Proof.
  intros HE Hlen _. split; [intros self out_feats _; by apply GCN_forward_no_edges|].
  intros self hidden_size num_classes _. unfold Net_forward.
  rewrite GCN_forward_no_edges by done. simpl.
  rewrite GCN_forward_no_edges;
    [| exact HE | unfold torch_relu; by rewrite length_fmap, length_Linear_forward].
  simpl. unfold with_node_frame. simpl. by rewrite delete_delete_eq.
Qed.

End EdgelessFacts.

(** ** The shape of the logits *)

Section LogitsShapeFacts.
Context {T : Type} `{!Scalar T}.
Implicit Types (g : DGLGraph T).

Lemma aggregate_rows g (h : list (list T)) c :
  valid_graph g → length h = n_nodes g → Forall (λ r, length r = c) h →
  (∀ v, v < n_nodes g → in_edges g v ≠ []) →
  Forall (λ r, length r = c) (aggregate g h).
Proof.
  intros Hv Hlen Hall Hin. unfold aggregate. apply Forall_fmap, Forall_forall.
  intros v Hvn%elem_of_seq. simpl. apply length_neighbor_sum; auto. apply Hin. lia.
Qed.

Lemma Net_forward_eq_shape (self : Net T) g (x : list (list T)) c :
  valid_graph g → no_messages g → node_frame g !! "h" = None →
  length x = n_nodes g →
  (∀ v, v < n_nodes g → in_edges g v ≠ []) →
  length (weight (linear (gcn2 self))) = c → length (bias (linear (gcn2 self))) = c →
  ∃ logits,
    Net_forward gcn_message_eq gcn_reduce_eq self g x = Returns (g, logits) ∧
    length logits = n_nodes g ∧ Forall (λ r, length r = c) logits.
Proof.
  intros Hv Hm Hnone Hlen Hin Hw Hb.
  assert (with_node_frame g (delete "h" (node_frame g)) = g) as Hsame.
  { unfold with_node_frame. by rewrite delete_id, graph_eta. }
  unfold Net_forward.
  rewrite GCN_forward_eq_aggregate, Hsame by done. simpl.
  rewrite GCN_forward_eq_aggregate, Hsame;
    [| done | done | unfold torch_relu; by rewrite length_fmap, length_aggregate | done].
  eexists. split; [reflexivity|]. split; [apply length_aggregate|].
  apply aggregate_rows; [done | | by apply Linear_forward_rows | done].
  rewrite length_Linear_forward. unfold torch_relu.
  by rewrite length_fmap, length_aggregate.
Qed.

(** X22.  The shape of the logits: with the message and reduce functions of
    the exercise's equations, on a well-formed graph without waiting messages
    and without ['h'] in which every node has an in-edge, a network
    [Net(in_feats, hidden_size, num_classes)] applied to an input with one
    row of [in_feats] entries for each node returns logits with one row for
    each node and exactly [num_classes] entries in every row. *)
Theorem logits_have_one_entry_per_class (self : Net T) g (x : list (list T))
    (in_feats hidden_size num_classes : nat) :
  valid_graph g → no_messages g → node_frame g !! "h" = None →
  Net_shape self in_feats hidden_size num_classes →
  length x = n_nodes g → tensor_width x in_feats →
  (∀ v, v < n_nodes g → in_edges g v ≠ []) →
  ∃ logits,
    Net_forward gcn_message_eq gcn_reduce_eq self g x = Returns (g, logits) ∧
    length logits = n_nodes g ∧ tensor_width logits num_classes.
Proof.
  intros Hv Hm Hnone [_ (Hw & _ & Hb)] Hlen _ Hin.
  by apply Net_forward_eq_shape.
Qed.

End LogitsShapeFacts.

(** ** From the training cell to the animation *)

Section EndToEnd.
Context {T : Type} `{!Scalar T}.
Variable tltb : T → T → bool.
Variable log_softmax_row : list T → list T.
Variable nll_loss : list (list T) → list nat → T.
Variables Grads OptState : Type.
Variable backward : (Net T → outcome T) → Net T → Grads.
Variable optim_init : OptimAlgo → Net T → OptState.
Variable optim_step : Optimizer OptState → Net T → Grads → Optimizer OptState * Net T.
Variable GG : DGLGraph T.
Variable net0 : Net T.

Local Abbreviation body :=
  (epoch_body gcn_message_eq gcn_reduce_eq log_softmax_row nll_loss Grads backward
     OptState optim_step).
Local Abbreviation state0 := (initial_state OptState optim_init GG net0).
Local Abbreviation shaped c :=
  (λ logits : list (list T), length logits = 34 ∧ Forall (λ r, length r = c) logits).

Lemma draw_shaped (al : list (list (list T))) i c :
  0 < c → i < length al → Forall (shaped c) al →
  ∃ d, draw tltb al i = inr d ∧ title_epoch d = i ∧ length (colors d) = 34.
Proof.
  intros Hc Hi Hall.
  destruct (lookup_lt_is_Some_2 al i Hi) as [logits Hl].
  destruct (Forall_lookup_1 _ _ _ _ Hall Hl) as [Hlen Hrows].
  unfold draw. rewrite Hl.
  destruct (draw_loop_returns tltb logits 34) as (st & -> & Hcol & _); [lia | |].
  - intros v r _ Hr. pose proof (Forall_lookup_1 _ _ _ _ Hrows Hr) as Hr'.
    simpl in Hr'. intros ->. simpl in Hr'. lia.
  - eexists. split; [reflexivity|]. split; [reflexivity | exact Hcol].
Qed.

(** X23.  The notebook from training to animation, with the exercise solved
    as its equations say: on a well-formed 34-node graph without waiting
    messages and without ['h'] in which every node has an in-edge (the
    bidirectional graph with self loops), with a network
    [Net(34, hidden_size, num_classes)] of at least one class and an
    optimizer whose step keeps the shape of the parameters, the training cell
    runs its 30 epochs to the end, leaves the graph as it was, records 30
    logits tensors of 34 rows with [num_classes] entries each, and every one
    of the 30 frames of the animation is drawn, with 34 colours. *)
Theorem animation_after_training (hidden_size num_classes : nat) :
  valid_graph GG → no_messages GG → node_frame GG !! "h" = None →
  n_nodes GG = 34 → (∀ v, v < 34 → in_edges GG v ≠ []) →
  Net_shape net0 34 hidden_size num_classes → 0 < num_classes →
  (∀ o net gr,
     Net_shape net 34 hidden_size num_classes →
     Net_shape (optim_step o net gr).2 34 hidden_size num_classes) →
  ∃ s,
    train gcn_message_eq gcn_reduce_eq log_softmax_row nll_loss Grads backward
      OptState optim_init optim_step GG net0 = Returns s ∧
    ts_graph s = GG ∧
    length (all_logits s) = 30 ∧
    Forall (λ logits, length logits = 34 ∧ tensor_width logits num_classes)
      (all_logits s) ∧
    length (animation_frames tltb (all_logits s)) = 30 ∧
    ∀ i, i < 30 →
      ∃ d, draw tltb (all_logits s) i = inr d ∧ title_epoch d = i ∧
           length (colors d) = 34.
Proof.
  intros Hv Hm Hnone Hn Hin Hnet Hc Hstep. unfold train.
  destruct (for_range_returns OptState body
              (λ i s, ts_graph s = GG ∧ Net_shape (ts_net s) 34 hidden_size num_classes ∧
                      length (all_logits s) = i ∧
                      Forall (shaped num_classes) (all_logits s))
              30 state0) as (s & Hs & Hg & _ & Hlen & Hall).
  - split; [reflexivity|]. split; [exact Hnet|]. split; [reflexivity | constructor].
  - intros i s _ (Hg & Hshape & Hlen & Hall).
    assert (length (inputs (T:=T)) = n_nodes GG) as Hinp
      by (unfold inputs; by rewrite length_torch_eye).
    assert (∀ v, v < n_nodes GG → in_edges GG v ≠ []) as Hin'
      by (intros v Hvn; apply Hin; lia).
    destruct Hshape as [Hs1 (Hw' & Hwd' & Hb')].
    destruct (Net_forward_eq_shape (ts_net s) GG inputs num_classes
                Hv Hm Hnone Hinp Hin' Hw' Hb')
      as (logits & Hcall & Hrows & Hwidth).
    rewrite Hn in Hrows.
    destruct (lookup_lt_is_Some_2 logits 0) as [r0 Hr0]; [lia|].
    destruct (lookup_lt_is_Some_2 logits 33) as [r33 Hr33]; [lia|].
    eexists. split.
    + apply epoch_body_Returns.
      exists GG, logits, (nll_loss [log_softmax_row r0; log_softmax_row r33] [0; 1]).
      split; [by rewrite Hg|]. split; [|reflexivity].
      apply compute_loss_Returns. eauto.
    + cbn [ts_graph ts_net all_logits].
      split; [reflexivity|]. split.
      { apply Hstep. exact (conj Hs1 (conj Hw' (conj Hwd' Hb'))). }
      split; [rewrite length_app; simpl; lia|].
      apply Forall_app. split; [exact Hall|]. by repeat constructor.
  - exists s. split; [exact Hs|]. split; [exact Hg|]. split; [exact Hlen|].
    split; [exact Hall|]. split.
    + unfold animation_frames. by rewrite length_fmap, length_seq.
    + intros i Hi. apply (draw_shaped _ _ num_classes); [exact Hc | lia | exact Hall].
Qed.

End EndToEnd.

(** ** The further properties on concrete graphs and tensors *)

Lemma cell3_wf : graph_wf (cell3 (T:=Q)).
Proof. apply graph_wf_add_nodes, graph_wf_empty. Qed.

Lemma g_pair_wf : graph_wf g_pair.
Proof.
  apply (graph_wf_add_edges (Ids [0; 0; 1; 1]) (Ids [0; 1; 0; 1])
           (add_nodes 2 empty_graph)); [|reflexivity].
  apply graph_wf_add_nodes, graph_wf_empty.
Qed.

Lemma g_pair_ready :
  valid_graph g_pair ∧ no_messages g_pair ∧ node_frame g_pair !! "h" = None ∧
  length x_demo = n_nodes g_pair.
Proof. repeat split; reflexivity. Qed.

Lemma layer_demo_shape : GCN_shape layer_demo 1 1.
Proof. repeat split; repeat constructor. Qed.

Lemma x_demo_width : tensor_width x_demo 1.
Proof. repeat constructor. Qed.

Lemma net_demo_shape : Net_shape net_demo 34 5 2.
Proof. repeat split; repeat constructor. Qed.

Lemma reduce_eq_only_h (nb : NodeBatch Q) d k :
  gcn_reduce_eq nb = Returns (Some d) → k ≠ "h" → d !! k = None.
Proof. apply reduce_eq_writes_h. Qed.

Lemma train_demo_returns :
  ∃ s, train gcn_message_eq gcn_reduce_eq log_softmax_row_demo nll_loss_demo
         unit backward_demo unit optim_init_demo optim_step_demo GG_demo net_demo
       = Returns s.
Proof.
  unfold train.
  destruct (for_range_returns unit epoch_body_demo (λ _ s, ts_graph s = GG_demo)
              30 initial_state_demo) as (s & Hs & _).
  - reflexivity.
  - intros i s _ Hg.
    destruct (net_demo_returns (ts_net s)) as (out & Hout & Hlen).
    destruct (lookup_lt_is_Some_2 out 0) as [r0 Hr0]; [rewrite Hlen; lia|].
    destruct (lookup_lt_is_Some_2 out 33) as [r33 Hr33]; [rewrite Hlen; lia|].
    eexists. split.
    + apply epoch_body_Returns.
      exists GG_demo, out,
        (nll_loss_demo [log_softmax_row_demo r0; log_softmax_row_demo r33] [0; 1]).
      split; [rewrite Hg; exact Hout|]. split; [|reflexivity].
      apply compute_loss_Returns. exists r0, r33.
      exact (conj Hr0 (conj Hr33 eq_refl)).
    + reflexivity.
  - by exists s.
Qed.

Lemma add_edges_broadcast_witness :
  add_edges (Ids [4; 5]) (Int 0) (cell3 (T:=Q))
    = Returns (append_edges ((λ w, (w, 0)) <$> [4; 5]) cell3) ∧
  add_edges (Int 6) (Ids [0; 4; 5]) (cell3 (T:=Q))
    = Returns (append_edges ((λ w, (6, w)) <$> [0; 4; 5]) cell3).
Proof.
  assert (Forall (λ w, w < n_nodes (cell3 (T:=Q))) [4; 5]) as H1
    by (repeat constructor; simpl; lia).
  assert (Forall (λ w, w < n_nodes (cell3 (T:=Q))) [0; 4; 5]) as H2
    by (repeat constructor; simpl; lia).
  assert (6 < n_nodes (cell3 (T:=Q))) as H3 by (simpl; lia).
  assert (0 < n_nodes (cell3 (T:=Q))) as H4 by (simpl; lia).
  destruct (add_edges_broadcast cell3 [4; 5] [0; 4; 5] 6 0 H1 H2 H3 H4)
    as (Ha & Hb & _).
  exact (conj Ha Hb).
Defined.

Lemma exercise_loop_adds_edge_list_witness :
  src_dst_of edge_list = (edge_list.*1, edge_list.*2) ∧
  cell8_of edge_list (cell3 (T:=Q)) = Returns (append_edges edge_list cell3).
Proof.
  assert (Forall (λ p, p.1 < n_nodes (cell3 (T:=Q)) ∧ p.2 < n_nodes (cell3 (T:=Q)))
            edge_list) as H.
  { apply forallb_valid_pair. vm_compute. reflexivity. }
  destruct (exercise_loop_adds_edge_list edge_list cell3 H) as (Ha & Hb & _).
  exact (conj Ha Hb).
Defined.

Lemma ndata_update_pop_round_trip_witness :
  set_n_repr "another_feat" [[1]; [2]]%Q ALL g_pair ≫= pop_n_repr "another_feat"
    = Returns (g_pair, [[1]; [2]]%Q) ∧
  pop_n_repr "another_feat" g_pair = Raises (KeyError "another_feat").
Proof.
  destruct (ndata_update_pop_round_trip g_pair "another_feat" [[1]; [2]]%Q
              eq_refl eq_refl) as (Ha & Hb & _).
  exact (conj Ha Hb).
Defined.

Lemma partial_assignments_of_cell12_witness :
  ∃ G' feat',
    cell12 G_demo = Returns G' ∧
    node_frame G' !! "feat" = Some feat' ∧
    feat' !! 0 = Some (replicate 5 0%Q) ∧
    feat' !! 12 = Some (replicate 5 (tmul tone (tlit 2))) ∧
    feat' !! 1 = default [] (node_frame G_demo !! "feat") !! 1.
Proof.
  assert (node_frame G_demo !! "feat" = Some (default [] (node_frame G_demo !! "feat")))
    as H1 by (vm_compute; reflexivity).
  assert (13 ≤ length (default [] (node_frame G_demo !! "feat"))) as H2
    by (vm_compute; lia).
  assert (13 ≤ n_nodes G_demo) as H3 by (vm_compute; lia).
  assert (1 ∉ [0; 2; 3; 10; 11; 12]) as H4 by (by apply (bool_decide_unpack _)).
  assert (tensor_width (default [] (node_frame G_demo !! "feat")) 5) as H5.
  { unfold tensor_width. apply (bool_decide_unpack _). vm_compute. reflexivity. }
  destruct (partial_assignments_of_cell12 G_demo _ H1 H2 H5 H3)
    as (G' & feat' & Hc & Hf & _ & R0 & _ & _ & _ & _ & R12 & Hout & _).
  exists G', feat'.
  exact (conj Hc (conj Hf (conj R0 (conj R12 (Hout 1 H4))))).
Defined.

Lemma broness_cell_rerun_witness :
  cell14 g_pair = Returns g_pair_broness ∧
  cell14 g_pair_broness = Returns g_pair_broness.
Proof.
  assert (cell14 g_pair = Returns g_pair_broness) as H by (vm_compute; reflexivity).
  exact (conj H (broness_cell_rerun g_pair g_pair_broness H)).
Defined.

Lemma broness_noise_update_witness :
  ∃ G' broness',
    cell15 rng_demo g_pair_broness = Returns G' ∧
    edge_frame G' = <["broness" := broness']> (edge_frame g_pair_broness) ∧
    broness' !! 1 = Some [tadd 1%Q (rng_demo 3 1 0)].
Proof.
  assert (edge_frame g_pair_broness !! "broness"
          = Some [[1 # 2]; [1]; [1 # 2]; [1]]%Q) as H1 by (vm_compute; reflexivity).
  assert (length [[1 # 2]; [1]; [1 # 2]; [1]]%Q = number_of_edges g_pair_broness)
    as H2 by reflexivity.
  assert (Forall (λ r : list Q, length r = 1) [[1 # 2]; [1]; [1 # 2]; [1]]%Q) as H3
    by (repeat constructor).
  destruct (broness_noise_update rng_demo g_pair_broness _ H1 H2 H3)
    as (G' & b' & Hc & Hf & _ & Hrow & _).
  exists G', b'. exact (conj Hc (conj Hf (Hrow 1 1%Q eq_refl))).
Defined.

Lemma graph_building_keeps_shape_witness :
  graph_wf (cell3 (T:=Q)) ∧ graph_wf (add_nodes 1 (cell3 (T:=Q))) ∧
  ∃ g', add_edge 1 0 (cell3 (T:=Q)) = Returns g' ∧ graph_wf g'.
Proof.
  destruct (graph_building_keeps_shape cell3 cell3_wf) as (_ & Ha & Hb & _).
  split; [exact cell3_wf|]. split; [exact (Ha 1)|].
  eexists. split; [reflexivity|]. exact (Hb 1 0 _ eq_refl).
Defined.

Lemma feature_assignment_keeps_shape_witness :
  ∃ g', set_n_repr "feat" [[1]; [2]]%Q ALL g_pair = Returns g' ∧ graph_wf g'.
Proof.
  destruct (feature_assignment_keeps_shape g_pair g_pair_wf) as (Ha & _).
  eexists. split; [reflexivity|].
  exact (Ha "feat" [[1]; [2]]%Q ALL _ eq_refl).
Defined.

Lemma forward_shipped_demo :
  GCN_forward gcn_message gcn_reduce layer_demo g_pair x_demo
    = Returns (g_pair, [[1]; [1]]%Q) ∧
  Net_forward gcn_message gcn_reduce (mkNet layer_demo layer_demo) g_pair x_demo
    = Returns (g_pair, [[1]; [1]]%Q).
Proof. split; vm_compute; reflexivity. Qed.

Lemma forward_returns_one_row_per_node_witness :
  ∃ g' out,
    GCN_forward gcn_message gcn_reduce layer_demo g_pair x_demo = Returns (g', out) ∧
    graph_wf g' ∧ n_nodes g' = n_nodes g_pair ∧ length out = n_nodes g_pair.
Proof.
  destruct forward_shipped_demo as [Hout _].
  destruct (forward_returns_one_row_per_node gcn_message gcn_reduce
              g_pair g_pair_wf) as (_ & _ & Hc & _).
  exists g_pair, [[1]; [1]]%Q.
  exact (conj Hout (Hc layer_demo x_demo g_pair _ Hout)).
Defined.

Lemma forward_leaves_graph_as_found_witness :
  ∃ g' out,
    Net_forward gcn_message gcn_reduce (mkNet layer_demo layer_demo) g_pair x_demo
      = Returns (g', out) ∧
    g' = g_pair.
Proof.
  destruct g_pair_ready as (H1 & H2 & H3 & H4).
  destruct forward_shipped_demo as [_ Hout].
  assert (∀ (nb : NodeBatch Q) d k,
            gcn_reduce nb = Returns (Some d) → k ≠ "h" → d !! k = None) as Hr
    by (intros nb d k Hd; discriminate).
  destruct (forward_leaves_graph_as_found gcn_message gcn_reduce g_pair
              H1 H2 H3 Hr) as (_ & Hb).
  exists g_pair, [[1]; [1]]%Q.
  exact (conj Hout (Hb (mkNet layer_demo layer_demo) x_demo g_pair _ Hout)).
Defined.

Lemma forward_closed_form_witness :
  Net_forward gcn_message_eq gcn_reduce_eq (mkNet layer_demo layer_demo) g_pair x_demo
    = Returns (g_pair,
               aggregate g_pair
                 (Linear_forward (linear layer_demo)
                    (torch_relu
                       (aggregate g_pair (Linear_forward (linear layer_demo) x_demo))))) ∧
  aggregate g_pair (Linear_forward (linear layer_demo) x_demo) = [[1 + 1]; [1 + 1]]%Q.
Proof.
  destruct g_pair_ready as (H1 & H2 & H3 & H4).
  assert (∀ v, v < n_nodes g_pair → in_edges g_pair v ≠ []) as H5.
  { intros v Hv. change (n_nodes g_pair) with 2 in Hv.
    destruct v as [|[|v]]; [vm_compute; discriminate | vm_compute; discriminate | lia]. }
  destruct (forward_closed_form (mkNet layer_demo layer_demo) g_pair x_demo 1 1 1
              H1 H2 H3 (conj layer_demo_shape layer_demo_shape) H4 x_demo_width H5)
    as (_ & Hb).
  split; [exact Hb | vm_compute; reflexivity].
Defined.

Lemma forward_wrong_rows_raises_witness :
  GCN_forward gcn_message gcn_reduce layer_demo g_pair [[1%Q]]
    = Raises (DGLError (FeatNodesMismatch (length [[1%Q]]) (n_nodes g_pair))).
Proof.
  assert (length [[1%Q]] ≠ n_nodes g_pair) as H by (vm_compute; lia).
  assert (tensor_width [[1%Q]] 1) as Hw by (repeat constructor).
  exact (proj1 (forward_wrong_rows_raises gcn_message gcn_reduce g_pair [[1%Q]] 1 H Hw)
           layer_demo 1 layer_demo_shape).
Defined.

Lemma featureless_first_layer_witness :
  ∃ h_33,
    Linear_forward (linear (gcn1 net_demo)) (torch_eye 34) !! 33 = Some h_33 ∧
    length h_33 = 5 ∧
    ∃ w_0_33, replicate 34 1%Q !! 33 = Some w_0_33 ∧
              h_33 !! 0 = Some (tadd w_0_33 0%Q).
Proof.
  assert (Linear_shape (linear (gcn1 net_demo)) 34 5) as H1
    by (repeat split; repeat constructor).
  assert (33 < 34) as H2 by lia.
  assert (∀ (w : list Q) (y : Q), w ∈ weight (linear (gcn1 net_demo)) → y ∈ w → y = 1%Q)
    as Hone.
  { intros w y Hw Hy. apply elem_of_replicate in Hw as [-> _].
    by apply elem_of_replicate in Hy as [-> _]. }
  assert (∀ (w : list Q) (y : Q), w ∈ weight (linear (gcn1 net_demo)) → y ∈ w →
            tadd tzero (tmul tzero y) = tzero ∧ tadd tzero (tmul tone y) = y) as H3.
  { intros w y Hw Hy. rewrite (Hone w y Hw Hy). split; reflexivity. }
  assert (∀ (w : list Q) (y y' : Q), w ∈ weight (linear (gcn1 net_demo)) →
            y ∈ w → y' ∈ w → tadd y (tmul tzero y') = y) as H4.
  { intros w y y' Hw Hy Hy'. rewrite (Hone w y Hw Hy), (Hone w y' Hw Hy'). reflexivity. }
  destruct (featureless_first_layer (linear (gcn1 net_demo)) 34 5 33 H1 H2 H3 H4)
    as (h_33 & Hrow & Hlen & Hentry).
  exists h_33.
  exact (conj Hrow (conj Hlen (Hentry 0 (replicate 34 1%Q) 0%Q eq_refl eq_refl))).
Defined.

Lemma training_wrong_graph_raises_witness :
  train gcn_message gcn_reduce log_softmax_row_demo nll_loss_demo
    unit backward_demo unit optim_init_demo optim_step_demo g_pair net_demo
  = Raises (DGLError (FeatNodesMismatch 34 (n_nodes g_pair))).
Proof.
  assert (n_nodes g_pair ≠ 34) as H by (vm_compute; lia).
  exact (training_wrong_graph_raises gcn_message gcn_reduce log_softmax_row_demo
           nll_loss_demo unit unit backward_demo optim_init_demo optim_step_demo
           g_pair net_demo 5 2 H net_demo_shape).
Defined.

Lemma train_shipped_demo_returns :
  ∃ s, train gcn_message gcn_reduce log_softmax_row_demo nll_loss_demo
         unit backward_demo unit optim_init_demo optim_step_demo GG_demo net_demo
       = Returns s.
Proof.
  destruct GG_demo_ready as (H1 & H2 & H3 & H4 & H5).
  destruct (training_loop_returns gcn_message gcn_reduce log_softmax_row_demo
              nll_loss_demo unit unit backward_demo optim_init_demo optim_step_demo
              GG_demo net_demo (λ g, g = GG_demo) (λ _, True) (λ _, True))
    as (s & Hs & _); [reflexivity | done | done | | by exists s].
  intros net g -> _. eexists GG_demo, _. split.
  - rewrite Net_forward_shipped by done. reflexivity.
  - split; [reflexivity|]. split; [|done].
    rewrite length_Linear_forward. unfold torch_relu.
    rewrite length_fmap, length_Linear_forward, H4, H5. lia.
Qed.

Lemma training_leaves_graph_as_found_witness :
  ∃ s,
    train gcn_message gcn_reduce log_softmax_row_demo nll_loss_demo
      unit backward_demo unit optim_init_demo optim_step_demo GG_demo net_demo
      = Returns s ∧
    ts_graph s = GG_demo.
Proof.
  destruct GG_demo_ready as (H1 & H2 & H3 & _).
  destruct train_shipped_demo_returns as [s Hs].
  assert (∀ (nb : NodeBatch Q) d k,
            gcn_reduce nb = Returns (Some d) → k ≠ "h" → d !! k = None) as Hr
    by (intros nb d k Hd; discriminate).
  exists s.
  exact (conj Hs (training_leaves_graph_as_found gcn_message gcn_reduce
                    log_softmax_row_demo nll_loss_demo unit unit backward_demo
                    optim_init_demo optim_step_demo GG_demo net_demo s
                    H1 H2 H3 Hr Hs)).
Defined.

Lemma recorded_logits_precede_step_witness :
  ∃ s g logits0,
    train gcn_message_eq gcn_reduce_eq log_softmax_row_demo nll_loss_demo
      unit backward_demo unit optim_init_demo optim_step_demo GG_demo net_demo
      = Returns s ∧
    Net_forward gcn_message_eq gcn_reduce_eq net_demo GG_demo inputs
      = Returns (g, logits0) ∧
    all_logits s !! 0 = Some logits0.
Proof.
  destruct train_demo_returns as [s Hs].
  destruct (recorded_logits_precede_step gcn_message_eq gcn_reduce_eq
              log_softmax_row_demo nll_loss_demo unit unit backward_demo
              optim_init_demo optim_step_demo GG_demo net_demo s Hs)
    as ((g & logits0 & Hcall & Hl) & _).
  exists s, g, logits0. exact (conj Hs (conj Hcall Hl)).
Defined.

Lemma logits_demo_rows :
  [logits_demo] !! 0 = Some logits_demo ∧ 34 ≤ length logits_demo ∧
  ∀ v r, v < 34 → logits_demo !! v = Some r → r ≠ [].
Proof.
  split; [reflexivity|]. split; [vm_compute; lia|].
  intros v r _ Hr. unfold logits_demo in Hr. rewrite list_lookup_fmap in Hr.
  destruct (seq 0 34 !! v); simpl in Hr; [|discriminate].
  injection Hr as <-. discriminate.
Qed.

Lemma draw_colors_and_positions_witness :
  ∃ d, draw Qltb [logits_demo] 0 = inr d ∧
    length (colors d) = 34 ∧
    colors d !! 0 = Some (if Qltb (inject_Z (Z.of_nat 0)) 16 then "#00FFFF" else "#FF00FF") ∧
    colors d !! 33 = Some (if Qltb (inject_Z (Z.of_nat 33)) 16 then "#00FFFF" else "#FF00FF").
Proof.
  destruct logits_demo_rows as (H1 & H2 & H3).
  assert (0 < 34) as Ha by lia. assert (33 < 34) as Hb by lia.
  destruct (draw_colors_and_positions Qltb [logits_demo] 0 logits_demo H1 H2 H3)
    as (d & Hd & _ & Hlen & _ & _ & _ & Hcol).
  exists d.
  exact (conj Hd (conj Hlen (conj (Hcol 0 _ _ Ha eq_refl) (Hcol 33 _ _ Hb eq_refl)))).
Defined.

Lemma animation_draws_frames_witness :
  length (animation_frames Qltb [logits_demo]) = length [logits_demo] ∧
  (∃ d, draw Qltb [logits_demo] 0 = inr d) ∧
  draw Qltb [logits_demo] 1 = inl DrawIndexError.
Proof.
  destruct logits_demo_rows as (H1 & H2 & H3).
  assert (length [logits_demo] ≤ 1) as Hge by (simpl; lia).
  destruct (animation_draws_frames Qltb [logits_demo]) as (Ha & _ & Hb & Hc).
  split; [exact Ha|]. split; [|exact (Hc 1 Hge)].
  apply Hb. exists logits_demo. exact (conj H1 (conj H2 H3)).
Defined.

Lemma predecessors_select_in_edges_witness :
  ∃ eid, edge_ids g_pair (predecessors g_pair 0) [0] = Returns eid ∧
         NoDup eid ∧ length eid = in_degree g_pair 0.
Proof.
  assert (valid_graph g_pair) as Hv by reflexivity.
  destruct (predecessors_select_in_edges g_pair 0 Hv)
    as (_ & _ & eid & Heid & Hnd & _ & Hlen).
  exists eid. exact (conj Heid (conj Hnd Hlen)).
Defined.

Lemma layer_row_depends_on_in_neighbours_witness :
  ∃ g1 out g1' out',
    GCN_forward gcn_message_eq gcn_reduce_eq (gcn1 net_demo) GG_demo inputs
      = Returns (g1, out) ∧
    GCN_forward gcn_message_eq gcn_reduce_eq (gcn1 net_demo) GG_demo
        (<[33 := replicate 34 7%Q]> inputs) = Returns (g1', out') ∧
    out !! 0 = out' !! 0.
Proof.
  destruct GG_demo_ready as (H1 & H2 & _ & H4 & _).
  assert (length (<[33 := replicate 34 7%Q]> (inputs (T:=Q))) = n_nodes GG_demo) as H5
    by (rewrite length_insert; exact H4).
  assert (tensor_width (inputs (T:=Q)) 34) as Hw by apply torch_eye_width.
  assert (tensor_width (<[33 := replicate 34 7%Q]> (inputs (T:=Q))) 34) as Hw'.
  { apply Forall_insert; [exact Hw | apply length_replicate]. }
  assert (in_edges GG_demo 0 ≠ []) as H6 by (vm_compute; discriminate).
  assert (∀ u, (u, 0) ∈ all_edges GG_demo →
               inputs (T:=Q) !! u = <[33 := replicate 34 7%Q]> (inputs (T:=Q)) !! u) as H7.
  { intros u Hu. rewrite list_lookup_insert_ne; [reflexivity|].
    intros <-. revert Hu. apply (bool_decide_unpack _). vm_compute. reflexivity. }
  destruct (layer_row_depends_on_in_neighbours (gcn1 net_demo) GG_demo inputs
              (<[33 := replicate 34 7%Q]> inputs) 0 34 5
              H1 H2 (proj1 net_demo_shape) H4 Hw H5 Hw' H6 H7)
    as (g1 & out & g1' & out' & Ha & Hb & Hc & _).
  exists g1, out, g1', out'. exact (conj Ha (conj Hb Hc)).
Defined.

Lemma forward_without_edges_witness :
  Net_forward gcn_message gcn_reduce (mkNet layer_demo layer_demo)
      (add_nodes 2 empty_graph) x_demo
    = Returns (with_node_frame (add_nodes 2 empty_graph)
                 (delete "h" (node_frame (add_nodes 2 (empty_graph (T:=Q))))),
               Linear_forward (linear (gcn2 (mkNet layer_demo layer_demo)))
                 (torch_relu
                    (Linear_forward (linear (gcn1 (mkNet layer_demo layer_demo))) x_demo))).
Proof.
  exact (proj2 (forward_without_edges gcn_message gcn_reduce
                  (add_nodes 2 empty_graph) x_demo 1 eq_refl eq_refl x_demo_width)
           (mkNet layer_demo layer_demo) 1 1 (conj layer_demo_shape layer_demo_shape)).
Defined.

Lemma GG_loops_demo_ready :
  valid_graph GG_loops_demo ∧ no_messages GG_loops_demo ∧
  node_frame GG_loops_demo !! "h" = None ∧ n_nodes GG_loops_demo = 34 ∧
  ∀ v, v < 34 → in_edges GG_loops_demo v ≠ [].
Proof.
  split; [vm_compute; reflexivity|]. split; [split; vm_compute; reflexivity|].
  split; [vm_compute; reflexivity|]. split; [vm_compute; reflexivity|].
  assert (Forall (λ v, in_edges GG_loops_demo v ≠ []) (seq 0 34)) as H.
  { apply (bool_decide_unpack _). vm_compute. reflexivity. }
  intros v Hv. apply (proj1 (Forall_forall _ _) H). apply elem_of_seq. lia.
Qed.

Lemma logits_have_one_entry_per_class_witness :
  ∃ logits,
    Net_forward gcn_message_eq gcn_reduce_eq net_demo GG_loops_demo inputs
      = Returns (GG_loops_demo, logits) ∧
    length logits = n_nodes GG_loops_demo ∧ tensor_width logits 2.
Proof.
  destruct GG_loops_demo_ready as (H1 & H2 & H3 & H4 & H5).
  assert (length (inputs (T:=Q)) = n_nodes GG_loops_demo) as H6
    by (rewrite H4; vm_compute; reflexivity).
  assert (∀ v, v < n_nodes GG_loops_demo → in_edges GG_loops_demo v ≠ []) as H7
    by (rewrite H4; exact H5).
  exact (logits_have_one_entry_per_class net_demo GG_loops_demo inputs 34 5 2
           H1 H2 H3 net_demo_shape H6 (torch_eye_width 34) H7).
Defined.

Lemma animation_after_training_witness :
  ∃ s,
    train gcn_message_eq gcn_reduce_eq log_softmax_row_demo nll_loss_demo
      unit backward_demo unit optim_init_demo optim_step_demo GG_loops_demo net_demo
      = Returns s ∧
    length (all_logits s) = 30 ∧
    ∃ d, draw Qltb (all_logits s) 29 = inr d ∧ title_epoch d = 29 ∧
         length (colors d) = 34.
Proof.
  destruct GG_loops_demo_ready as (H1 & H2 & H3 & H4 & H5).
  assert (0 < 2) as Hc by lia. assert (29 < 30) as Hi by lia.
  destruct (animation_after_training Qltb log_softmax_row_demo nll_loss_demo
              unit unit backward_demo optim_init_demo optim_step_demo
              GG_loops_demo net_demo 5 2 H1 H2 H3 H4 H5 net_demo_shape Hc
              (λ _ _ _ Hshape, Hshape))
    as (s & Hs & _ & Hlen & _ & _ & Hdraw).
  exists s. exact (conj Hs (conj Hlen (Hdraw 29 Hi))).
Defined.
